(** * Annotation layout and synchronized rendering engine of PaperCanvas.tsx

    A shallow embedding of the algorithmic core of
    [src/components/PaperCanvas.tsx]: the timestamp parser, the temporal
    visibility filter, the coordinate scaling, the 1D label layout solver,
    the render loop's drawing decisions, the pan/zoom handlers, the
    subtitle overlay and the time indicator; and of what surrounds it: the
    stamping of live detections in the detection loop of the application,
    the merge of grounding links in the analysis service and the link list
    of the report generator.  The model comes first, then the vocabulary
    of the properties, then the properties with their proofs.

    Numbers.  A JavaScript [number] is modelled as an exact rational [Q]:
    the arithmetic of the source ([+], [-], [*], [/], comparisons,
    [Math.abs], [Math.max], [Math.min]) is the arithmetic of [Q], without
    rounding, overflow or infinities.  The one place where the source can
    produce [NaN] from well-typed input, [parseInt], is modelled with an
    explicit [NaN] constructor.  The rounding of the coordinate round trip
    and of the side test of the layout is looked at separately, on
    binary64 numbers.

    Objects.  The label objects built by [layout] are shared between the
    [labels] array and the [leftItems]/[rightItems] arrays that the solver
    sorts and mutates.  They live in a store (a list of records); a
    reference to a label object is its index in the store. *)

From Stdlib Require Import QArith Qabs Qminmax Qround Lqa Lia ZArith.
From Stdlib Require Import Ascii String DecimalString.
From Stdlib Require PrimFloat Uint63.
From Stdlib Require DecimalNat.
From stdpp Require Import base decidable option list.

Local Open Scope Q_scope.

(** ** Label objects *)

Inductive Edge := left | right | top | bottom.

#[global] Instance Edge_eq_dec : EqDecision Edge.
Proof. solve_decision. Defined.

Record LayoutLabel := mkLabel {
  id : string;
  textLines : list string;
  isHeader : bool;
  objColor : string;
  textColor : string;
  px : Q;  (* origin x (object point) *)
  py : Q;  (* origin y (object point) *)
  tx : Q;  (* target x (text position center) *)
  ty : Q;  (* target y (text position center) *)
  width : Q;
  height : Q;
  edge : Edge
}.

(** Assignments to [tx] and [ty].  The assigned number is stored in lowest
    terms, which does not change its value ([Qred_correct]) and makes a
    number that did not change the same term. *)
Definition set_tx (v : Q) (l : LayoutLabel) : LayoutLabel :=
  mkLabel (id l) (textLines l) (isHeader l) (objColor l) (textColor l)
          (px l) (py l) (Qred v) (ty l) (width l) (height l) (edge l).

Definition set_ty (v : Q) (l : LayoutLabel) : LayoutLabel :=
  mkLabel (id l) (textLines l) (isHeader l) (objColor l) (textColor l)
          (px l) (py l) (tx l) (Qred v) (width l) (height l) (edge l).

Definition MARGIN_X : Q := 800.
Definition MARGIN_Y : Q := 600.
Definition FONT_HEIGHT_HEADER : Q := 20.
Definition FONT_HEIGHT_DETAIL : Q := 14.
Definition LABEL_PADDING : Q := 10.

(** ** The layout solver, [solve1DLayout]

    [isVertical] selects the axis: [ty]/[height]/[py] when true,
    [tx]/[width]/[px] otherwise. *)

Definition pos (isVertical : bool) (l : LayoutLabel) : Q :=
  if isVertical then ty l else tx l.

Definition size (isVertical : bool) (l : LayoutLabel) : Q :=
  if isVertical then height l else width l.

Definition anchor (isVertical : bool) (l : LayoutLabel) : Q :=
  if isVertical then py l else px l.

Definition set_pos (isVertical : bool) (v : Q) (l : LayoutLabel) : LayoutLabel :=
  if isVertical then set_ty v l else set_tx v l.

(** [x < y] on numbers, as a boolean. *)
Definition Qltb (x y : Q) : bool := if Qlt_le_dec x y then true else false.

(** The comparator of [items.sort]: [a.py - b.py] (or [px]), looked up
    through the references.  A negative result puts [a] first; the sort is
    stable, so [a] also stays first on a tie. *)
Definition key (isVertical : bool) (st : list LayoutLabel) (r : nat) : Q :=
  match st !! r with
  | Some l => anchor isVertical l
  | None => 0
  end.

Fixpoint insert_sorted (isVertical : bool) (st : list LayoutLabel)
    (r : nat) (items : list nat) : list nat :=
  match items with
  | [] => [r]
  | r' :: rest =>
      if Qltb (key isVertical st r') (key isVertical st r)
      then r' :: insert_sorted isVertical st r rest
      else r :: r' :: rest
  end.

Fixpoint sort_items (isVertical : bool) (st : list LayoutLabel)
    (items : list nat) : list nat :=
  match items with
  | [] => []
  | r :: rest => insert_sorted isVertical st r (sort_items isVertical st rest)
  end.

(** One step of the inner [for] loop, on the adjacent pair of references
    [(i, j)]: [a.ty -= push; b.ty += push] when the pair is too close. *)
Definition relax_pair (isVertical : bool) (i j : nat)
    (st : list LayoutLabel) : list LayoutLabel * bool :=
  match st !! i, st !! j with
  | Some a, Some b =>
      let aPos := pos isVertical a in
      let bPos := pos isVertical b in
      let aSize := size isVertical a in
      let bSize := size isVertical b in
      let dist := bPos - aPos in
      let minSep := (aSize + bSize) / 2 + 10 in
      if Qltb dist minSep then
        let push := (minSep - dist) / 2 in
        let st1 := alter (fun a => set_pos isVertical (pos isVertical a - push) a) i st in
        let st2 := alter (fun b => set_pos isVertical (pos isVertical b + push) b) j st1 in
        (st2, true)
      else (st, false)
  | _, _ => (st, false)
  end.

(** The inner [for (i = 0; i < items.length - 1; i++)] loop; the boolean is
    [overlapFound]. *)
Fixpoint relax_pass (isVertical : bool) (items : list nat)
    (st : list LayoutLabel) (overlapFound : bool) : list LayoutLabel * bool :=
  match items with
  | i :: ((j :: _) as rest) =>
      let '(st', found) := relax_pair isVertical i j st in
      relax_pass isVertical rest st' (overlapFound || found)
  | _ => (st, overlapFound)
  end.

(** Boundary constraints on one item. *)
Definition clamp (isVertical : bool) (minPos maxPos : Q)
    (item : LayoutLabel) : LayoutLabel :=
  let item1 :=
    if Qltb (pos isVertical item - size isVertical item / 2) minPos
    then set_pos isVertical (minPos + size isVertical item / 2) item
    else item in
  if Qltb maxPos (pos isVertical item1 + size isVertical item1 / 2)
  then set_pos isVertical (maxPos - size isVertical item1 / 2) item1
  else item1.

(** [for (let item of items) { ... }] *)
Definition boundary_pass (isVertical : bool) (minPos maxPos : Q)
    (items : list nat) (st : list LayoutLabel) : list LayoutLabel :=
  fold_left (fun st r => alter (clamp isVertical minPos maxPos) r st) items st.

(** What a run of the solver reports besides the store: how many passes of
    the [while] loop ran and whether it left through [break]. *)
Record Outcome := mkOutcome {
  store : list LayoutLabel;
  passes : nat;
  converged : bool
}.

(** [while (iterations-- > 0) { ... if (!overlapFound) break; }] *)
Fixpoint solve_loop (iterations : nat) (isVertical : bool) (minPos maxPos : Q)
    (items : list nat) (st : list LayoutLabel) (done : nat) : Outcome :=
  match iterations with
  | O => mkOutcome st done false
  | S iterations' =>
      let '(st1, overlapFound) := relax_pass isVertical items st false in
      let st2 := boundary_pass isVertical minPos maxPos items st1 in
      if overlapFound
      then solve_loop iterations' isVertical minPos maxPos items st2 (S done)
      else mkOutcome st2 (S done) true
  end.

Definition ITERATIONS : nat := 20.

(** [solve1DLayout(items, isVertical, minPos, maxPos)].  The array [items]
    is sorted in place, so the sorted array is returned with the outcome. *)
Definition solve1DLayout (items : list nat) (isVertical : bool)
    (minPos maxPos : Q) (st : list LayoutLabel) : list nat * Outcome :=
  match items with
  | [] => ([], mkOutcome st 0 true)
  | _ =>
      let items' := sort_items isVertical st items in
      (items', solve_loop ITERATIONS isVertical minPos maxPos items' st 0)
  end.

(** ** Analysis data (types.ts) *)

Record BlueprintDetail := mkDetail {
  det_name : string;
  location_point : Q * Q;   (* [y, x] *)
  description : string
}.

Record Biometrics := mkBiometrics {
  is_face : bool;
  estimated_age : option string;
  gender_presentation : option string
}.

Record Tracking := mkTracking {
  track_id : string;
  trajectory : list (Q * Q);   (* [y, x] points *)
  estimated_speed : option string
}.

Record BlueprintObject := mkObject {
  obj_id : string;
  name : string;
  box_2d : Q * Q * Q * Q;   (* [ymin, xmin, ymax, xmax], 0-1000 scale *)
  material : string;
  details : list BlueprintDetail;
  timestamp : option string;   (* "MM:SS" for video analysis *)
  biometrics : option Biometrics;
  tracking : option Tracking
}.

Definition set_details (ds : list BlueprintDetail) (o : BlueprintObject) : BlueprintObject :=
  mkObject (obj_id o) (name o) (box_2d o) (material o) ds (timestamp o)
           (biometrics o) (tracking o).

Record LiveDetection := mkLive {
  label : string;
  live_box_2d : Q * Q * Q * Q;
  live_timestamp : option Q   (* video time of the frame the detection was captured on *)
}.

Record AnalysisResult := mkResult {
  objects : list BlueprintObject
}.

(** ** [parseTimestamp]

    [parseInt] follows ECMAScript: leading white space is skipped, then an
    optional sign, then an optional [0x]/[0X] prefix that switches to radix
    16, then the longest prefix of digits; no digit at all gives [NaN].
    White space is the ASCII part of the language's white space and the
    value is an exact integer. *)

Inductive Number := NaN | Num (q : Q).

Definition num_mul (a b : Number) : Number :=
  match a, b with
  | Num x, Num y => Num (x * y)
  | _, _ => NaN
  end.

Definition num_add (a b : Number) : Number :=
  match a, b with
  | Num x, Num y => Num (x + y)
  | _, _ => NaN
  end.

Definition code (c : ascii) : Z := Z.of_nat (nat_of_ascii c).

Definition isWhiteSpace (c : ascii) : bool :=
  ((9 <=? code c) && (code c <=? 13) || (code c =? 32))%Z.

Fixpoint trimStart (s : string) : string :=
  match s with
  | String c s' => if isWhiteSpace c then trimStart s' else s
  | EmptyString => s
  end.

Definition digitValue (radix : Z) (c : ascii) : option Z :=
  let n := code c in
  let d := (if (48 <=? n) && (n <=? 57) then Some (n - 48)
            else if (97 <=? n) && (n <=? 122) then Some (n - 87)
            else if (65 <=? n) && (n <=? 90) then Some (n - 55)
            else None)%Z in
  match d with
  | Some v => if (v <? radix)%Z then Some v else None
  | None => None
  end.

(** The value of the longest prefix of radix digits, [None] when the
    prefix is empty and nothing was accumulated. *)
Fixpoint digitsPrefix (radix : Z) (s : string) (acc : option Z) : option Z :=
  match s with
  | String c s' =>
      match digitValue radix c with
      | Some v => digitsPrefix radix s' (Some (radix * default 0%Z acc + v)%Z)
      | None => acc
      end
  | EmptyString => acc
  end.

Definition parseInt (s : string) : Number :=
  let s1 := trimStart s in
  let '(sign, s2) :=
    match s1 with
    | String c r =>
        if Ascii.eqb c "-" then ((-1)%Z, r)
        else if Ascii.eqb c "+" then (1%Z, r)
        else (1%Z, s1)
    | EmptyString => (1%Z, s1)
    end in
  let '(radix, s3) :=
    match s2 with
    | String c0 (String c1 r) =>
        if (Ascii.eqb c0 "0" && (Ascii.eqb c1 "x" || Ascii.eqb c1 "X"))%bool
        then (16%Z, r)
        else (10%Z, s2)
    | _ => (10%Z, s2)
    end in
  match digitsPrefix radix s3 None with
  | None => NaN
  | Some z => Num (inject_Z (sign * z))
  end.

(** [s.split(sep)] for a one-character separator. *)
Fixpoint split (sep : ascii) (s : string) : list string :=
  match s with
  | EmptyString => [EmptyString]
  | String c s' =>
      if Ascii.eqb c sep then EmptyString :: split sep s'
      else match split sep s' with
           | p :: ps => String c p :: ps
           | [] => [String c EmptyString]
           end
  end.

(** [parseTimestamp(ts)].  Neither [split] nor [parseInt] throws, so the
    [catch] branch of the source is never taken. *)
Definition parseTimestamp (ts : option string) : Number :=
  match ts with
  | None => Num (-1)
  | Some EmptyString => Num (-1)
  | Some s =>
      match split ":"%char s with
      | [p0; p1] => num_add (num_mul (parseInt p0) (Num 60)) (parseInt p1)
      | _ => Num (-1)
      end
  end.

(** ** [visibleObjects] *)

Definition VISIBILITY_WINDOW : Q := 6 # 10.

(** The callback of [filtered.filter] on a video source.  With a [NaN]
    time both [objTime === -1] and [Math.abs(...) < 0.6] are false. *)
Definition temporallyVisible (currentTime : Q) (obj : BlueprintObject) : bool :=
  match timestamp obj with
  | None => true
  | Some EmptyString => true
  | Some _ =>
      match parseTimestamp (timestamp obj) with
      | NaN => false
      | Num objTime =>
          if Qeq_bool objTime (-1) then true
          else Qltb (Qabs (currentTime - objTime)) VISIBILITY_WINDOW
      end
  end.

(** [Math.max(1, Math.floor(x))] as an array length. *)
Definition atLeastOne (x : Q) : nat := Z.to_nat (Z.max 1 (Qfloor x)).

Definition visibleObjects (data : option AnalysisResult) (detailLevel : Q)
    (isVideo : bool) (currentTime : Q) : list BlueprintObject :=
  match data with
  | None => []
  | Some d =>
      let filtered := objects d in
      let filtered :=
        if isVideo then filter (fun obj => temporallyVisible currentTime obj = true) filtered
        else filtered in
      if Qltb detailLevel 100 then
        let maxDetails := atLeastOne (detailLevel / 20) in
        let filtered := map (fun obj => set_details (take maxDetails (details obj)) obj) filtered in
        if Qltb detailLevel 30
        then take (atLeastOne (inject_Z (Z.of_nat (length filtered)) * (detailLevel / 30))) filtered
        else filtered
      else filtered
  end.

(** ** [layout]: labels with coordinate scaling *)

(** Native media dimensions: [naturalWidth]/[videoWidth] and the heights
    are unsigned integers. *)
Record ImgDims := mkDims { w : N; h : N }.

Definition num (n : N) : Q := inject_Z (Z.of_N n).

Definition PALETTE : list string :=
  ["#1e40af"; "#991b1b"; "#166534"; "#854d0e"; "#6b21a8"; "#0f766e"; "#c2410c"]%string.

Definition palette (idx : nat) : string :=
  nth (idx mod length PALETTE) PALETTE EmptyString.

Definition getContrastColor (hexcolor : string) : string := "#ffffff"%string.

(** [toUpperCase] on the ASCII letters. *)
Definition upper (c : ascii) : ascii :=
  if ((97 <=? code c) && (code c <=? 122))%Z
  then ascii_of_nat (nat_of_ascii c - 32) else c.

Fixpoint toUpperCase (s : string) : string :=
  match s with
  | EmptyString => EmptyString
  | String c s' => String (upper c) (toUpperCase s')
  end.

(** [x || '?'] on an optional string. *)
Definition orElse (x : option string) (d : string) : string :=
  match x with
  | Some (String c s) => String c s
  | _ => d
  end.

Definition nat_to_string (n : nat) : string := NilZero.string_of_uint (Nat.to_uint n).

Definition nonEmpty (s : string) : bool :=
  match s with EmptyString => false | _ => true end.

Definition headerTextLines (obj : BlueprintObject) : list string :=
  let second :=
    match biometrics obj with
    | Some b =>
        if is_face b
        then ("AGE: " ++ orElse (estimated_age b) "?" ++ " | "
                      ++ orElse (gender_presentation b) "?")%string
        else match tracking obj with
             | Some t => match estimated_speed t with
                         | Some (String c s) => ("SPEED: " ++ String c s)%string
                         | _ => material obj
                         end
             | None => material obj
             end
    | None =>
        match tracking obj with
        | Some t => match estimated_speed t with
                    | Some (String c s) => ("SPEED: " ++ String c s)%string
                    | _ => material obj
                    end
        | None => material obj
        end
    end in
  List.filter nonEmpty [toUpperCase (name obj); second].

(** Scaling factors: the analysis returns 0-1000 coordinates, mapped to
    the native dimensions. *)
Definition scaleX (imgDims : ImgDims) : Q := num (w imgDims) / 1000.
Definition scaleY (imgDims : ImgDims) : Q := num (h imgDims) / 1000.

(** [ymin], [xmin], [ymax], [xmax] of a box scaled to the native image
    dimensions. *)
Definition scaleBox (imgDims : ImgDims) (box : Q * Q * Q * Q) : Q * Q * Q * Q :=
  let '(b0, b1, b2, b3) := box in
  (b0 * scaleY imgDims, b1 * scaleX imgDims, b2 * scaleY imgDims, b3 * scaleX imgDims).

(** The labels pushed for one object: its header, then one label per
    detail.  The side is decided by [cx > w / 2] on exact numbers, as all
    arithmetic here; in binary64 the products [xmin * scaleX] and
    [xmax * scaleX] are rounded, so a box whose centre is the middle of
    the range itself can fall on either side there ([side_right_f]). *)
Definition objectLabels (imgDims : ImgDims) (idx : nat) (obj : BlueprintObject)
    : list LayoutLabel :=
  let color := palette idx in
  let textColor := getContrastColor color in
  let '(ymin, xmin, ymax, xmax) := scaleBox imgDims (box_2d obj) in
  let cx := (xmin + xmax) / 2 in
  let cy := (ymin + ymax) / 2 in
  let quadrant := ((if Qltb (num (h imgDims) / 2) cy then 2 else 0)
                   + (if Qltb (num (w imgDims) / 2) cx then 1 else 0))%nat in
  let '(edge, px, py, tx, ty) :=
    if (Nat.eqb quadrant 0 || Nat.eqb quadrant 2)%bool
    then (left, xmin, cy, -350, cy)
    else (right, xmax, cy, num (w imgDims) + 350, cy) in
  let lines := headerTextLines obj in
  let headerWidth := 260 in
  let headerHeight :=
    inject_Z (Z.of_nat (length lines)) * FONT_HEIGHT_HEADER + LABEL_PADDING * 2 in
  mkLabel ("head_" ++ obj_id obj)%string lines true color textColor
          px py tx ty headerWidth headerHeight edge
  :: imap (fun dIdx det =>
       let dpx := snd (location_point det) * scaleX imgDims in
       let dpy := fst (location_point det) * scaleY imgDims in
       let detailTextLines := [toUpperCase (det_name det); description det] in
       let estHeight := 45 in
       mkLabel ("det_" ++ obj_id obj ++ "_" ++ nat_to_string dIdx)%string
               detailTextLines false color "#334155"%string
               dpx dpy
               (tx + (if decide (edge = left) then -50 else 50))
               (ty + (inject_Z (Z.of_nat dIdx) + 1) * 80)
               240 estHeight edge)
     (details obj).

(** The [labels] array once every visible object has pushed its labels. *)
Definition buildLabels (imgDims : ImgDims) (visible : list BlueprintObject)
    : list LayoutLabel :=
  mjoin (imap (objectLabels imgDims) visible).

(** [labels.filter(l => l.edge === e)], as the references of the kept
    objects; [i] is the index of the head of [labels]. *)
Fixpoint refsWithEdge (e : Edge) (labels : list LayoutLabel) (i : nat) : list nat :=
  match labels with
  | [] => []
  | l :: rest =>
      if decide (edge l = e) then i :: refsWithEdge e rest (S i)
      else refsWithEdge e rest (S i)
  end.

Definition bandMin : Q := - MARGIN_Y + 100.
Definition bandMax (imgDims : ImgDims) : Q := num (h imgDims) + MARGIN_Y - 100.

(** The [layout] memo: the [labels] array after both solver calls. *)
Definition layout (data : option AnalysisResult) (visible : list BlueprintObject)
    (imgDims : ImgDims) : list LayoutLabel :=
  match data with
  | None => []
  | Some _ =>
      let labels := buildLabels imgDims visible in
      let leftItems := refsWithEdge left labels 0 in
      let rightItems := refsWithEdge right labels 0 in
      let o1 := snd (solve1DLayout leftItems true bandMin (bandMax imgDims) labels) in
      let o2 := snd (solve1DLayout rightItems true bandMin (bandMax imgDims) (store o1)) in
      store o2
  end.

(** ** The render loop

    [render] is the body of the source's [render] once the canvas and its
    2D context exist; the frame is the list of drawing commands issued on
    the context, in order. *)

Inductive DrawCmd :=
  | Clear
  | Viewport (scale : Q) (offset : Q * Q) (imgDims : ImgDims)
  | MediaFrame
  | VideoLoading
  | Grid
  | LiveBox (det : LiveDetection) (x y bw bh lineWidth : Q)
  | LiveStrip (det : LiveDetection) (x y bw bh : Q)
  | LiveText (det : LiveDetection) (text : string) (x y : Q)
  | ObjectBox (obj : BlueprintObject) (color : string) (x y bw bh lineWidth : Q)
  | CornerAccents (obj : BlueprintObject) (xmin ymin xmax ymax len : Q)
  | TrajectoryLine (obj : BlueprintObject) (points : list (Q * Q))
  | Connector (lbl : LayoutLabel) (points : list (Q * Q))
  | Dot (lbl : LayoutLabel) (x y radius : Q)
  | LabelBox (lbl : LayoutLabel) (x y : Q)
  | LabelText (lbl : LayoutLabel) (line : string) (x y : Q).

Record Props := mkProps {
  data : option AnalysisResult;
  liveDetections : list LiveDetection;   (* [] when the prop is absent *)
  detailLevel : Q;
  isVideo : bool;
  videoReadyState : option nat;          (* [videoRef.current.readyState] *)
  imageComplete : bool
}.

Record CanvasState := mkCanvas {
  imgDims : ImgDims;
  scale : Q;
  offset : Q * Q;
  currentTime : Q
}.

Definition STALENESS_BOUND : Q := 12 # 10.

(** The synchronization check: [true] when the callback returns early. *)
Definition isGhost (isVideo : bool) (currentTime : Q) (det : LiveDetection) : bool :=
  match live_timestamp det with
  | Some ts => isVideo && Qltb STALENESS_BOUND (Qabs (currentTime - ts))
  | None => false
  end.

(** A live detection: the outline ([lineWidth = 4 / scale]), the filled
    label strip above it and the label text. *)
Definition liveCmds (c : CanvasState) (det : LiveDetection) : list DrawCmd :=
  let '(ymin, xmin, ymax, xmax) := scaleBox (imgDims c) (live_box_2d det) in
  [LiveBox det xmin ymin (xmax - xmin) (ymax - ymin) (4 / scale c);
   LiveStrip det xmin (ymin - 25 / scale c) (Qmin 200 (xmax - xmin)) (25 / scale c);
   LiveText det (toUpperCase (label det)) (xmin + 5) (ymin - 12 / scale c)].

Definition drawLive (p : Props) (c : CanvasState) (det : LiveDetection) : list DrawCmd :=
  if isGhost (isVideo p) (currentTime c) det then [] else liveCmds c det.

Definition scalePoint (sx sy : Q) (pt : Q * Q) : Q * Q :=
  (snd pt * sx, fst pt * sy).

Definition drawObject (c : CanvasState) (idx : nat) (obj : BlueprintObject) : list DrawCmd :=
  let color := palette idx in
  let '(ymin, xmin, ymax, xmax) := scaleBox (imgDims c) (box_2d obj) in
  [ObjectBox obj color xmin ymin (xmax - xmin) (ymax - ymin) (3 / scale c);
   CornerAccents obj xmin ymin xmax ymax (40 / scale c)]
  ++ match tracking obj with
     | Some t =>
         if (1 <? length (trajectory t))%nat
         then [TrajectoryLine obj
                 (map (scalePoint (scaleX (imgDims c)) (scaleY (imgDims c)))
                      (trajectory t))]
         else []
     | None => []
     end.

Definition drawLabel (c : CanvasState) (lbl : LayoutLabel) : list DrawCmd :=
  let elbowX := if decide (edge lbl = left) then -50 else num (w (imgDims c)) + 50 in
  let boxX := tx lbl - width lbl / 2 in
  let boxY := ty lbl - height lbl / 2 in
  let lineHeight := if isHeader lbl then FONT_HEIGHT_HEADER else FONT_HEIGHT_DETAIL in
  [Connector lbl [(px lbl, py lbl); (elbowX, py lbl); (elbowX, ty lbl); (tx lbl, ty lbl)];
   Dot lbl (px lbl) (py lbl) (4 / scale c);
   Dot lbl elbowX (py lbl) (2 / scale c);
   LabelBox lbl boxX boxY]
  ++ imap (fun i line =>
             LabelText lbl line (boxX + LABEL_PADDING)
                       (boxY + LABEL_PADDING + inject_Z (Z.of_nat i) * lineHeight))
          (textLines lbl).

Definition drawMedia (p : Props) : list DrawCmd :=
  match isVideo p, videoReadyState p with
  | true, Some readyState =>
      if (2 <=? readyState)%nat then [MediaFrame] else [VideoLoading]
  | _, _ => if imageComplete p then [MediaFrame] else []
  end.

Definition render (p : Props) (c : CanvasState) : list DrawCmd :=
  let visible := visibleObjects (data p) (detailLevel p) (isVideo p) (currentTime c) in
  let labels := layout (data p) visible (imgDims c) in
  [Clear; Viewport (scale c) (offset c) (imgDims c)]
  ++ drawMedia p
  ++ [Grid]
  (* 3a. live detections *)
  ++ mjoin (map (drawLive p c) (liveDetections p))
  (* 3b. static analysis objects, 4. labels *)
  ++ match data p, liveDetections p with
     | Some _, [] => mjoin (imap (drawObject c) visible) ++ mjoin (map (drawLabel c) labels)
     | _, _ => []
     end.

(** The commands that draw committed analysis entities. *)
Definition isCommitted (cmd : DrawCmd) : bool :=
  match cmd with
  | ObjectBox _ _ _ _ _ _ _ | CornerAccents _ _ _ _ _ _ | TrajectoryLine _ _
  | Connector _ _ | Dot _ _ _ _ | LabelBox _ _ _ | LabelText _ _ _ _ => true
  | _ => false
  end.

(** The live detection a command draws. *)
Definition detectionOf (cmd : DrawCmd) : option LiveDetection :=
  match cmd with
  | LiveBox det _ _ _ _ _ | LiveStrip det _ _ _ _ | LiveText det _ _ _ => Some det
  | _ => None
  end.

(** ** The interaction handlers

    [Math.hypot] is not rational; it is a parameter of the handlers. *)

Record ViewState := mkView {
  v_scale : Q;
  v_offset : Q * Q;
  isDragging : bool;
  dragStart : Q * Q;
  touchStart : option (Q * Q);
  initialPinchDistance : option Q;
  initialScale : Q
}.

Definition MIN_SCALE : Q := 5 # 100.
Definition MAX_SCALE : Q := 8.
Definition DEFAULT_SCALE : Q := 45 # 100.
Definition MOBILE_SCALE : Q := 3 # 10.

Definition initialView : ViewState :=
  mkView DEFAULT_SCALE (0, 0) false (0, 0) None None DEFAULT_SCALE.

Definition setScale (s : Q) (v : ViewState) : ViewState :=
  mkView s (v_offset v) (isDragging v) (dragStart v) (touchStart v)
         (initialPinchDistance v) (initialScale v).

Definition setOffset (o : Q * Q) (v : ViewState) : ViewState :=
  mkView (v_scale v) o (isDragging v) (dragStart v) (touchStart v)
         (initialPinchDistance v) (initialScale v).

Definition setIsDragging (b : bool) (v : ViewState) : ViewState :=
  mkView (v_scale v) (v_offset v) b (dragStart v) (touchStart v)
         (initialPinchDistance v) (initialScale v).

Definition setDragStart (d : Q * Q) (v : ViewState) : ViewState :=
  mkView (v_scale v) (v_offset v) (isDragging v) d (touchStart v)
         (initialPinchDistance v) (initialScale v).

Definition setTouchRefs (t : option (Q * Q)) (d : option Q) (s : Q) (v : ViewState) : ViewState :=
  mkView (v_scale v) (v_offset v) (isDragging v) (dragStart v) t d s.

(** [Math.max(0.05, Math.min(8, requested))] *)
Definition clampScale (requested : Q) : Q := Qmax MIN_SCALE (Qmin MAX_SCALE requested).

Definition handleWheel (deltaY : Q) (v : ViewState) : ViewState :=
  let newScale := clampScale (v_scale v - deltaY * (1 # 1000)) in
  setScale newScale v.

Definition handleMouseDown (client : Q * Q) (v : ViewState) : ViewState :=
  setDragStart (fst client - fst (v_offset v), snd client - snd (v_offset v))
               (setIsDragging true v).

Definition handleMouseMove (client : Q * Q) (v : ViewState) : ViewState :=
  if isDragging v
  then setOffset (fst client - fst (dragStart v), snd client - snd (dragStart v)) v
  else v.

Definition handleMouseUp (v : ViewState) : ViewState := setIsDragging false v.

(** The Reset button: [setScale(0.45); setOffset({x: 0, y: 0})]. *)
Definition resetView (v : ViewState) : ViewState := setOffset (0, 0) (setScale DEFAULT_SCALE v).

(** The [onload]/[loadedmetadata] handlers: recentre, and zoom out on a
    narrow window. *)
Definition mediaLoaded (narrow : bool) (v : ViewState) : ViewState :=
  let v1 := setOffset (0, 0) v in
  if narrow then setScale MOBILE_SCALE v1 else v1.

Section Touch.
Variable hypot : Q -> Q -> Q.

Definition touchDistance (t0 t1 : Q * Q) : Q :=
  hypot (fst t0 - fst t1) (snd t0 - snd t1).

Definition handleTouchStart (touches : list (Q * Q)) (v : ViewState) : ViewState :=
  match touches with
  | [t0] =>
      setIsDragging true
        (setDragStart (fst t0 - fst (v_offset v), snd t0 - snd (v_offset v))
           (setTouchRefs (Some t0) (initialPinchDistance v) (initialScale v) v))
  | [t0; t1] =>
      setIsDragging false
        (setTouchRefs (touchStart v) (Some (touchDistance t0 t1)) (v_scale v) v)
  | _ => v
  end.

(** The pinch branch is taken with two touches and a truthy (non-null,
    non-zero) initial distance. *)
Definition pinching (touches : list (Q * Q)) (v : ViewState) : option (Q * Q) :=
  match touches, initialPinchDistance v with
  | [t0; t1], Some d => if Qeq_bool d 0 then None else Some (touchDistance t0 t1, d)
  | _, _ => None
  end.

Definition handleTouchMove (touches : list (Q * Q)) (v : ViewState) : ViewState :=
  match touches with
  | [t0] =>
      if isDragging v
      then setOffset (fst t0 - fst (dragStart v), snd t0 - snd (dragStart v)) v
      else v
  | _ =>
      match pinching touches v with
      | Some (currentDist, initialDist) =>
          let delta := currentDist / initialDist in
          let newScale := clampScale (initialScale v * delta) in
          setScale newScale v
      | None => v
      end
  end.

Definition handleTouchEnd (v : ViewState) : ViewState :=
  setIsDragging false (setTouchRefs (touchStart v) None (initialScale v) v).

Inductive Event :=
  | Wheel (deltaY : Q)
  | MouseDown (client : Q * Q)
  | MouseMove (client : Q * Q)
  | MouseUp
  | TouchStart (touches : list (Q * Q))
  | TouchMove (touches : list (Q * Q))
  | TouchEnd
  | Reset
  | MediaLoaded (narrow : bool).

Definition step (v : ViewState) (e : Event) : ViewState :=
  match e with
  | Wheel deltaY => handleWheel deltaY v
  | MouseDown c => handleMouseDown c v
  | MouseMove c => handleMouseMove c v
  | MouseUp => handleMouseUp v
  | TouchStart ts => handleTouchStart ts v
  | TouchMove ts => handleTouchMove ts v
  | TouchEnd => handleTouchEnd v
  | Reset => resetView v
  | MediaLoaded narrow => mediaLoaded narrow v
  end.

Definition run (events : list Event) (v : ViewState) : ViewState :=
  fold_left step events v.
End Touch.

(** ** The subtitle overlay and the time indicator

    The overlay below the canvas and the clock in its corner, at the end of
    the component. *)

Record SubtitleSegment := mkSubtitle {
  sub_start : string;   (* "MM:SS" *)
  sub_end : string;     (* "MM:SS" *)
  sub_text : string
}.

(** [a <= b] on numbers that may be [NaN]: false as soon as one is. *)
Definition num_leb (a b : Number) : bool :=
  match a, b with
  | Num x, Num y => Qle_bool x y
  | _, _ => false
  end.

(** [currentTime >= start && currentTime <= end] *)
Definition subtitleShown (currentTime : Q) (sub : SubtitleSegment) : bool :=
  let start := parseTimestamp (Some (sub_start sub)) in
  let end_ := parseTimestamp (Some (sub_end sub)) in
  num_leb start (Num currentTime) && num_leb (Num currentTime) end_.

(** The texts the overlay shows, in order; [subtitles] is
    [data?.audio_analysis?.subtitles]. *)
Definition subtitleOverlay (isVideo : bool) (subtitles : option (list SubtitleSegment))
    (currentTime : Q) : list string :=
  if isVideo then
    match subtitles with
    | Some subs => map sub_text (List.filter (subtitleShown currentTime) subs)
    | None => []
    end
  else [].

(** [n.toString()] for an integer: plain decimal digits, as the language
    prints every integer below 10^21 in absolute value. *)
Definition int_to_string (z : Z) : string :=
  if (z <? 0)%Z then ("-" ++ nat_to_string (Z.abs_nat z))%string
  else nat_to_string (Z.to_nat z).

Fixpoint repeat_char (n : nat) (c : ascii) : string :=
  match n with
  | O => EmptyString
  | S n' => String c (repeat_char n' c)
  end.

(** [s.padStart(targetLength, c)] for a one-character pad. *)
Definition padStart (targetLength : nat) (c : ascii) (s : string) : string :=
  (repeat_char (targetLength - String.length s) c ++ s)%string.

(** The clock of the indicator:
    [Math.floor(currentTime / 60)] and [Math.floor(currentTime) % 60], each
    padded to two digits; [%] takes the sign of the dividend. *)
Definition clockText (currentTime : Q) : string :=
  (padStart 2 "0" (int_to_string (Qfloor (currentTime / 60)))
   ++ ":" ++ padStart 2 "0" (int_to_string (Z.rem (Qfloor currentTime) 60)))%string.

Definition timeIndicator (currentTime : Q) : string := ("T: " ++ clockText currentTime)%string.

(** ** The live detection loop (App.tsx)

    [results.map(r => ({ ...r, timestamp: captureTimestamp }))]: every
    detection of a tick is stamped with the video time of the captured
    frame. *)

Definition stampDetections (captureTimestamp : Q) (results : list LiveDetection)
    : list LiveDetection :=
  map (fun r => mkLive (label r) (live_box_2d r) (Some captureTimestamp)) results.

(** The HUD over the camera feed (App.tsx): one outlined box per entry of
    the live-detection list, positioned in percent of the feed (the
    normalized coordinates divided by 10), with the entry's label above
    it.  The list is mapped as it is: the HUD has no test on the age of an
    entry. *)
Record HudBox := mkHud {
  hud_top : Q;
  hud_left : Q;
  hud_width : Q;
  hud_height : Q;
  hud_label : string
}.

Definition hudBox (det : LiveDetection) : HudBox :=
  let '(ymin, xmin, ymax, xmax) := live_box_2d det in
  mkHud (ymin / 10) (xmin / 10) ((xmax - xmin) / 10) ((ymax - ymin) / 10) (label det).

Definition cameraHud (liveDetections : list LiveDetection) : list HudBox :=
  map hudBox liveDetections.

(** ** Grounding links (services/geminiService.ts, [analyzeImage]) *)

Record WebProvenance := mkProvenance {
  source_title : string;
  url : string;
  relevance : string
}.

Record GroundingSource := mkSource {
  uri : option string;
  title : option string
}.

Record GroundingChunk := mkChunk {
  web : option GroundingSource;
  maps : option GroundingSource
}.

(** The link pushed for [chunk.web] or [chunk.maps] when it is present
    and has a non-empty [uri]. *)
Definition sourceLink (src : option GroundingSource) (fallback rel : string)
    : list WebProvenance :=
  match src with
  | Some g =>
      match uri g with
      | Some (String c u) => [mkProvenance (orElse (title g) fallback) (String c u) rel]
      | _ => []
      end
  | None => []
  end.

Definition groundingLinks (chunks : list GroundingChunk) : list WebProvenance :=
  mjoin (map (fun chunk =>
                sourceLink (web chunk) "Web Source" "Grounding Reference"
                ++ sourceLink (maps chunk) "Google Maps Location" "Location Verification")
             chunks).

(** [if (!result.web_provenance.some(wp => wp.url === link.url))
      result.web_provenance.push(link)] *)
Definition pushLink (web_provenance : list WebProvenance) (link : WebProvenance)
    : list WebProvenance :=
  if existsb (fun wp => String.eqb (url wp) (url link)) web_provenance
  then web_provenance
  else web_provenance ++ [link].

(** [web_provenance] after the grounding chunks of the response, if any,
    were processed. *)
Definition mergeGrounding (web_provenance : list WebProvenance)
    (groundingChunks : option (list GroundingChunk)) : list WebProvenance :=
  match groundingChunks with
  | Some chunks => fold_left pushLink (groundingLinks chunks) web_provenance
  | None => web_provenance
  end.

(** ** The report's link list (services/pdfService.ts)

    The cursor of the report: the current height on the page and the
    number of the page.  [checkPageBreak] starts a new page when the needed
    space would reach into the bottom margin. *)






(** * Vocabulary of the properties *)

(** ** Stores and runs of the solver *)

Section Vocabulary.
Variable isVertical : bool.
Variables minPos maxPos : Q.

(** Two labels that differ at most in their position on the layout axis. *)
Definition same_label (a b : LayoutLabel) : Prop :=
  set_pos isVertical 0 a = set_pos isVertical 0 b.

(** [st'] is [st] where the labels referenced by [items] may have moved
    along the layout axis; nothing else changed. *)
Definition evolves (items : list nat) (st st' : list LayoutLabel) : Prop :=
  length st' = length st /\
  forall r a, st !! r = Some a ->
    exists b, st' !! r = Some b /\ same_label a b /\ (r ∉ items -> b = a).

(** The label's interval lies inside the band. *)
Definition in_band (l : LayoutLabel) : Prop :=
  minPos <= pos isVertical l - size isVertical l / 2 /\
  pos isVertical l + size isVertical l / 2 <= maxPos.

(** Every referenced label is left alone by the boundary constraints. *)
Definition settled (items : list nat) (st : list LayoutLabel) : Prop :=
  forall r l, r ∈ items -> st !! r = Some l -> clamp isVertical minPos maxPos l = l.

(** The pair [(i, j)] keeps the minimum separation: nothing to push. *)
Definition pair_ok (st : list LayoutLabel) (i j : nat) : Prop :=
  forall a b, st !! i = Some a -> st !! j = Some b ->
    (size isVertical a + size isVertical b) / 2 + 10
      <= pos isVertical b - pos isVertical a.

(** Every adjacent pair of [items] keeps the minimum separation. *)
Fixpoint separated (st : list LayoutLabel) (items : list nat) : Prop :=
  match items with
  | i :: ((j :: _) as rest) => pair_ok st i j /\ separated st rest
  | _ => True
  end.

(** A store the solver has nothing left to do on. *)
Definition stable (items : list nat) (st : list LayoutLabel) : Prop :=
  separated st items /\ settled items st.

(** The references are in the order of their anchors. *)
Fixpoint ordered (st : list LayoutLabel) (items : list nat) : Prop :=
  match items with
  | r :: ((r' :: _) as rest) =>
      key isVertical st r <= key isVertical st r' /\ ordered st rest
  | _ => True
  end.

(** How far the intervals of two labels run into each other: the length
    of their intersection when it is positive. *)
Definition overlap (a b : LayoutLabel) : Q :=
  Qmin (pos isVertical a + size isVertical a / 2)
       (pos isVertical b + size isVertical b / 2)
  - Qmax (pos isVertical a - size isVertical a / 2)
         (pos isVertical b - size isVertical b / 2).

(** Every reference points to a label, of non-negative size. *)
Definition well_formed (st : list LayoutLabel) (items : list nat) : Prop :=
  forall r, r ∈ items -> exists l, st !! r = Some l /\ 0 <= size isVertical l.

End Vocabulary.

(** ** Normalized coordinates, anchors and the margin band *)

Definition in_range (x : Q) : Prop := 0 <= x <= 1000.

Definition box_in_range (box : Q * Q * Q * Q) : Prop :=
  let '(b0, b1, b2, b3) := box in
  in_range b0 /\ in_range b1 /\ in_range b2 /\ in_range b3.

Definition point_in_range (pt : Q * Q) : Prop :=
  in_range (fst pt) /\ in_range (snd pt).

(** The anchor of the label lies on the media. *)
Definition anchor_on_media (imgDims : ImgDims) (l : LayoutLabel) : Prop :=
  0 <= px l <= num (w imgDims) /\ 0 <= py l <= num (h imgDims).

(** The label's interval along the layout axis lies in the margin band. *)
Definition target_in_band (imgDims : ImgDims) (l : LayoutLabel) : Prop :=
  in_band true bandMin (bandMax imgDims) l.

(** The label's box lies in the lateral margin of its side: left of the
    media for a left label, right of it for a right label, within
    [MARGIN_X] of the media edge. *)
Definition target_in_margin (imgDims : ImgDims) (l : LayoutLabel) : Prop :=
  match edge l with
  | left => - MARGIN_X <= tx l - width l / 2 /\ tx l + width l / 2 <= 0
  | right =>
      num (w imgDims) <= tx l - width l / 2 /\
      tx l + width l / 2 <= num (w imgDims) + MARGIN_X
  | _ => False
  end.

(** The inverse mapping of the round trip.  The source has none: this
    definition follows the specification's words, from media space back to
    the normalized space "using inverse scale factors", the inverses
    [1000 / W] and [1000 / H] of the factors [W / 1000] and [H / 1000] of
    the specification's mapping.  It does not refer to [scaleX] and
    [scaleY]. *)
Definition unscaleBox (imgDims : ImgDims) (box : Q * Q * Q * Q) : Q * Q * Q * Q :=
  let '(ymin, xmin, ymax, xmax) := box in
  (ymin * (1000 / num (h imgDims)), xmin * (1000 / num (w imgDims)),
   ymax * (1000 / num (h imgDims)), xmax * (1000 / num (w imgDims))).

(** Equality of boxes as numbers. *)
Definition box_eq (a b : Q * Q * Q * Q) : Prop :=
  let '(a0, a1, a2, a3) := a in
  let '(b0, b1, b2, b3) := b in
  a0 == b0 /\ a1 == b1 /\ a2 == b2 /\ a3 == b3.

(** The same round trip in IEEE binary64, the arithmetic the source runs
    on: the factor [d / 1000] of the source, applied as in [x * scaleX],
    and the inverse factor [1000 / d]. *)
Definition float_of_nat (n : nat) : PrimFloat.float :=
  PrimFloat.of_uint63 (Uint63.of_Z (Z.of_nat n)).

Definition THOUSAND : PrimFloat.float := PrimFloat.of_uint63 (Uint63.of_Z 1000).

Definition scale_f (d : PrimFloat.float) : PrimFloat.float :=
  PrimFloat.div d THOUSAND.

Definition inverse_f (d : PrimFloat.float) : PrimFloat.float :=
  PrimFloat.div THOUSAND d.

Definition round_trip_f (d x : PrimFloat.float) : PrimFloat.float :=
  PrimFloat.mul (PrimFloat.mul x (scale_f d)) (inverse_f d).

(** The tolerance of the round trip, [2^-40]: below a millionth of a
    millionth of a normalized unit. *)
Definition TOLERANCE : PrimFloat.float :=
  PrimFloat.div PrimFloat.one (PrimFloat.of_uint63 (Uint63.of_Z (2 ^ 40))).

Definition within_tolerance (a b : PrimFloat.float) : bool :=
  PrimFloat.leb (PrimFloat.abs (PrimFloat.sub a b)) TOLERANCE.

(** The round trip of every coordinate of a list at every dimension of a
    list comes back within the tolerance. *)
Definition round_trips_within_tolerance (dimensions coordinates : list nat) : bool :=
  let xs := map float_of_nat coordinates in
  forallb (fun d =>
             let df := float_of_nat d in
             forallb (fun x => within_tolerance (round_trip_f df x) x) xs)
          dimensions.

(** The integer dimensions the round trip is checked at in binary64, up to
    beyond the width of 8K video, and the integer coordinates of the
    normalized space. *)
Definition MAX_DIMENSION : nat := 8192.
Definition DIMENSIONS : list nat := seq 1 MAX_DIMENSION.
Definition COORDINATES : list nat := seq 0 1001.

(** The side test of [layout] in binary64, on the horizontal sides of a
    normalized box: [cx > imgDims.w / 2] with [cx = (xmin + xmax) / 2],
    [xmin = box[1] * scaleX], [xmax = box[3] * scaleX] and
    [scaleX = imgDims.w / 1000]. *)
Definition TWO : PrimFloat.float := PrimFloat.of_uint63 (Uint63.of_Z 2).

Definition side_right_f (w b1 b3 : PrimFloat.float) : bool :=
  let scaleX := PrimFloat.div w THOUSAND in
  let xmin := PrimFloat.mul b1 scaleX in
  let xmax := PrimFloat.mul b3 scaleX in
  let cx := PrimFloat.div (PrimFloat.add xmin xmax) TWO in
  PrimFloat.ltb (PrimFloat.div w TWO) cx.

(** At every dimension of a list, every box with integer sides [n] and
    [999 - n] (centre 499.5) is put on the left and every box with sides
    [n + 1] and [1000 - n] (centre 500.5) on the right. *)
Definition sides_off_middle (dimensions ns : list nat) : bool :=
  let boxes := map (fun n => (float_of_nat n, float_of_nat (999 - n),
                              float_of_nat (S n), float_of_nat (1000 - n))) ns in
  forallb (fun d =>
             let wf := float_of_nat d in
             forallb (fun '(a, b, a', b') =>
                        negb (side_right_f wf a b) && side_right_f wf a' b')
                     boxes)
          dimensions.

Definition LOWER_SIDES : list nat := seq 0 1000.

(** ** Timestamps and visibility *)

Definition isDigit (c : ascii) : bool := ((48 <=? code c) && (code c <=? 57))%Z.

Fixpoint allDigits (s : string) : bool :=
  match s with
  | EmptyString => true
  | String c s' => isDigit c && allDigits s'
  end.

(** A non-empty string of decimal digits. *)
Definition digits (s : string) : Prop := s <> EmptyString /\ allDigits s = true.

(** The number a string of decimal digits denotes. *)
Fixpoint decimal (acc : Z) (s : string) : Z :=
  match s with
  | EmptyString => acc
  | String c s' => decimal (10 * acc + (code c - 48)) s'
  end.

(** The seconds that "MM:SS" denotes. *)
Definition seconds (mm ss : string) : Q := inject_Z (decimal 0 mm * 60 + decimal 0 ss).

(** [o'] is [obj] up to the truncation of its details. *)
Definition same_entity (obj o' : BlueprintObject) : Prop :=
  o' = set_details (details o') obj.

(** An entity is visible when [visibleObjects] keeps it. *)
Definition shown (vis : list BlueprintObject) (obj : BlueprintObject) : Prop :=
  exists o', o' ∈ vis /\ same_entity obj o'.

(** The entities that pass the temporal filter, the first stage of
    [visibleObjects]. *)
Definition temporalFilter (isVideo : bool) (currentTime : Q)
    (objs : list BlueprintObject) : list BlueprintObject :=
  if isVideo then filter (fun obj => temporallyVisible currentTime obj = true) objs
  else objs.

(** ** Frames *)

Definition isBackground (cmd : DrawCmd) : bool :=
  match cmd with
  | Clear | Viewport _ _ _ | MediaFrame | VideoLoading | Grid => true
  | _ => false
  end.

(** The commands that draw the committed analysis entities: the boxes,
    corner accents and trajectories of the visible objects, then the
    connectors, boxes and text of the labels. *)
Definition drawCommitted (p : Props) (c : CanvasState) : list DrawCmd :=
  let visible := visibleObjects (data p) (detailLevel p) (isVideo p) (currentTime c) in
  let labels := layout (data p) visible (imgDims c) in
  mjoin (imap (drawObject c) visible) ++ mjoin (map (drawLabel c) labels).

(** The commands that draw the live detections. *)
Definition drawAllLive (p : Props) (c : CanvasState) : list DrawCmd :=
  mjoin (map (drawLive p c) (liveDetections p)).

(** ** Zoom *)

Definition scale_in_bounds (s : Q) : Prop := MIN_SCALE <= s <= MAX_SCALE.

(** ** Concrete inputs *)

Definition entity_0010 : BlueprintObject :=
  mkObject "e1" "car" (100, 100, 200, 200) "steel" [] (Some "00:10"%string) None None.

Definition entity_plain : BlueprintObject :=
  mkObject "e2" "tree" (300, 300, 400, 400) "wood" [] None None None.

Definition entity_garbled : BlueprintObject :=
  mkObject "e3" "bus" (500, 500, 600, 600) "steel" [] (Some "ab:cd"%string) None None.

Definition frame_props (dets : list LiveDetection) : Props :=
  mkProps (Some (mkResult [entity_plain])) dets 100 false None true.

Definition frame_canvas : CanvasState :=
  mkCanvas (mkDims 1000 1000) (45 # 100) (0, 0) 0.

(** A stand-in for [Math.hypot] on axis-aligned touch pairs. *)
Definition hypot_axis (dx dy : Q) : Q := Qabs dx + Qabs dy.

Definition pinch_start : ViewState :=
  handleTouchStart hypot_axis [(0, 0); (10, 0)] initialView.

(** A crowded corner: one object near the bottom edge of a 1000 x 1000
    image, with eight details.  The header and the details start 80 apart,
    so the first pass finds no overlap; the boundary constraints then pull
    the last two details back into the band, onto each other, and the loop
    leaves through [break]. *)
Definition crowded_detail : BlueprintDetail := mkDetail "mark" (990, 150) "note".

Definition crowded : BlueprintObject :=
  mkObject "1" "car" (980, 100, 1000, 200) "steel" (replicate 8 crowded_detail)
           None None None.

Definition crowded_dims : ImgDims := mkDims 1000 1000.

Definition crowded_labels : list LayoutLabel := buildLabels crowded_dims [crowded].

Definition crowded_items : list nat := refsWithEdge left crowded_labels 0.

Definition crowded_run1 : list nat * Outcome :=
  solve1DLayout crowded_items true bandMin (bandMax crowded_dims) crowded_labels.

Definition crowded_run2 : list nat * Outcome :=
  solve1DLayout (fst crowded_run1) true bandMin (bandMax crowded_dims)
                (store (snd crowded_run1)).

(** An object whose box lies in the normalized range and whose detail
    point does not. *)
Definition stray : BlueprintObject :=
  mkObject "1" "car" (100, 100, 200, 200) "steel"
           [mkDetail "mark" (1500, 1500) "note"] None None None.

(** ** Inputs of the solver *)

(** The sum of the positions of the referenced labels. *)
Definition total_pos (isVertical : bool) (st : list LayoutLabel) (items : list nat) : Q :=
  fold_right (fun r acc => from_option (pos isVertical) 0 (st !! r) + acc) 0 items.

(** Two left labels of height 40, anchored and placed at 100 and 120: the
    first pass pushes them 50 apart, the second finds nothing to do. *)
Definition near_pair : list LayoutLabel :=
  [mkLabel "a" [] true "#1e40af" "#ffffff" 0 100 (-350) 100 260 40 left;
   mkLabel "b" [] false "#1e40af" "#334155" 0 120 (-400) 120 240 40 left].

(** A label taller than the band it is laid out in. *)
Definition tall_label : list LayoutLabel :=
  [mkLabel "t" [] true "#1e40af" "#ffffff" 0 50 (-350) 50 260 300 left].

(** ** Entities and boxes *)

(** The horizontal centre of a box, in the normalized space. *)
Definition centre_x (box : Q * Q * Q * Q) : Q :=
  let '(_, xmin, _, xmax) := box in (xmin + xmax) / 2.

(** The identifiers of a list of entities, in order. *)
Definition ids (objs : list BlueprintObject) : list string := map obj_id objs.

(** Three entities with three details each. *)
Definition detailed_entity (i : string) : BlueprintObject :=
  mkObject i "car" (100, 100, 200, 200) "steel"
           [mkDetail "a" (110, 110) "x"; mkDetail "b" (120, 120) "y"; mkDetail "c" (130, 130) "z"]
           None None None.

Definition three_entities : AnalysisResult :=
  mkResult [detailed_entity "1"; detailed_entity "2"; detailed_entity "3"].

(** ** Subtitles *)

(** Two segments: the first spoken from 0:02 to 0:05, the second with an
    end that is no timestamp. *)
Definition spoken : SubtitleSegment := mkSubtitle "00:02" "00:05" "hello".
Definition open_ended : SubtitleSegment := mkSubtitle "00:06" "later" "world".

(** A segment whose start is no timestamp, and one whose start has two
    fields that are no numbers. *)
Definition unstarted : SubtitleSegment := mkSubtitle "x" "00:05" "early".
Definition garbled_start : SubtitleSegment := mkSubtitle "ab:cd" "00:05" "lost".

(** ** Gestures *)

(** A pointer going down at a point and moving to a point, for the mouse
    and for one finger. *)
Definition pointerDown (touch : bool) (p : Q * Q) : Event :=
  if touch then TouchStart [p] else MouseDown p.

Definition pointerMove (touch : bool) (p : Q * Q) : Event :=
  if touch then TouchMove [p] else MouseMove p.

(** Two fingers moving to a pair of points. *)
Definition pinchMove (m : (Q * Q) * (Q * Q)) : Event := TouchMove [fst m; snd m].

(** ** Grounding chunks and report pages *)

Definition link_a : WebProvenance := mkProvenance "A" "https://a.example" "cited".

(** Three chunks: a web source already among the links, a web source
    without title together with a map location, and the latter web source
    again. *)
Definition sample_chunks : list GroundingChunk :=
  [mkChunk (Some (mkSource (Some "https://a.example") (Some "A again"))) None;
   mkChunk (Some (mkSource (Some "https://b.example") None))
           (Some (mkSource (Some "https://maps.example/1") (Some "Plaza")));
   mkChunk (Some (mkSource (Some "https://b.example") (Some "B"))) None]%string.


(** * Properties *)

(** ** Numbers *)

Lemma Qltb_true (x y : Q) : Qltb x y = true <-> x < y.
Proof.
  unfold Qltb. destruct (Qlt_le_dec x y) as [H | H]; split; intros; try easy.
  exfalso. apply (Qle_not_lt _ _ H). assumption.
Qed.

Lemma Qltb_false (x y : Q) : Qltb x y = false <-> y <= x.
Proof.
  unfold Qltb. destruct (Qlt_le_dec x y) as [H | H]; split; intros; try easy.
  exfalso. apply (Qle_not_lt y x); assumption.
Qed.

(** [lra] with the divisions by the constants of the source turned into
    multiplications. *)
Ltac qlra :=
  unfold Qdiv in *;
  change (/ 2) with (1 # 2) in *;
  change (/ 1000) with (1 # 1000) in *;
  lra.

(** ** Label fields under assignment *)

Section LabelFields.
Variable isVertical : bool.

Lemma pos_set_pos v l : pos isVertical (set_pos isVertical v l) == v.
Proof. destruct isVertical; simpl; apply Qred_correct. Qed.

Lemma size_set_pos v l : size isVertical (set_pos isVertical v l) = size isVertical l.
Proof. destruct isVertical; reflexivity. Qed.

Lemma anchor_set_pos v l : anchor isVertical (set_pos isVertical v l) = anchor isVertical l.
Proof. destruct isVertical; reflexivity. Qed.

Lemma set_pos_set_pos v v' l :
  set_pos isVertical v (set_pos isVertical v' l) = set_pos isVertical v l.
Proof. destruct isVertical; reflexivity. Qed.

Lemma same_label_refl a : same_label isVertical a a.
Proof. reflexivity. Qed.

Lemma same_label_trans a b c :
  same_label isVertical a b -> same_label isVertical b c -> same_label isVertical a c.
Proof. unfold same_label. congruence. Qed.

Lemma same_label_set_pos v a : same_label isVertical a (set_pos isVertical v a).
Proof. unfold same_label. now rewrite set_pos_set_pos. Qed.

Lemma same_label_size a b :
  same_label isVertical a b -> size isVertical a = size isVertical b.
Proof.
  unfold same_label. intros H.
  rewrite <- (size_set_pos 0 a), <- (size_set_pos 0 b). now rewrite H.
Qed.

Lemma same_label_anchor a b :
  same_label isVertical a b -> anchor isVertical a = anchor isVertical b.
Proof.
  unfold same_label. intros H.
  rewrite <- (anchor_set_pos 0 a), <- (anchor_set_pos 0 b). now rewrite H.
Qed.

Lemma same_label_other_axis a b :
  same_label isVertical a b ->
  pos (negb isVertical) a = pos (negb isVertical) b.
Proof.
  unfold same_label. destruct isVertical; simpl; intros H; now inversion H.
Qed.

Lemma same_label_fields a b :
  same_label isVertical a b ->
  px a = px b /\ py a = py b /\ edge a = edge b /\
  width a = width b /\ height a = height b /\ isHeader a = isHeader b.
Proof.
  unfold same_label.
  destruct isVertical; simpl; intros H; inversion H; repeat split; assumption.
Qed.
End LabelFields.

(** ** The solver only moves the labels it is given, along the layout axis *)

Section SolverFrame.
Variable isVertical : bool.
Variables minPos maxPos : Q.

Lemma evolves_refl items st : evolves isVertical items st st.
Proof.
  split; [reflexivity |]. intros r a Ha. exists a.
  split; [assumption |]. split; [apply same_label_refl | reflexivity].
Qed.

Lemma evolves_trans items st1 st2 st3 :
  evolves isVertical items st1 st2 -> evolves isVertical items st2 st3 ->
  evolves isVertical items st1 st3.
Proof.
  intros [Hl1 H1] [Hl2 H2]. split; [congruence |].
  intros r a Ha. destruct (H1 r a Ha) as (b & Hb & Sab & Fab).
  destruct (H2 r b Hb) as (c & Hc & Sbc & Fbc).
  exists c. split; [assumption |]. split.
  - eapply same_label_trans; eassumption.
  - intros Hr. rewrite (Fbc Hr). apply Fab, Hr.
Qed.

Lemma evolves_alter items st r f :
  r ∈ items -> (forall a, same_label isVertical a (f a)) ->
  evolves isVertical items st (alter f r st).
Proof.
  intros Hr Hf. split; [apply length_alter |].
  intros r' a Ha. destruct (decide (r = r')) as [-> | Hne].
  - exists (f a). rewrite list_lookup_alter_eq, Ha. split; [reflexivity |].
    split; [apply Hf | intros Hn; contradiction].
  - exists a. rewrite list_lookup_alter_ne by assumption.
    split; [assumption |]. split; [apply same_label_refl | reflexivity].
Qed.

Lemma relax_pair_evolves items i j st :
  i ∈ items -> j ∈ items -> evolves isVertical items st (fst (relax_pair isVertical i j st)).
Proof.
  intros Hi Hj. unfold relax_pair.
  destruct (st !! i) as [a |]; [| apply evolves_refl].
  destruct (st !! j) as [b |]; [| apply evolves_refl].
  simpl. destruct (Qltb _ _); simpl; [| apply evolves_refl].
  eapply evolves_trans; apply evolves_alter; try assumption;
    intros x; apply same_label_set_pos.
Qed.

Lemma relax_pass_evolves items sub st found :
  sub ⊆ items -> evolves isVertical items st (fst (relax_pass isVertical sub st found)).
Proof.
  revert st found. induction sub as [| i [| j rest] IH]; intros st found Hsub;
    try apply evolves_refl.
  cbn [relax_pass].
  pose proof (relax_pair_evolves items i j st) as Hp.
  destruct (relax_pair isVertical i j st) as [st' f] eqn:E.
  eapply evolves_trans.
  - apply Hp; apply Hsub; rewrite !elem_of_cons; auto.
  - apply IH. intros x Hx. apply Hsub. rewrite elem_of_cons; auto.
Qed.

Lemma clamp_same_label l : same_label isVertical l (clamp isVertical minPos maxPos l).
Proof.
  unfold clamp. repeat destruct (Qltb _ _);
    try apply same_label_refl; try apply same_label_set_pos.
  eapply same_label_trans; apply same_label_set_pos.
Qed.

Lemma boundary_pass_evolves items sub st :
  sub ⊆ items -> evolves isVertical items st (boundary_pass isVertical minPos maxPos sub st).
Proof.
  revert st. induction sub as [| r rest IH]; intros st Hsub; [apply evolves_refl |].
  unfold boundary_pass. simpl. eapply evolves_trans.
  - apply evolves_alter; [apply Hsub; rewrite elem_of_cons; auto | apply clamp_same_label].
  - apply IH. intros x Hx. apply Hsub. rewrite elem_of_cons; auto.
Qed.

Lemma solve_loop_evolves n items st done :
  evolves isVertical items st (store (solve_loop n isVertical minPos maxPos items st done)).
Proof.
  revert st done. induction n as [| n IH]; intros st done; [apply evolves_refl |].
  cbn [solve_loop].
  pose proof (relax_pass_evolves items items st false (reflexivity _)) as H1.
  destruct (relax_pass isVertical items st false) as [st1 found]. simpl in H1.
  pose proof (boundary_pass_evolves items items st1 (reflexivity _)) as H2.
  destruct found.
  - eapply evolves_trans; [| apply IH]. eapply evolves_trans; eassumption.
  - simpl. eapply evolves_trans; eassumption.
Qed.

Lemma evolves_key items st st' r :
  evolves isVertical items st st' -> key isVertical st' r = key isVertical st r.
Proof.
  intros [Hl H]. unfold key. destruct (st !! r) as [a |] eqn:Ha.
  - destruct (H r a Ha) as (b & -> & Sab & _). symmetry. now apply same_label_anchor.
  - apply lookup_ge_None in Ha. rewrite <- Hl in Ha.
    apply lookup_ge_None in Ha. now rewrite Ha.
Qed.

Lemma evolves_weaken items items' st st' :
  items ⊆ items' -> evolves isVertical items st st' -> evolves isVertical items' st st'.
Proof.
  intros Hsub [Hl H]. split; [assumption |].
  intros r a Ha. destruct (H r a Ha) as (b & Hb & Sab & Fab).
  exists b. split; [assumption |]. split; [assumption |].
  intros Hr. apply Fab. intros Hin. apply Hr, Hsub, Hin.
Qed.
End SolverFrame.

(** ** Boundary constraints *)

Section Boundary.
Variable isVertical : bool.
Variables minPos maxPos : Q.

Abbreviation clamp' := (clamp isVertical minPos maxPos).
Abbreviation pos' := (pos isVertical).
Abbreviation size' := (size isVertical).

Lemma clamp_in_band_id l : in_band isVertical minPos maxPos l -> clamp' l = l.
Proof.
  intros [H1 H2]. unfold clamp.
  destruct (Qltb (pos' l - size' l / 2) minPos) eqn:E1.
  - apply Qltb_true in E1. qlra.
  - destruct (Qltb maxPos (pos' l + size' l / 2)) eqn:E2; [| reflexivity].
    apply Qltb_true in E2. qlra.
Qed.

(** In a band at least as wide as the label, the clamped label lies in
    the band. *)
Lemma clamp_in_band l : size' l <= maxPos - minPos -> in_band isVertical minPos maxPos (clamp' l).
Proof.
  intros Hw. unfold clamp, in_band.
  destruct (Qltb (pos' l - size' l / 2) minPos) eqn:E1;
    [apply Qltb_true in E1 | apply Qltb_false in E1].
  - rewrite size_set_pos.
    destruct (Qltb maxPos (pos' (set_pos isVertical _ l) + size' l / 2)) eqn:E2;
      [apply Qltb_true in E2 | apply Qltb_false in E2];
      rewrite pos_set_pos in E2; [qlra |].
    rewrite size_set_pos, pos_set_pos. qlra.
  - destruct (Qltb maxPos (pos' l + size' l / 2)) eqn:E2;
      [apply Qltb_true in E2 | apply Qltb_false in E2].
    + rewrite size_set_pos, pos_set_pos. qlra.
    + qlra.
Qed.

(** In a band narrower than the label the second constraint always
    wins. *)
Lemma clamp_narrow l :
  maxPos - minPos < size' l ->
  clamp' l = set_pos isVertical (maxPos - size' l / 2) l.
Proof.
  intros Hn. unfold clamp.
  destruct (Qltb (pos' l - size' l / 2) minPos) eqn:E1;
    [apply Qltb_true in E1 | apply Qltb_false in E1].
  - rewrite size_set_pos.
    destruct (Qltb maxPos (pos' (set_pos isVertical _ l) + size' l / 2)) eqn:E2;
      [apply Qltb_true in E2 | apply Qltb_false in E2];
      rewrite pos_set_pos in E2; [| qlra].
    now rewrite set_pos_set_pos.
  - destruct (Qltb maxPos (pos' l + size' l / 2)) eqn:E2;
      [apply Qltb_true in E2 | apply Qltb_false in E2]; [reflexivity | qlra].
Qed.

Lemma size_clamp l : size' (clamp' l) = size' l.
Proof. symmetry. apply same_label_size, clamp_same_label. Qed.

Lemma clamp_idem l : clamp' (clamp' l) = clamp' l.
Proof.
  destruct (Qlt_le_dec (maxPos - minPos) (size' l)) as [Hn | Hw].
  - rewrite (clamp_narrow (clamp' l)) by (now rewrite size_clamp).
    rewrite size_clamp, (clamp_narrow l Hn). apply set_pos_set_pos.
  - apply clamp_in_band_id, clamp_in_band, Hw.
Qed.

(** A label the boundary constraints leave alone, in a band wide enough
    for it, lies in the band. *)
Lemma clamp_fix_in_band l :
  size' l <= maxPos - minPos -> clamp' l = l -> in_band isVertical minPos maxPos l.
Proof. intros Hw Hfix. rewrite <- Hfix. now apply clamp_in_band. Qed.

(** What the boundary loop leaves at each reference. *)
Lemma boundary_pass_lookup items st r :
  boundary_pass isVertical minPos maxPos items st !! r =
    if decide (r ∈ items) then clamp' <$> st !! r else st !! r.
Proof.
  revert st. induction items as [| i rest IH]; intros st.
  - simpl. destruct (decide (r ∈ [])) as [H | H]; [| reflexivity].
    now apply elem_of_nil in H.
  - unfold boundary_pass in *. simpl. rewrite IH.
    destruct (decide (i = r)) as [-> | Hne].
    + rewrite list_lookup_alter_eq.
      destruct (decide (r ∈ r :: rest)) as [_ | H];
        [| exfalso; apply H, elem_of_cons; auto].
      destruct (decide (r ∈ rest)); [| reflexivity].
      destruct (st !! r); simpl; [| reflexivity]. now rewrite clamp_idem.
    + rewrite list_lookup_alter_ne by assumption.
      destruct (decide (r ∈ rest)) as [H | H];
        destruct (decide (r ∈ i :: rest)) as [H' | H']; try reflexivity.
      * exfalso. apply H', elem_of_cons. auto.
      * apply elem_of_cons in H'. destruct H' as [-> | H']; contradiction.
Qed.

Lemma boundary_pass_settled items st :
  settled isVertical minPos maxPos items (boundary_pass isVertical minPos maxPos items st).
Proof.
  intros r l Hr. rewrite boundary_pass_lookup.
  destruct (decide (r ∈ items)); [| contradiction].
  destruct (st !! r); simpl; [| discriminate].
  intros [= <-]. apply clamp_idem.
Qed.

Lemma boundary_pass_fixed items st :
  settled isVertical minPos maxPos items st -> boundary_pass isVertical minPos maxPos items st = st.
Proof.
  intros H. apply list_eq. intros r. rewrite boundary_pass_lookup.
  destruct (decide (r ∈ items)) as [Hr | Hr]; [| reflexivity].
  destruct (st !! r) as [l |] eqn:E; simpl; [| reflexivity].
  now rewrite (H r l Hr E).
Qed.
End Boundary.

(** ** Relaxation passes *)

Section Relaxation.
Variable isVertical : bool.
Variables minPos maxPos : Q.

Abbreviation pos' := (pos isVertical).
Abbreviation size' := (size isVertical).

Lemma relax_pass_cons i j rest st found :
  relax_pass isVertical (i :: j :: rest) st found =
    let '(st', f) := relax_pair isVertical i j st in
    relax_pass isVertical (j :: rest) st' (found || f).
Proof. reflexivity. Qed.

Lemma separated_cons st i j rest :
  separated isVertical st (i :: j :: rest) <->
  pair_ok isVertical st i j /\ separated isVertical st (j :: rest).
Proof. reflexivity. Qed.

Lemma relax_pair_quiet st i j st' :
  relax_pair isVertical i j st = (st', false) -> st' = st /\ pair_ok isVertical st i j.
Proof.
  unfold relax_pair, pair_ok. destruct (st !! i) as [a |]; [| intros [= <-]; now split].
  destruct (st !! j) as [b |]; [| intros [= <-]; now split].
  simpl. destruct (Qltb _ _) eqn:E; [discriminate |].
  intros [= <-]. split; [reflexivity |].
  intros a' b' [= <-] [= <-]. now apply Qltb_false in E.
Qed.

Lemma relax_pair_ok st i j :
  pair_ok isVertical st i j -> relax_pair isVertical i j st = (st, false).
Proof.
  unfold relax_pair, pair_ok. intros H.
  destruct (st !! i) as [a |]; [| reflexivity].
  destruct (st !! j) as [b |]; [| reflexivity].
  simpl. specialize (H a b eq_refl eq_refl).
  destruct (Qltb _ _) eqn:E; [| reflexivity].
  apply Qltb_true in E. lra.
Qed.

Lemma relax_pass_found items st st' found :
  relax_pass isVertical items st true = (st', found) -> found = true.
Proof.
  revert st. induction items as [| i [| j rest] IH]; intros st; try (now intros [= _ <-]).
  rewrite relax_pass_cons. destruct (relax_pair isVertical i j st) as [st1 f1].
  apply IH.
Qed.

Lemma relax_pass_quiet items st st' :
  relax_pass isVertical items st false = (st', false) ->
  st' = st /\ separated isVertical st items.
Proof.
  revert st. induction items as [| i [| j rest] IH]; intros st;
    try (intros [= <-]; now split).
  rewrite relax_pass_cons, separated_cons.
  destruct (relax_pair isVertical i j st) as [st1 f1] eqn:E1.
  destruct f1.
  - intros H. apply relax_pass_found in H. discriminate.
  - apply relax_pair_quiet in E1 as [-> Hok]. intros H.
    destruct (IH _ H) as [-> Hsep]. now repeat split.
Qed.

Lemma relax_pass_separated items st found :
  separated isVertical st items -> relax_pass isVertical items st found = (st, found).
Proof.
  revert found. induction items as [| i [| j rest] IH]; intros found; try reflexivity.
  rewrite relax_pass_cons, separated_cons. intros [Hok Hsep].
  rewrite (relax_pair_ok _ _ _ Hok). rewrite orb_false_r. now apply IH.
Qed.

Abbreviation settled' := (settled isVertical minPos maxPos).
Abbreviation loop := (fun n => solve_loop n isVertical minPos maxPos).

Lemma solve_loop_stable n items st done :
  stable isVertical minPos maxPos items st -> loop (S n) items st done = mkOutcome st (S done) true.
Proof.
  intros [Hsep Hset]. cbn [solve_loop].
  rewrite (relax_pass_separated _ _ _ Hsep).
  now rewrite (boundary_pass_fixed _ _ _ _ _ Hset).
Qed.

(** The pass counter: the loop runs at most [n] more passes, and exactly
    [n] when it does not leave through [break]. *)
Lemma solve_loop_passes n items st done :
  (done <= passes (loop n items st done) <= done + n)%nat /\
  (converged (loop n items st done) = false ->
   passes (loop n items st done) = (done + n)%nat).
Proof.
  revert st done. induction n as [| n IH]; intros st done.
  - simpl. split; [lia |]. intros _. lia.
  - cbn [solve_loop]. destruct (relax_pass isVertical items st false) as [st1 found].
    destruct found.
    + destruct (IH (boundary_pass isVertical minPos maxPos items st1) (S done))
        as [Hle Hex].
      split; [lia |]. intros Hc. rewrite (Hex Hc). lia.
    + simpl. split; [lia |]. discriminate.
Qed.

(** Leaving through [break] from a store that satisfied the boundary
    constraints: the result is stable isVertical minPos maxPos. *)
Lemma solve_loop_converged_settled n items st done :
  settled' items st ->
  converged (loop n items st done) = true ->
  stable isVertical minPos maxPos items (store (loop n items st done)).
Proof.
  revert st done. induction n as [| n IH]; intros st done Hset; [discriminate |].
  cbn [solve_loop].
  destruct (relax_pass isVertical items st false) as [st1 found] eqn:E.
  destruct found.
  - apply IH, boundary_pass_settled.
  - simpl. intros _. apply relax_pass_quiet in E as [-> Hsep].
    rewrite (boundary_pass_fixed _ _ _ _ _ Hset). now split.
Qed.

(** Leaving through [break] after at least two passes: the result is
    stable isVertical minPos maxPos. *)
Lemma solve_loop_converged_later n items st done :
  converged (loop n items st done) = true ->
  (done + 2 <= passes (loop n items st done))%nat ->
  stable isVertical minPos maxPos items (store (loop n items st done)).
Proof.
  destruct n as [| n]; [discriminate |].
  cbn [solve_loop].
  destruct (relax_pass isVertical items st false) as [st1 found] eqn:E.
  destruct found.
  - intros Hc _. now apply solve_loop_converged_settled; [apply boundary_pass_settled |].
  - simpl. lia.
Qed.
End Relaxation.

(** ** Sorting the references by anchor *)

Section Sorting.
Variable isVertical : bool.

Abbreviation key' := (key isVertical).

Lemma ordered_cons st r r' rest :
  ordered isVertical st (r :: r' :: rest) <->
  key' st r <= key' st r' /\ ordered isVertical st (r' :: rest).
Proof. reflexivity. Qed.

Lemma insert_sorted_elem st r items x :
  x ∈ insert_sorted isVertical st r items <-> x = r \/ x ∈ items.
Proof.
  induction items as [| r' rest IH]; simpl.
  - rewrite elem_of_cons. reflexivity.
  - destruct (Qltb _ _); rewrite !elem_of_cons; [rewrite IH |]; tauto.
Qed.

Lemma sort_items_elem st items x :
  x ∈ sort_items isVertical st items <-> x ∈ items.
Proof.
  induction items as [| r rest IH]; simpl; [reflexivity |].
  rewrite insert_sorted_elem, elem_of_cons, IH. reflexivity.
Qed.

Lemma insert_sorted_ordered st r items :
  ordered isVertical st items -> ordered isVertical st (insert_sorted isVertical st r items).
Proof.
  induction items as [| r' rest IH]; intros Hord; [exact I |].
  cbn [insert_sorted].
  destruct (Qltb (key' st r') (key' st r)) eqn:E;
    [apply Qltb_true in E | apply Qltb_false in E].
  - destruct rest as [| r'' rest].
    + simpl. split; [lra | exact I].
    + apply ordered_cons in Hord as [Hk Hord]. specialize (IH Hord).
      cbn [insert_sorted] in *.
      destruct (Qltb (key' st r'') (key' st r)) eqn:E';
        [apply Qltb_true in E' | apply Qltb_false in E'];
        (apply ordered_cons; split; [lra | assumption]).
  - apply ordered_cons. split; assumption.
Qed.

Lemma sort_items_ordered st items : ordered isVertical st (sort_items isVertical st items).
Proof.
  induction items as [| r rest IH]; [exact I |].
  simpl. now apply insert_sorted_ordered.
Qed.

(** Sorting an array that is in order leaves it as it is. *)
Lemma sort_items_fixed st items :
  ordered isVertical st items -> sort_items isVertical st items = items.
Proof.
  induction items as [| r [| r' rest] IH]; intros Hord; try reflexivity.
  apply ordered_cons in Hord as [Hk Hord].
  change (sort_items isVertical st (r :: r' :: rest))
    with (insert_sorted isVertical st r (sort_items isVertical st (r' :: rest))).
  rewrite (IH Hord). cbn [insert_sorted].
  destruct (Qltb (key' st r') (key' st r)) eqn:E; [| reflexivity].
  apply Qltb_true in E. lra.
Qed.

(** Only the anchors matter to the sort. *)
Lemma sort_items_ext st st' items :
  (forall r, key' st' r = key' st r) ->
  sort_items isVertical st' items = sort_items isVertical st items.
Proof.
  intros Hk. induction items as [| r rest IH]; [reflexivity |].
  simpl. rewrite IH. generalize (sort_items isVertical st rest). intros l.
  induction l as [| r' l IHl]; [reflexivity |].
  simpl. rewrite !Hk, IHl. reflexivity.
Qed.

Lemma ordered_ext st st' items :
  (forall r, key' st' r = key' st r) -> ordered isVertical st items -> ordered isVertical st' items.
Proof.
  intros Hk. induction items as [| r [| r' rest] IH]; intros Hord; try exact I.
  apply ordered_cons in Hord as [H1 H2]. apply ordered_cons.
  rewrite !Hk. split; [assumption | now apply IH].
Qed.
End Sorting.

(** ** What a run of the solver guarantees *)

Section Solver.
Variable isVertical : bool.
Variables minPos maxPos : Q.

Abbreviation solve := (fun items st => solve1DLayout items isVertical minPos maxPos st).

(** The solver terminates within its iteration budget. *)
Lemma solve1DLayout_budget items st :
  (passes (snd (solve items st)) <= ITERATIONS)%nat.
Proof.
  unfold solve1DLayout. destruct items as [| r rest]; [simpl; lia |].
  cbn [snd]. apply (solve_loop_passes isVertical minPos maxPos ITERATIONS).
Qed.

(** Without [break] the budget was used up. *)
Lemma solve1DLayout_exhausted items st :
  converged (snd (solve items st)) = false ->
  passes (snd (solve items st)) = ITERATIONS.
Proof.
  unfold solve1DLayout. destruct items as [| r rest]; [discriminate |].
  cbn [snd]. apply (solve_loop_passes isVertical minPos maxPos ITERATIONS).
Qed.

Lemma solve1DLayout_elem items st r :
  r ∈ fst (solve items st) <-> r ∈ items.
Proof.
  unfold solve1DLayout. destruct items as [| r0 rest]; [reflexivity |].
  cbn [fst]. apply sort_items_elem.
Qed.

Lemma solve1DLayout_evolves items st :
  evolves isVertical items st (store (snd (solve items st))).
Proof.
  unfold solve1DLayout. destruct items as [| r0 rest]; [apply evolves_refl |].
  cbn [snd]. eapply evolves_weaken; [| apply solve_loop_evolves].
  intros x. apply sort_items_elem.
Qed.

Lemma settled_sort items st :
  settled isVertical minPos maxPos items st ->
  settled isVertical minPos maxPos (sort_items isVertical st items) st.
Proof. intros H r l Hr. apply H. now apply sort_items_elem in Hr. Qed.

(** A run that left through [break], after at least two passes or from
    labels that satisfied the boundary constraints, ends in a stable
    store. *)
Lemma solve1DLayout_stable items st :
  converged (snd (solve items st)) = true ->
  (2 <= passes (snd (solve items st)))%nat \/
    settled isVertical minPos maxPos items st ->
  stable isVertical minPos maxPos (fst (solve items st)) (store (snd (solve items st))).
Proof.
  unfold solve1DLayout. destruct items as [| r0 rest].
  - intros _ _. split; [exact I |]. intros r l Hr. now apply elem_of_nil in Hr.
  - cbn [fst snd]. intros Hc [Hp | Hs].
    + now apply solve_loop_converged_later.
    + apply solve_loop_converged_settled; [| assumption]. now apply settled_sort.
Qed.

(** On a stable store a further run changes nothing. *)
Lemma solve1DLayout_fixed items st :
  ordered isVertical st items ->
  stable isVertical minPos maxPos items st ->
  fst (solve items st) = items /\ store (snd (solve items st)) = st.
Proof.
  intros Hord Hst. unfold solve1DLayout. destruct items as [| r0 rest]; [now split |].
  cbn [fst snd]. rewrite (sort_items_fixed _ _ _ Hord).
  unfold ITERATIONS. rewrite (solve_loop_stable _ _ _ _ _ _ _ Hst). now split.
Qed.

(** Idempotence on a run that really converged. *)
Lemma solve1DLayout_idempotent items st :
  converged (snd (solve items st)) = true ->
  (2 <= passes (snd (solve items st)))%nat \/
    settled isVertical minPos maxPos items st ->
  let items1 := fst (solve items st) in
  let st1 := store (snd (solve items st)) in
  fst (solve items1 st1) = items1 /\ store (snd (solve items1 st1)) = st1.
Proof.
  intros Hc Hp items1 st1. apply solve1DLayout_fixed.
  - apply (ordered_ext isVertical st).
    + intros r. apply (evolves_key isVertical items), solve1DLayout_evolves.
    + subst items1. unfold solve1DLayout. destruct items as [| r0 rest]; [exact I |].
      apply sort_items_ordered.
  - now apply solve1DLayout_stable.
Qed.
End Solver.

(** ** Separation of all pairs, and the band *)

Section Pairs.
Variable isVertical : bool.
Variables minPos maxPos : Q.

Abbreviation pos' := (pos isVertical).
Abbreviation size' := (size isVertical).

Lemma separated_from_head st i rest :
  separated isVertical st (i :: rest) ->
  well_formed isVertical st (i :: rest) ->
  forall n j a b, rest !! n = Some j -> st !! i = Some a -> st !! j = Some b ->
    (size' a + size' b) / 2 + 10 <= pos' b - pos' a.
Proof.
  revert i. induction rest as [| j0 rest IH]; intros i Hsep Hwf n j a b Hn Ha Hb.
  - discriminate.
  - apply separated_cons in Hsep as [Hok Hsep].
    destruct n as [| n].
    + injection Hn as <-. now apply Hok.
    + simpl in Hn.
      destruct (Hwf j0) as (c & Hc & Hsize); [rewrite !elem_of_cons; auto |].
      assert (Hwf' : well_formed isVertical st (j0 :: rest)).
      { intros r Hr. apply Hwf. rewrite elem_of_cons. auto. }
      specialize (IH j0 Hsep Hwf' n j c b Hn Hc Hb).
      specialize (Hok a c Ha Hc). qlra.
Qed.

(** In a separated store any two labels of the array, taken in array
    order, keep the minimum separation. *)
Lemma separated_all_pairs st items :
  separated isVertical st items ->
  well_formed isVertical st items ->
  forall m n i j a b, (m < n)%nat ->
    items !! m = Some i -> items !! n = Some j ->
    st !! i = Some a -> st !! j = Some b ->
    (size' a + size' b) / 2 + 10 <= pos' b - pos' a.
Proof.
  induction items as [| i0 rest IH]; intros Hsep Hwf m n i j a b Hmn Hm Hn Ha Hb.
  - discriminate.
  - destruct n as [| n]; [lia |]. simpl in Hn.
    destruct m as [| m].
    + injection Hm as <-. eapply separated_from_head; eassumption.
    + simpl in Hm. apply (IH) with (m := m) (n := n) (i := i) (j := j);
        try assumption; try lia.
      * destruct rest as [| j0 rest]; [exact I |].
        now apply separated_cons in Hsep as [_ Hsep].
      * intros r Hr. apply Hwf. rewrite elem_of_cons. auto.
Qed.

(** Labels that keep the minimum separation do not overlap isVertical: there is a
    gap of at least 10 between their intervals. *)
Lemma separation_no_overlap a b :
  (size' a + size' b) / 2 + 10 <= pos' b - pos' a -> overlap isVertical a b <= -10.
Proof.
  intros H. unfold overlap.
  pose proof (Q.le_min_l (pos' a + size' a / 2) (pos' b + size' b / 2)).
  pose proof (Q.le_max_r (pos' a - size' a / 2) (pos' b - size' b / 2)).
  qlra.
Qed.

(** After at least one pass every given label satisfies the boundary
    constraints. *)
Lemma solve_loop_settled n items st done :
  settled isVertical minPos maxPos items
    (store (solve_loop (S n) isVertical minPos maxPos items st done)).
Proof.
  revert st done. induction n as [| n IH]; intros st done.
  - cbn [solve_loop]. destruct (relax_pass isVertical items st false) as [st1 found].
    destruct found; apply boundary_pass_settled.
  - remember (S n) as k. cbn [solve_loop].
    destruct (relax_pass isVertical items st false) as [st1 found].
    destruct found; [subst k; apply IH | apply boundary_pass_settled].
Qed.

Lemma solve1DLayout_settled items st :
  settled isVertical minPos maxPos items
    (store (snd (solve1DLayout items isVertical minPos maxPos st))).
Proof.
  unfold solve1DLayout. destruct items as [| r0 rest].
  - intros r l Hr. now apply elem_of_nil in Hr.
  - cbn [snd]. intros r l Hr. apply solve_loop_settled.
    now apply sort_items_elem.
Qed.
End Pairs.

(** ** Runs of the solver that really converged *)

Section ConvergedRuns.
Variable isVertical : bool.
Variables minPos maxPos : Q.

(** After a run that left through [break], after at least two passes or
    from labels that satisfied the boundary constraints, any two of the
    labels keep the minimum separation, hence do not overlap. *)
Lemma solve1DLayout_no_overlap items st :
  let run := solve1DLayout items isVertical minPos maxPos st in
  converged (snd run) = true ->
  (2 <= passes (snd run))%nat \/ settled isVertical minPos maxPos items st ->
  well_formed isVertical st items ->
  forall m n i j a b, (m < n)%nat ->
    fst run !! m = Some i -> fst run !! n = Some j ->
    store (snd run) !! i = Some a -> store (snd run) !! j = Some b ->
    overlap isVertical a b <= -10.
Proof.
  intros run Hc Hp Hwf m n i j a b Hmn Hm Hn Ha Hb.
  apply separation_no_overlap.
  destruct (solve1DLayout_stable isVertical minPos maxPos items st Hc Hp) as [Hsep _].
  eapply (separated_all_pairs isVertical (store (snd run)) (fst run)); try eassumption.
  intros r Hr. apply solve1DLayout_elem in Hr.
  destruct (Hwf r Hr) as (l & Hl & Hsize).
  destruct (solve1DLayout_evolves isVertical minPos maxPos items st) as [_ Hev].
  destruct (Hev r l Hl) as (l' & Hl' & Hsame & _).
  exists l'. split; [exact Hl' |]. now rewrite <- (same_label_size _ _ _ Hsame).
Qed.
End ConvergedRuns.

(** ** A crowded corner *)

(** C1.  On the crowded corner the solver leaves through [break] after one
    pass of its budget of 20, and the last two labels of the left side lie
    on top of each other: they overlap by their whole height of 45. *)
Theorem converged_run_leaves_overlap :
  box_in_range (box_2d crowded) /\
  layout (Some (mkResult [crowded])) [crowded] crowded_dims = store (snd crowded_run1) /\
  passes (snd crowded_run1) = 1%nat /\
  converged (snd crowded_run1) = true /\
  exists a b,
    store (snd crowded_run1) !! 7%nat = Some a /\
    store (snd crowded_run1) !! 8%nat = Some b /\
    edge a = left /\ edge b = left /\
    height a == 45 /\ height b == 45 /\
    overlap true a b == 45.
Proof.
  split; [vm_compute; intuition discriminate |].
  split; [vm_compute; reflexivity |].
  split; [vm_compute; reflexivity |].
  split; [vm_compute; reflexivity |].
  do 2 eexists.
  split; [vm_compute; reflexivity |].
  split; [vm_compute; reflexivity |].
  repeat split; vm_compute; reflexivity.
Qed.

(** C4.  On the crowded corner the first run leaves through [break] within
    the budget, and a second run on its result moves the label at
    reference 7 away from where the first run left it. *)
Theorem second_run_moves_labels :
  converged (snd crowded_run1) = true /\
  (passes (snd crowded_run1) <= ITERATIONS)%nat /\
  exists q1 q2,
    ty <$> store (snd crowded_run1) !! 7%nat = Some q1 /\
    ty <$> store (snd crowded_run2) !! 7%nat = Some q2 /\
    q1 == 2955 # 2 /\ q2 < q1.
Proof.
  split; [vm_compute; reflexivity |].
  split; [vm_compute; lia |].
  do 2 eexists.
  split; [vm_compute; reflexivity |].
  split; [vm_compute; reflexivity |].
  split; vm_compute; reflexivity.
Qed.

(** ** The labels built by [layout] *)

Lemma num_nonneg (n : N) : 0 <= num n.
Proof.
  unfold num. change 0 with (inject_Z 0). rewrite <- Zle_Qle. lia.
Qed.

Lemma scaled_in_range (x d : Q) :
  in_range x -> 0 <= d -> 0 <= x * (d / 1000) <= d.
Proof.
  intros [H0 H1] Hd. unfold Qdiv. change (/ 1000) with (1 # 1000). nra.
Qed.

Lemma headerTextLines_length (obj : BlueprintObject) :
  (length (headerTextLines obj) <= 2)%nat.
Proof.
  unfold headerTextLines. simpl.
  repeat (destruct (nonEmpty _)); simpl; lia.
Qed.

Section ObjectLabels.
Variable imgDims : ImgDims.

Lemma objectLabels_shape idx obj l :
  l ∈ objectLabels imgDims idx obj ->
  (edge l = left \/ edge l = right) /\ 0 <= height l <= 60.
Proof.
  unfold objectLabels.
  destruct (box_2d obj) as [[[b0 b1] b2] b3]. cbn [scaleBox].
  pose proof (headerTextLines_length obj) as Hlen.
  assert (Hh : 0 <= inject_Z (Z.of_nat (length (headerTextLines obj)))
                    * FONT_HEIGHT_HEADER + LABEL_PADDING * 2 <= 60).
  { unfold FONT_HEIGHT_HEADER, LABEL_PADDING.
    assert (0 <= inject_Z (Z.of_nat (length (headerTextLines obj))) <= 2) as [H0 H2].
    { change 0 with (inject_Z 0). change 2 with (inject_Z 2).
      rewrite <- !Zle_Qle. lia. }
    lra. }
  destruct (_ || _)%bool; rewrite elem_of_cons;
    (intros [-> | Hin];
     [simpl; split; [auto | exact Hh]
     | apply elem_of_lookup_imap_1 in Hin as (i & det & -> & _);
       simpl; split; [auto | lra]]).
Qed.

Lemma objectLabels_margin idx obj l :
  l ∈ objectLabels imgDims idx obj -> target_in_margin imgDims l.
Proof.
  unfold objectLabels, target_in_margin.
  destruct (box_2d obj) as [[[b0 b1] b2] b3]. cbn [scaleBox].
  destruct (_ || _)%bool; rewrite elem_of_cons;
    (intros [-> | Hin];
     [| apply elem_of_lookup_imap_1 in Hin as (i & det & -> & _)]);
    simpl; unfold MARGIN_X; qlra.
Qed.

Lemma objectLabels_anchor idx obj l :
  box_in_range (box_2d obj) ->
  (forall det, det ∈ details obj -> point_in_range (location_point det)) ->
  l ∈ objectLabels imgDims idx obj ->
  anchor_on_media imgDims l.
Proof.
  unfold objectLabels, box_in_range, anchor_on_media.
  destruct (box_2d obj) as [[[b0 b1] b2] b3]. cbn [scaleBox].
  intros (H0 & H1 & H2 & H3) Hdet.
  pose proof (num_nonneg (w imgDims)) as Hw.
  pose proof (num_nonneg (h imgDims)) as Hh.
  pose proof (scaled_in_range b0 _ H0 Hh) as S0.
  pose proof (scaled_in_range b1 _ H1 Hw) as S1.
  pose proof (scaled_in_range b2 _ H2 Hh) as S2.
  pose proof (scaled_in_range b3 _ H3 Hw) as S3.
  unfold scaleX, scaleY.
  destruct (_ || _)%bool; rewrite elem_of_cons;
    (intros [-> | Hin];
     [simpl; qlra
     | apply elem_of_lookup_imap_1 in Hin as (i & det & -> & Hi);
       apply list_elem_of_lookup_2 in Hi; destruct (Hdet det Hi) as [Py Px];
       pose proof (scaled_in_range _ _ Py Hh);
       pose proof (scaled_in_range _ _ Px Hw);
       simpl; unfold scaleX, scaleY; qlra]).
Qed.
End ObjectLabels.

Lemma refsWithEdge_elem e labels i r :
  r ∈ refsWithEdge e labels i <->
  exists l, (i <= r)%nat /\ labels !! (r - i)%nat = Some l /\ edge l = e.
Proof.
  revert i. induction labels as [| l0 rest IH]; intros i; simpl.
  - split; [intros H; now apply elem_of_nil in H | intros (l & _ & H & _); discriminate].
  - assert (Hrest : r ∈ refsWithEdge e rest (S i) <->
                    exists l, (S i <= r)%nat /\ (l0 :: rest) !! (r - i)%nat = Some l /\ edge l = e).
    { rewrite IH.
      split; intros (l & Hle & Hl & He); exists l; split; try lia; split; try assumption.
      - replace (r - i)%nat with (S (r - S i)) by lia. exact Hl.
      - replace (r - i)%nat with (S (r - S i)) in Hl by lia. exact Hl. }
    destruct (decide (edge l0 = e)) as [He | He].
    + rewrite elem_of_cons, Hrest. split.
      * intros [-> | (l & Hle & Hl & Hel)].
        -- exists l0. rewrite Nat.sub_diag. auto.
        -- exists l. split; [lia | auto].
      * intros (l & Hle & Hl & Hel).
        destruct (decide (r = i)) as [-> | Hne]; [auto |].
        right. exists l. split; [lia | auto].
    + rewrite Hrest. split.
      * intros (l & Hle & Hl & Hel). exists l. split; [lia | auto].
      * intros (l & Hle & Hl & Hel).
        destruct (decide (r = i)) as [-> | Hne].
        -- rewrite Nat.sub_diag in Hl. injection Hl as <-. contradiction.
        -- exists l. split; [lia | auto].
Qed.

(** ** Anchors and targets of the labels of [layout] *)

Section LayoutBounds.
Variable imgDims : ImgDims.

Lemma labels_shape visible l :
  l ∈ buildLabels imgDims visible -> (edge l = left \/ edge l = right) /\ 0 <= height l <= 60.
Proof.
  unfold buildLabels. intros Hl. apply list_elem_of_join in Hl as (ls & Hl & Hls).
  apply elem_of_lookup_imap_1 in Hls as (idx & obj & -> & _).
  eapply objectLabels_shape, Hl.
Qed.

Lemma labels_margin visible l :
  l ∈ buildLabels imgDims visible -> target_in_margin imgDims l.
Proof.
  unfold buildLabels. intros Hl. apply list_elem_of_join in Hl as (ls & Hl & Hls).
  apply elem_of_lookup_imap_1 in Hls as (idx & obj & -> & _).
  eapply objectLabels_margin, Hl.
Qed.

Lemma labels_anchor visible l :
  (forall obj, obj ∈ visible ->
     box_in_range (box_2d obj) /\
     forall det, det ∈ details obj -> point_in_range (location_point det)) ->
  l ∈ buildLabels imgDims visible -> anchor_on_media imgDims l.
Proof.
  unfold buildLabels. intros Hv Hl. apply list_elem_of_join in Hl as (ls & Hl & Hls).
  apply elem_of_lookup_imap_1 in Hls as (idx & obj & -> & Hobj).
  apply list_elem_of_lookup_2 in Hobj. destruct (Hv obj Hobj) as [Hbox Hdet].
  eapply objectLabels_anchor; eassumption.
Qed.

Lemma band_wide l : 0 <= height l <= 60 -> size true l <= bandMax imgDims - bandMin.
Proof.
  intros [_ H]. unfold bandMax, bandMin, MARGIN_Y. simpl.
  pose proof (num_nonneg (h imgDims)). lra.
Qed.

(** Every label of the layout is one of the labels that were built, moved
    along the layout axis and left alone by the boundary constraints. *)
Lemma layout_label d visible l :
  l ∈ layout (Some d) visible imgDims ->
  exists l0, l0 ∈ buildLabels imgDims visible /\ same_label true l0 l /\
             clamp true bandMin (bandMax imgDims) l = l.
Proof.
  unfold layout.
  set (leftItems := refsWithEdge left (buildLabels imgDims visible) 0).
  set (rightItems := refsWithEdge right (buildLabels imgDims visible) 0).
  set (o1 := snd (solve1DLayout leftItems true bandMin (bandMax imgDims)
                                (buildLabels imgDims visible))).
  set (o2 := snd (solve1DLayout rightItems true bandMin (bandMax imgDims) (store o1))).
  intros Hl. apply list_elem_of_lookup_1 in Hl as [r Hr].
  pose proof (solve1DLayout_evolves true bandMin (bandMax imgDims) leftItems
                (buildLabels imgDims visible))
    as [Hlen1 Hev1].
  pose proof (solve1DLayout_evolves true bandMin (bandMax imgDims) rightItems (store o1))
    as [Hlen2 Hev2].
  fold o1 in Hlen1, Hev1. fold o2 in Hlen2, Hev2.
  assert (Hlt : (r < length (buildLabels imgDims visible))%nat).
  { rewrite <- Hlen1, <- Hlen2. eapply lookup_lt_Some, Hr. }
  apply lookup_lt_is_Some in Hlt as [l0 Hl0].
  destruct (Hev1 r l0 Hl0) as (l1 & Hl1 & S01 & F01).
  destruct (Hev2 r l1 Hl1) as (l2 & Hl2 & S12 & F12).
  assert (l2 = l) by congruence. subst l2.
  assert (Hin0 : l0 ∈ buildLabels imgDims visible) by (eapply list_elem_of_lookup_2, Hl0).
  exists l0. split; [assumption |]. split; [eapply same_label_trans; eassumption |].
  destruct (labels_shape visible l0 Hin0) as [[He | He] _].
  - (* a left label: solved by the first call, untouched by the second *)
    assert (Hleft : r ∈ leftItems).
    { apply refsWithEdge_elem. exists l0. rewrite Nat.sub_0_r. split; [lia | auto]. }
    assert (Hright : r ∉ rightItems).
    { intros H. apply refsWithEdge_elem in H as (l' & _ & Hl' & He').
      rewrite Nat.sub_0_r in Hl'. congruence. }
    rewrite (F12 Hright).
    eapply (solve1DLayout_settled true bandMin (bandMax imgDims) leftItems); eassumption.
  - assert (Hright : r ∈ rightItems).
    { apply refsWithEdge_elem. exists l0. rewrite Nat.sub_0_r. split; [lia | auto]. }
    eapply (solve1DLayout_settled true bandMin (bandMax imgDims) rightItems); eassumption.
Qed.
End LayoutBounds.

(** C8, as amended.  For every label that [layout] produces from entities
    whose box coordinates and detail points lie in the 0-1000 normalized
    range, the anchor point lies within the media bounds, and after the
    solver calls the label lies in the margin band of its side: its
    interval along the layout axis within
    [[-MARGIN_Y + 100, h + MARGIN_Y - 100]], its box in the lateral margin
    on the side of its edge. *)
Theorem layout_anchor_and_band (d : AnalysisResult) (visible : list BlueprintObject)
    (imgDims : ImgDims) (l : LayoutLabel) :
  (forall obj, obj ∈ visible ->
     box_in_range (box_2d obj) /\
     forall det, det ∈ details obj -> point_in_range (location_point det)) ->
  l ∈ layout (Some d) visible imgDims ->
  anchor_on_media imgDims l /\ target_in_band imgDims l /\ target_in_margin imgDims l.
Proof.
  intros Hv Hl. apply layout_label in Hl as (l0 & Hin & Hsame & Hfix).
  pose proof (labels_anchor imgDims visible l0 Hv Hin) as Ha.
  pose proof (labels_shape imgDims visible l0 Hin) as [_ Hh].
  pose proof (labels_margin imgDims visible l0 Hin) as Hm.
  destruct (same_label_fields true l0 l Hsame) as (Epx & Epy & Ee & Ew & Eh & _).
  pose proof (same_label_other_axis true l0 l Hsame) as Etx. simpl in Etx.
  split; [| split].
  - unfold anchor_on_media in *. now rewrite <- Epx, <- Epy.
  - apply clamp_fix_in_band; [| assumption].
    apply band_wide. now rewrite <- Eh.
  - unfold target_in_margin in *. now rewrite <- Ee, <- Etx, <- Ew.
Qed.

(** ** A detail point off the media *)

(** C8, as stated, fails: the box of [stray] lies in the normalized range,
    but its detail point does not, and the anchor of the detail's label is
    off the media. *)
Lemma detail_anchor_off_media :
  ~ (forall (d : AnalysisResult) (visible : list BlueprintObject)
            (imgDims : ImgDims) (l : LayoutLabel),
       (forall obj, obj ∈ visible -> box_in_range (box_2d obj)) ->
       l ∈ layout (Some d) visible imgDims ->
       anchor_on_media imgDims l /\ target_in_band imgDims l /\ target_in_margin imgDims l).
Proof.
  intros H.
  assert (Hl : exists l, layout (Some (mkResult [stray])) [stray] (mkDims 1000 1000) !! 1%nat
                         = Some l /\ px l == 1500).
  { eexists. split; vm_compute; reflexivity. }
  destruct Hl as (l & Hl & Hpx).
  destruct (H (mkResult [stray]) [stray] (mkDims 1000 1000) l) as [[[_ Hle] _] _].
  - intros obj Hobj. apply list_elem_of_singleton in Hobj. subst obj.
    vm_compute. intuition discriminate.
  - eapply list_elem_of_lookup_2, Hl.
  - rewrite Hpx in Hle. vm_compute in Hle. now apply Hle.
Qed.

Lemma layout_anchor_and_band_witness :
  (forall obj, obj ∈ [crowded] ->
     box_in_range (box_2d obj) /\
     forall det, det ∈ details obj -> point_in_range (location_point det)) /\
  exists l,
    layout (Some (mkResult [crowded])) [crowded] crowded_dims !! 8%nat = Some l /\
    anchor_on_media crowded_dims l /\ target_in_band crowded_dims l /\
    target_in_margin crowded_dims l.
Proof.
  assert (Hv : forall obj, obj ∈ [crowded] ->
     box_in_range (box_2d obj) /\
     forall det, det ∈ details obj -> point_in_range (location_point det)).
  { intros obj Hobj. apply list_elem_of_singleton in Hobj. subst obj. split.
    - vm_compute. intuition discriminate.
    - intros det Hdet. simpl in Hdet.
      repeat (apply elem_of_cons in Hdet as [-> | Hdet];
              [vm_compute; intuition discriminate |]).
      now apply elem_of_nil in Hdet. }
  split; [exact Hv |].
  eexists. split; [vm_compute; reflexivity |].
  apply (layout_anchor_and_band (mkResult [crowded]) [crowded] crowded_dims _ Hv).
  apply (list_elem_of_lookup_2 _ 8). vm_compute. reflexivity.
Defined.

(** ** Timestamps in the "MM:SS" format *)

Lemma code_inj_ne (c c' : ascii) : code c <> code c' -> Ascii.eqb c c' = false.
Proof.
  intros H. apply Ascii.eqb_neq. intros ->. now apply H.
Qed.

Lemma digit_value c : isDigit c = true -> digitValue 10 c = Some (code c - 48)%Z.
Proof.
  unfold isDigit, digitValue. intros H. rewrite H.
  apply andb_true_iff in H as [H1 H2].
  apply Z.leb_le in H1. apply Z.leb_le in H2.
  destruct (code c - 48 <? 10)%Z eqn:E; [reflexivity |].
  apply Z.ltb_ge in E. lia.
Qed.

Lemma digit_not_space c : isDigit c = true -> isWhiteSpace c = false.
Proof.
  unfold isDigit, isWhiteSpace. intros H.
  apply andb_true_iff in H as [H1 H2].
  apply Z.leb_le in H1. apply Z.leb_le in H2.
  apply orb_false_iff. split.
  - apply andb_false_iff. right. apply Z.leb_gt. lia.
  - apply Z.eqb_neq. lia.
Qed.

Lemma digit_not_char c c' :
  isDigit c = true -> (code c' < 48 \/ 57 < code c')%Z -> Ascii.eqb c c' = false.
Proof.
  unfold isDigit. intros H Hc'. apply andb_true_iff in H as [H1 H2].
  apply Z.leb_le in H1. apply Z.leb_le in H2.
  apply code_inj_ne. lia.
Qed.

Lemma digitsPrefix_digits s acc :
  allDigits s = true ->
  digitsPrefix 10 s (Some acc) = Some (decimal acc s).
Proof.
  revert acc. induction s as [| c s IH]; intros acc H; [reflexivity |].
  simpl in H. apply andb_true_iff in H as [Hc Hs].
  simpl. rewrite (digit_value c Hc). now rewrite IH.
Qed.

Lemma digitsPrefix_start s :
  digits s -> digitsPrefix 10 s None = Some (decimal 0 s).
Proof.
  intros [Hne H]. destruct s as [| c s]; [contradiction |].
  simpl in H. apply andb_true_iff in H as [Hc Hs].
  simpl. rewrite (digit_value c Hc). now rewrite digitsPrefix_digits.
Qed.

Lemma parseInt_digits s : digits s -> parseInt s = Num (inject_Z (decimal 0 s)).
Proof.
  intros Hd. pose proof (digitsPrefix_start s Hd) as Hp.
  destruct Hd as [Hne H]. destruct s as [| c s]; [contradiction |].
  pose proof H as H'. simpl in H'. apply andb_true_iff in H' as [Hc Hs].
  unfold parseInt. cbn [trimStart]. rewrite (digit_not_space c Hc).
  rewrite (digit_not_char c "-"), (digit_not_char c "+") by (assumption || (vm_compute; auto)).
  destruct s as [| c1 s].
  - rewrite Hp. now rewrite Z.mul_1_l.
  - simpl in Hs. apply andb_true_iff in Hs as [Hc1 Hs].
    rewrite (digit_not_char c1 "x"), (digit_not_char c1 "X") by (assumption || (vm_compute; auto)).
    rewrite andb_false_r. rewrite Hp. now rewrite Z.mul_1_l.
Qed.

Lemma split_no_sep s : allDigits s = true -> split ":" s = [s].
Proof.
  induction s as [| c s IH]; intros H; [reflexivity |].
  simpl in H. apply andb_true_iff in H as [Hc Hs].
  simpl. rewrite (digit_not_char c ":") by (assumption || (vm_compute; auto)).
  now rewrite (IH Hs).
Qed.

Lemma split_mm_ss mm ss :
  allDigits mm = true -> allDigits ss = true ->
  split ":" (mm ++ ":" ++ ss) = [mm; ss].
Proof.
  intros Hm Hs. change (":" ++ ss)%string with (String ":" ss).
  induction mm as [| c mm IH].
  - simpl. now rewrite (split_no_sep ss Hs).
  - simpl in Hm. apply andb_true_iff in Hm as [Hc Hm].
    simpl. rewrite (digit_not_char c ":") by (assumption || (vm_compute; auto)).
    now rewrite (IH Hm).
Qed.

Lemma decimal_nonneg s acc : allDigits s = true -> (0 <= acc -> 0 <= decimal acc s)%Z.
Proof.
  revert acc. induction s as [| c s IH]; intros acc H Hacc; [assumption |].
  simpl in H. apply andb_true_iff in H as [Hc Hs].
  simpl. apply IH; [assumption |].
  unfold isDigit in Hc. apply andb_true_iff in Hc as [H1 H2].
  apply Z.leb_le in H1. lia.
Qed.

Lemma parseTimestamp_nonempty s :
  s <> EmptyString ->
  parseTimestamp (Some s) =
    match split ":" s with
    | [p0; p1] => num_add (num_mul (parseInt p0) (Num 60)) (parseInt p1)
    | _ => Num (-1)
    end.
Proof. destruct s; [contradiction | reflexivity]. Qed.

(** [parseTimestamp] on a well-formed "MM:SS". *)
Lemma parseTimestamp_mm_ss mm ss :
  digits mm -> digits ss ->
  exists q, parseTimestamp (Some (mm ++ ":" ++ ss)%string) = Num q /\
            q == seconds mm ss /\ 0 <= q.
Proof.
  intros Hm Hs. rewrite parseTimestamp_nonempty.
  2:{ destruct Hm as [Hne _]. destruct mm; [contradiction | discriminate]. }
  rewrite split_mm_ss by (apply Hm || apply Hs).
  rewrite (parseInt_digits mm Hm), (parseInt_digits ss Hs). simpl.
  eexists. split; [reflexivity |].
  pose proof (decimal_nonneg mm 0 (proj2 Hm) (Z.le_refl 0)) as H1.
  pose proof (decimal_nonneg ss 0 (proj2 Hs) (Z.le_refl 0)) as H2.
  unfold seconds. rewrite inject_Z_plus, inject_Z_mult.
  split; [reflexivity |].
  rewrite Zle_Qle in H1, H2. change (inject_Z 0) with 0 in *.
  change (inject_Z 60) with 60. nra.
Qed.

(** ** The temporal visibility filter *)

Lemma set_details_eta o : set_details (details o) o = o.
Proof. now destruct o. Qed.

Lemma same_entity_set_details ds obj : same_entity obj (set_details ds obj).
Proof. reflexivity. Qed.

Lemma same_entity_timestamp obj o' : same_entity obj o' -> timestamp o' = timestamp obj.
Proof. unfold same_entity. now intros ->. Qed.

Lemma temporallyVisible_timestamp t o o' :
  timestamp o = timestamp o' -> temporallyVisible t o = temporallyVisible t o'.
Proof. unfold temporallyVisible. now intros ->. Qed.

(** At detail level 30 or more, [visibleObjects] keeps exactly the entities
    that pass the temporal filter, possibly with fewer details. *)
Lemma visibleObjects_detailed d detailLevel isVideo t :
  30 <= detailLevel ->
  exists f, (forall o, same_entity o (f o)) /\
    visibleObjects (Some d) detailLevel isVideo t =
      map f (temporalFilter isVideo t (objects d)).
Proof.
  intros Hd. unfold visibleObjects. fold (temporalFilter isVideo t (objects d)).
  destruct (Qltb detailLevel 100).
  - destruct (Qltb detailLevel 30) eqn:E; [apply Qltb_true in E; lra |].
    eexists (fun obj => set_details _ obj). split; [| reflexivity].
    intros o. apply same_entity_set_details.
  - exists (fun o => o). split.
    + intros o. unfold same_entity. now rewrite set_details_eta.
    + now rewrite map_id.
Qed.

Lemma shown_detailed d detailLevel isVideo t obj :
  30 <= detailLevel ->
  obj ∈ temporalFilter isVideo t (objects d) ->
  shown (visibleObjects (Some d) detailLevel isVideo t) obj.
Proof.
  intros Hd Hin. destruct (visibleObjects_detailed d detailLevel isVideo t Hd) as (f & Hf & ->).
  exists (f obj). split; [| apply Hf].
  apply list_elem_of_In, in_map, list_elem_of_In, Hin.
Qed.

Lemma shown_video_passes d detailLevel t obj :
  30 <= detailLevel ->
  shown (visibleObjects (Some d) detailLevel true t) obj ->
  temporallyVisible t obj = true.
Proof.
  intros Hd (o' & Hin & Hsame).
  destruct (visibleObjects_detailed d detailLevel true t Hd) as (f & Hf & E).
  rewrite E in Hin. apply list_elem_of_In, in_map_iff in Hin as (o & <- & Ho).
  apply list_elem_of_In in Ho. unfold temporalFilter in Ho.
  apply list_elem_of_filter in Ho as [Hvis _].
  rewrite <- Hvis. apply temporallyVisible_timestamp.
  rewrite <- (same_entity_timestamp _ _ Hsame). apply same_entity_timestamp, Hf.
Qed.


Lemma temporallyVisible_mm_ss t obj mm ss :
  digits mm -> digits ss ->
  timestamp obj = Some (mm ++ ":" ++ ss)%string ->
  temporallyVisible t obj = true <-> Qabs (t - seconds mm ss) < VISIBILITY_WINDOW.
Proof.
  intros Hm Hs Hts.
  destruct (parseTimestamp_mm_ss mm ss Hm Hs) as (q & Hq & Eq & Hpos).
  unfold temporallyVisible. rewrite Hts.
  destruct (mm ++ ":" ++ ss)%string as [| c0 rest] eqn:E.
  { destruct Hm as [Hne _]. destruct mm; [contradiction | discriminate]. }
  rewrite Hq.
  destruct (Qeq_bool q (-1)) eqn:E1.
  { apply Qeq_bool_iff in E1. lra. }
  rewrite Qltb_true. now rewrite Eq.
Qed.

Lemma shown_video_iff d detailLevel t obj :
  30 <= detailLevel ->
  obj ∈ objects d ->
  shown (visibleObjects (Some d) detailLevel true t) obj <->
  temporallyVisible t obj = true.
Proof.
  intros Hd Hin. split.
  - now apply shown_video_passes.
  - intros Hvis. apply shown_detailed; [assumption |].
    apply list_elem_of_filter. now split.
Qed.




Lemma digits_00 : digits "00".
Proof. split; [discriminate | reflexivity]. Qed.

Lemma digits_10 : digits "10".
Proof. split; [discriminate | reflexivity]. Qed.


(** The entity stamped "00:10" on a video source: visible at 10.0 s and at
    10.5 s, not visible at 20.0 s. *)
Lemma entity_0010_window (d : AnalysisResult) (t : Q) :
  entity_0010 ∈ objects d ->
  shown (visibleObjects (Some d) 100 true t) entity_0010 <-> Qabs (t - 10) < 6 # 10.
Proof.
  intros Hin. rewrite shown_video_iff by (lra || assumption).
  rewrite (temporallyVisible_mm_ss t entity_0010 "00" "10" digits_00 digits_10 eq_refl).
  unfold VISIBILITY_WINDOW. reflexivity.
Qed.

Example entity_0010_at_10 :
  shown (visibleObjects (Some (mkResult [entity_0010])) 100 true 10) entity_0010.
Proof.
  apply entity_0010_window; [apply elem_of_cons; left; reflexivity |].
  vm_compute. reflexivity.
Qed.

Example entity_0010_at_10_5 :
  shown (visibleObjects (Some (mkResult [entity_0010])) 100 true (105 # 10)) entity_0010.
Proof.
  apply entity_0010_window; [apply elem_of_cons; left; reflexivity |].
  vm_compute. reflexivity.
Qed.

Example entity_0010_at_20 :
  ~ shown (visibleObjects (Some (mkResult [entity_0010])) 100 true 20) entity_0010.
Proof.
  rewrite entity_0010_window by (apply elem_of_cons; left; reflexivity).
  vm_compute. discriminate.
Qed.


(** C10.  On a video source the entity stamped "ab:cd" is never visible:
    [parseInt] gives [NaN], which is neither [-1] nor within the window.
    An entity with no timestamp is visible at every time. *)
Theorem garbled_timestamp_never_visible :
  parseTimestamp (timestamp entity_garbled) = NaN /\
  (forall t, temporallyVisible t entity_garbled = false) /\
  (forall d t, ~ shown (visibleObjects (Some d) 100 true t) entity_garbled) /\
  (forall t, temporallyVisible t entity_plain = true).
Proof.
  split; [reflexivity |]. split; [reflexivity |]. split; [| reflexivity].
  intros d t Hs. apply shown_video_passes in Hs; [discriminate | lra].
Qed.

(** A timestamp that does not have exactly two fields is treated like no
    timestamp at all. *)
Lemma wrong_field_count_always_visible (t : Q) (obj : BlueprintObject) (s : string) :
  timestamp obj = Some s ->
  length (split ":" s) <> 2%nat ->
  temporallyVisible t obj = true.
Proof.
  intros Hts Hlen. unfold temporallyVisible. rewrite Hts.
  destruct s as [| c0 rest]; [reflexivity |].
  unfold parseTimestamp.
  destruct (split ":" (String c0 rest)) as [| p0 [| p1 [| p2 ps]]]; try reflexivity.
  now contradiction Hlen.
Qed.

(** ** What a frame draws *)

Lemma render_parts (p : Props) (c : CanvasState) :
  render p c =
    [Clear; Viewport (scale c) (offset c) (imgDims c)] ++ drawMedia p ++ [Grid]
    ++ drawAllLive p c
    ++ match liveDetections p with [] => drawCommitted p c | _ => [] end.
Proof.
  unfold render, drawAllLive, drawCommitted.
  destruct (data p) as [d |] eqn:E; [reflexivity |].
  destruct (liveDetections p); reflexivity.
Qed.

Lemma drawMedia_background p cmd : cmd ∈ drawMedia p -> isBackground cmd = true.
Proof.
  unfold drawMedia.
  destruct (isVideo p), (videoReadyState p) as [n |];
    try destruct (2 <=? n)%nat; try destruct (imageComplete p);
    intros H; repeat (apply elem_of_cons in H as [-> | H]; [reflexivity |]);
    now apply elem_of_nil in H.
Qed.

Lemma liveCmds_detection c det cmd :
  cmd ∈ liveCmds c det -> detectionOf cmd = Some det.
Proof.
  unfold liveCmds. destruct (scaleBox _ _) as [[[ymin xmin] ymax] xmax]. intros H.
  repeat (apply elem_of_cons in H as [-> | H]; [reflexivity |]).
  now apply elem_of_nil in H.
Qed.

Lemma liveCmds_box c det : exists x y bw bh lw, LiveBox det x y bw bh lw ∈ liveCmds c det.
Proof.
  unfold liveCmds. destruct (scaleBox _ _) as [[[ymin xmin] ymax] xmax].
  do 5 eexists. apply elem_of_cons. left. reflexivity.
Qed.

Lemma drawLive_spec p c det cmd :
  cmd ∈ drawLive p c det <->
  isGhost (isVideo p) (currentTime c) det = false /\ cmd ∈ liveCmds c det.
Proof.
  unfold drawLive. destruct (isGhost _ _ det).
  - split; [intros H; now apply elem_of_nil in H | intros [H _]; discriminate].
  - tauto.
Qed.

Lemma drawAllLive_spec p c cmd :
  cmd ∈ drawAllLive p c <->
  exists det, det ∈ liveDetections p /\
              isGhost (isVideo p) (currentTime c) det = false /\ cmd ∈ liveCmds c det.
Proof.
  unfold drawAllLive. rewrite list_elem_of_join. split.
  - intros (l & Hcmd & Hl). apply list_elem_of_In, in_map_iff in Hl as (det & <- & Hdet).
    apply list_elem_of_In in Hdet. apply drawLive_spec in Hcmd as [Hg Hcmd]. eauto.
  - intros (det & Hdet & Hg & Hcmd). exists (drawLive p c det). split.
    + now apply drawLive_spec.
    + apply list_elem_of_In, in_map, list_elem_of_In, Hdet.
Qed.

Lemma drawObject_committed c idx obj cmd :
  cmd ∈ drawObject c idx obj -> isCommitted cmd = true.
Proof.
  unfold drawObject. destruct (scaleBox _ _) as [[[ymin xmin] ymax] xmax].
  rewrite elem_of_app. intros [H | H].
  - repeat (apply elem_of_cons in H as [-> | H]; [reflexivity |]).
    now apply elem_of_nil in H.
  - destruct (tracking obj) as [t |]; [| now apply elem_of_nil in H].
    destruct (1 <? length (trajectory t))%nat; [| now apply elem_of_nil in H].
    apply list_elem_of_singleton in H. now subst.
Qed.

Lemma drawLabel_committed c lbl cmd :
  cmd ∈ drawLabel c lbl -> isCommitted cmd = true.
Proof.
  unfold drawLabel. rewrite elem_of_app. intros [H | H].
  - repeat (apply elem_of_cons in H as [-> | H]; [reflexivity |]).
    now apply elem_of_nil in H.
  - apply elem_of_lookup_imap_1 in H as (i & line & -> & _). reflexivity.
Qed.

Lemma drawCommitted_committed p c cmd :
  cmd ∈ drawCommitted p c -> isCommitted cmd = true.
Proof.
  unfold drawCommitted. rewrite elem_of_app, !list_elem_of_join.
  intros [(l & Hcmd & Hl) | (l & Hcmd & Hl)].
  - apply elem_of_lookup_imap_1 in Hl as (idx & obj & -> & _).
    eapply drawObject_committed, Hcmd.
  - apply list_elem_of_In, in_map_iff in Hl as (lbl & <- & _).
    eapply drawLabel_committed, Hcmd.
Qed.

(** Every command of a frame is background, a live-detection box, or a
    committed-entity command of a frame without live detections. *)
Lemma render_cases p c cmd :
  cmd ∈ render p c <->
  (cmd ∈ [Clear; Viewport (scale c) (offset c) (imgDims c)] ++ drawMedia p ++ [Grid]) \/
  cmd ∈ drawAllLive p c \/
  (liveDetections p = [] /\ cmd ∈ drawCommitted p c).
Proof.
  rewrite render_parts, !elem_of_app.
  destruct (liveDetections p) as [| det dets].
  - intuition.
  - split.
    + intros [H | [H | [H | [H | H]]]]; auto. now apply elem_of_nil in H.
    + intros [[H | [H | H]] | [H | [H _]]]; auto. discriminate.
Qed.

Lemma background_cmds p c cmd :
  cmd ∈ [Clear; Viewport (scale c) (offset c) (imgDims c)] ++ drawMedia p ++ [Grid] ->
  isBackground cmd = true.
Proof.
  rewrite !elem_of_app. intros [H | [H | H]].
  - repeat (apply elem_of_cons in H as [-> | H]; [reflexivity |]).
    now apply elem_of_nil in H.
  - eapply drawMedia_background, H.
  - apply list_elem_of_singleton in H. now subst.
Qed.

(** What decides whether the canvas draws a live detection. *)
Lemma live_detection_drawn_iff (p : Props) (c : CanvasState) (det : LiveDetection) :
  det ∈ liveDetections p ->
  ((exists x y bw bh lw, LiveBox det x y bw bh lw ∈ render p c) <->
   isGhost (isVideo p) (currentTime c) det = false) /\
  ((exists cmd, cmd ∈ render p c /\ detectionOf cmd = Some det) <->
   isGhost (isVideo p) (currentTime c) det = false).
Proof.
  intros Hdet.
  assert (Hany : forall cmd, cmd ∈ render p c -> detectionOf cmd = Some det ->
                 isGhost (isVideo p) (currentTime c) det = false).
  { intros cmd Hcmd Hof. apply render_cases in Hcmd as [H | [H | [_ H]]].
    - apply background_cmds in H. destruct cmd; discriminate.
    - apply drawAllLive_spec in H as (det' & _ & Hg & Hin).
      apply liveCmds_detection in Hin. congruence.
    - apply drawCommitted_committed in H. destruct cmd; discriminate. }
  assert (Hdrawn : isGhost (isVideo p) (currentTime c) det = false ->
                   exists x y bw bh lw, LiveBox det x y bw bh lw ∈ render p c).
  { intros Hg. destruct (liveCmds_box c det) as (x & y & bw & bh & lw & Hbox).
    exists x, y, bw, bh, lw. apply render_cases. right. left.
    apply drawAllLive_spec. eauto. }
  split; split.
  - intros (x & y & bw & bh & lw & H). now apply (Hany _ H).
  - exact Hdrawn.
  - intros (cmd & H & Hof). now apply (Hany _ H).
  - intros Hg. destruct (Hdrawn Hg) as (x & y & bw & bh & lw & H). eauto.
Qed.

(** C3, as amended.  While a video file plays (the canvas with [isVideo]
    set), a live detection that carries its capture timestamp [ts] is
    rendered exactly while the absolute difference between the current
    time and [ts] does not exceed the staleness bound of 1.2 seconds; once
    it exceeds the bound, the detection is discarded.  Nothing else
    discards an entry for its age: the canvas draws every entry when the
    source is not a video file or the entry carries no timestamp, and the
    HUD of the camera mode draws every entry of the list. *)
Theorem stale_live_detection_discarded (p : Props) (c : CanvasState)
    (det : LiveDetection) :
  det ∈ liveDetections p ->
  (forall ts, isVideo p = true -> live_timestamp det = Some ts ->
     ((exists x y bw bh lw, LiveBox det x y bw bh lw ∈ render p c) <->
      Qabs (currentTime c - ts) <= STALENESS_BOUND) /\
     ((exists cmd, cmd ∈ render p c /\ detectionOf cmd = Some det) <->
      Qabs (currentTime c - ts) <= STALENESS_BOUND)) /\
  (isVideo p = false \/ live_timestamp det = None ->
     exists x y bw bh lw, LiveBox det x y bw bh lw ∈ render p c) /\
  hudBox det ∈ cameraHud (liveDetections p).
Proof.
  intros Hdet. destruct (live_detection_drawn_iff p c det Hdet) as [Hbox Hany].
  split; [| split].
  - intros ts Hvideo Hts.
    assert (Hghost : isGhost (isVideo p) (currentTime c) det = false <->
                     Qabs (currentTime c - ts) <= STALENESS_BOUND).
    { unfold isGhost. rewrite Hts, Hvideo. cbn [andb]. apply Qltb_false. }
    rewrite <- Hghost. split; assumption.
  - intros Hcase. apply Hbox. unfold isGhost.
    destruct Hcase as [Hv | Hts]; [| now rewrite Hts].
    rewrite Hv. now destruct (live_timestamp det).
  - unfold cameraHud. now apply list_elem_of_In, in_map, list_elem_of_In.
Qed.

Lemma stale_live_detection_discarded_witness :
  let det := mkLive "person" (100, 100, 300, 200) (Some 5) in
  let p := mkProps None [det] 100 true (Some 4%nat) true in
  isVideo p = true /\ live_timestamp det = Some 5 /\ det ∈ liveDetections p /\
  (exists x y bw bh lw,
     LiveBox det x y bw bh lw ∈ render p (mkCanvas (mkDims 1000 1000) 1 (0, 0) (55 # 10))) /\
  ~ (exists x y bw bh lw,
     LiveBox det x y bw bh lw ∈ render p (mkCanvas (mkDims 1000 1000) 1 (0, 0) 7)).
Proof.
  intros det p.
  assert (Hin : det ∈ liveDetections p) by (apply elem_of_cons; left; reflexivity).
  split; [reflexivity |]. split; [reflexivity |]. split; [exact Hin |]. split.
  - apply (proj1 (stale_live_detection_discarded p
                    (mkCanvas (mkDims 1000 1000) 1 (0, 0) (55 # 10)) det Hin)
                 5 eq_refl eq_refl).
    vm_compute. discriminate.
  - intros H.
    apply (proj1 (stale_live_detection_discarded p
                    (mkCanvas (mkDims 1000 1000) 1 (0, 0) 7) det Hin)
                 5 eq_refl eq_refl) in H.
    vm_compute in H. now apply H.
Defined.

(** C3, as stated, fails in camera mode: a detection captured at 5.0 s is
    still drawn at 7.0 s, more than 1.2 seconds later, by the HUD of the
    camera feed, which has no test on the age of an entry, and by the
    canvas when its source is not a video file. *)
Lemma camera_mode_keeps_stale_detection :
  let det := mkLive "person" (100, 100, 300, 200) (Some 5) in
  let p := mkProps None [det] 100 false None true in
  let c := mkCanvas (mkDims 1000 1000) 1 (0, 0) 7 in
  STALENESS_BOUND < Qabs (currentTime c - 5) /\
  (exists b, cameraHud [det] = [b] /\
     hud_top b == 10 /\ hud_left b == 10 /\ hud_width b == 10 /\ hud_height b == 20 /\
     hud_label b = "person"%string) /\
  (exists x y bw bh lw, LiveBox det x y bw bh lw ∈ render p c /\
     x == 100 /\ y == 100 /\ bw == 100 /\ bh == 200 /\ lw == 4).
Proof.
  split; [reflexivity |]. split.
  - eexists. split; [reflexivity |]. repeat split; reflexivity.
  - do 5 eexists. split; [apply (list_elem_of_lookup_2 _ 4%nat); reflexivity |].
    repeat split; reflexivity.
Qed.

(** A detection captured at 5.0 s is drawn at 5.5 s and discarded at 7.0 s. *)
Example live_detection_at_5_5 :
  isGhost true (55 # 10) (mkLive "person" (0, 0, 10, 10) (Some 5)) = false.
Proof. reflexivity. Qed.

Example live_detection_at_7 :
  isGhost true 7 (mkLive "person" (0, 0, 10, 10) (Some 5)) = true.
Proof. reflexivity. Qed.

Lemma visible_object_drawn p c obj :
  obj ∈ visibleObjects (data p) (detailLevel p) (isVideo p) (currentTime c) ->
  exists color x y bw bh lw, ObjectBox obj color x y bw bh lw ∈ drawCommitted p c.
Proof.
  intros Hobj. apply list_elem_of_lookup_1 in Hobj as [idx Hidx].
  unfold drawCommitted.
  destruct (scaleBox (imgDims c) (box_2d obj)) as [[[ymin xmin] ymax] xmax] eqn:E.
  exists (palette idx), xmin, ymin, (xmax - xmin), (ymax - ymin), (3 / scale c).
  apply elem_of_app. left. apply list_elem_of_join.
  exists (drawObject c idx obj). split.
  - unfold drawObject. rewrite E. apply elem_of_app. left. apply elem_of_cons. now left.
  - now apply elem_of_lookup_imap_2.
Qed.

Lemma layout_label_drawn p c lbl :
  lbl ∈ layout (data p)
        (visibleObjects (data p) (detailLevel p) (isVideo p) (currentTime c)) (imgDims c) ->
  exists pts x y, Connector lbl pts ∈ drawCommitted p c /\ LabelBox lbl x y ∈ drawCommitted p c.
Proof.
  intros Hlbl. unfold drawCommitted. do 3 eexists.
  split; apply elem_of_app; right; apply list_elem_of_join;
    exists (drawLabel c lbl);
    (split; [| apply list_elem_of_In, in_map, list_elem_of_In, Hlbl]);
    unfold drawLabel; apply elem_of_app; left.
  - apply elem_of_cons. left. reflexivity.
  - do 3 (apply elem_of_cons; right). apply elem_of_cons. left. reflexivity.
Qed.

(** Without live detections every visible object and every label of the
    layout is on the frame. *)
Lemma committed_entities_on_frame p c :
  liveDetections p = [] ->
  (forall obj, obj ∈ visibleObjects (data p) (detailLevel p) (isVideo p) (currentTime c) ->
     exists color x y bw bh lw, ObjectBox obj color x y bw bh lw ∈ render p c) /\
  (forall lbl, lbl ∈ layout (data p)
        (visibleObjects (data p) (detailLevel p) (isVideo p) (currentTime c)) (imgDims c) ->
     exists pts x y, Connector lbl pts ∈ render p c /\ LabelBox lbl x y ∈ render p c).
Proof.
  intros Hnone. split.
  - intros obj Hobj.
    destruct (visible_object_drawn p c obj Hobj) as (color & x & y & bw & bh & lw & H).
    exists color, x, y, bw, bh, lw. apply render_cases. auto.
  - intros lbl Hlbl.
    destruct (layout_label_drawn p c lbl Hlbl) as (pts & x & y & H1 & H2).
    exists pts, x, y. split; apply render_cases; auto.
Qed.

(** The commands that draw one object, one label and one live detection,
    written out. *)
Lemma drawObject_cmds c idx obj ymin xmin ymax xmax :
  scaleBox (imgDims c) (box_2d obj) = (ymin, xmin, ymax, xmax) ->
  ObjectBox obj (palette idx) xmin ymin (xmax - xmin) (ymax - ymin) (3 / scale c)
    ∈ drawObject c idx obj /\
  CornerAccents obj xmin ymin xmax ymax (40 / scale c) ∈ drawObject c idx obj /\
  (forall t, tracking obj = Some t -> (1 < length (trajectory t))%nat ->
     TrajectoryLine obj (map (scalePoint (scaleX (imgDims c)) (scaleY (imgDims c)))
                             (trajectory t))
       ∈ drawObject c idx obj).
Proof.
  intros E. unfold drawObject. rewrite E. split; [| split].
  - apply elem_of_app. left. apply elem_of_cons. now left.
  - apply elem_of_app. left. apply elem_of_cons. right. apply elem_of_cons. now left.
  - intros t Ht Hlen. apply elem_of_app. right. rewrite Ht.
    apply Nat.ltb_lt in Hlen. rewrite Hlen. apply elem_of_cons. now left.
Qed.

Lemma drawLabel_cmds c lbl :
  let elbowX := if decide (edge lbl = left) then -50 else num (w (imgDims c)) + 50 in
  Connector lbl [(px lbl, py lbl); (elbowX, py lbl); (elbowX, ty lbl); (tx lbl, ty lbl)]
    ∈ drawLabel c lbl /\
  Dot lbl (px lbl) (py lbl) (4 / scale c) ∈ drawLabel c lbl /\
  Dot lbl elbowX (py lbl) (2 / scale c) ∈ drawLabel c lbl /\
  LabelBox lbl (tx lbl - width lbl / 2) (ty lbl - height lbl / 2) ∈ drawLabel c lbl /\
  (forall i line, textLines lbl !! i = Some line ->
     LabelText lbl line (tx lbl - width lbl / 2 + LABEL_PADDING)
               (ty lbl - height lbl / 2 + LABEL_PADDING
                + inject_Z (Z.of_nat i)
                  * (if isHeader lbl then FONT_HEIGHT_HEADER else FONT_HEIGHT_DETAIL))
       ∈ drawLabel c lbl).
Proof.
  cbv zeta. unfold drawLabel. repeat split.
  - apply elem_of_app. left. apply elem_of_cons. now left.
  - apply elem_of_app. left. do 1 (apply elem_of_cons; right). apply elem_of_cons. now left.
  - apply elem_of_app. left. do 2 (apply elem_of_cons; right). apply elem_of_cons. now left.
  - apply elem_of_app. left. do 3 (apply elem_of_cons; right). apply elem_of_cons. now left.
  - intros i line Hline. apply elem_of_app. right. apply elem_of_lookup_imap.
    exists i, line. split; [reflexivity | exact Hline].
Qed.

Lemma liveCmds_cmds c det ymin xmin ymax xmax :
  scaleBox (imgDims c) (live_box_2d det) = (ymin, xmin, ymax, xmax) ->
  liveCmds c det =
    [LiveBox det xmin ymin (xmax - xmin) (ymax - ymin) (4 / scale c);
     LiveStrip det xmin (ymin - 25 / scale c) (Qmin 200 (xmax - xmin)) (25 / scale c);
     LiveText det (toUpperCase (label det)) (xmin + 5) (ymin - 12 / scale c)].
Proof. intros E. unfold liveCmds. now rewrite E. Qed.

Lemma drawCommitted_object p c idx obj cmd :
  visibleObjects (data p) (detailLevel p) (isVideo p) (currentTime c) !! idx = Some obj ->
  cmd ∈ drawObject c idx obj -> cmd ∈ drawCommitted p c.
Proof.
  intros Hobj Hcmd. unfold drawCommitted. apply elem_of_app. left.
  apply list_elem_of_join. exists (drawObject c idx obj). split; [exact Hcmd |].
  now apply elem_of_lookup_imap_2.
Qed.

Lemma drawCommitted_label p c lbl cmd :
  lbl ∈ layout (data p)
        (visibleObjects (data p) (detailLevel p) (isVideo p) (currentTime c)) (imgDims c) ->
  cmd ∈ drawLabel c lbl -> cmd ∈ drawCommitted p c.
Proof.
  intros Hlbl Hcmd. unfold drawCommitted. apply elem_of_app. right.
  apply list_elem_of_join. exists (drawLabel c lbl). split; [exact Hcmd |].
  apply list_elem_of_In, in_map, list_elem_of_In, Hlbl.
Qed.

Lemma drawCommitted_origin p c cmd :
  cmd ∈ drawCommitted p c ->
  (exists idx obj,
     visibleObjects (data p) (detailLevel p) (isVideo p) (currentTime c) !! idx = Some obj /\
     cmd ∈ drawObject c idx obj) \/
  (exists lbl,
     lbl ∈ layout (data p)
           (visibleObjects (data p) (detailLevel p) (isVideo p) (currentTime c)) (imgDims c) /\
     cmd ∈ drawLabel c lbl).
Proof.
  unfold drawCommitted. intros H. apply elem_of_app in H as [H | H];
    apply list_elem_of_join in H as (cmds & Hcmd & Hcmds).
  - left. apply elem_of_lookup_imap_1 in Hcmds as (idx & obj & -> & Hobj). eauto.
  - right. apply list_elem_of_In, in_map_iff in Hcmds as (lbl & <- & Hlbl).
    apply list_elem_of_In in Hlbl. eauto.
Qed.

(** C6, as amended.  Committed analysis entities are drawn if and only if
    the list of live detections is empty.  With an empty list the frame
    holds, for every visible object, its bounding box in the palette colour
    of its index, its corner accents and, when it has a trajectory of more
    than one point, the trajectory; for every label of the layout, its
    connector through the channel, its two dots, its box and every line of
    its text; and no other command for a committed entity.  With a list
    that is not empty the frame holds no command for a committed entity:
    only the background and, for the entries that are not stale, the
    outline, label strip and label text of the live detection. *)
Theorem committed_entities_iff_no_live (p : Props) (c : CanvasState) :
  let visible := visibleObjects (data p) (detailLevel p) (isVideo p) (currentTime c) in
  let labels := layout (data p) visible (imgDims c) in
  (liveDetections p = [] ->
     (forall idx obj ymin xmin ymax xmax,
        visible !! idx = Some obj ->
        scaleBox (imgDims c) (box_2d obj) = (ymin, xmin, ymax, xmax) ->
        ObjectBox obj (palette idx) xmin ymin (xmax - xmin) (ymax - ymin) (3 / scale c)
          ∈ render p c /\
        CornerAccents obj xmin ymin xmax ymax (40 / scale c) ∈ render p c /\
        (forall t, tracking obj = Some t -> (1 < length (trajectory t))%nat ->
           TrajectoryLine obj (map (scalePoint (scaleX (imgDims c)) (scaleY (imgDims c)))
                                   (trajectory t))
             ∈ render p c)) /\
     (forall lbl, lbl ∈ labels ->
        let elbowX := if decide (edge lbl = left) then -50 else num (w (imgDims c)) + 50 in
        Connector lbl [(px lbl, py lbl); (elbowX, py lbl); (elbowX, ty lbl);
                       (tx lbl, ty lbl)] ∈ render p c /\
        Dot lbl (px lbl) (py lbl) (4 / scale c) ∈ render p c /\
        Dot lbl elbowX (py lbl) (2 / scale c) ∈ render p c /\
        LabelBox lbl (tx lbl - width lbl / 2) (ty lbl - height lbl / 2) ∈ render p c /\
        (forall i line, textLines lbl !! i = Some line ->
           LabelText lbl line (tx lbl - width lbl / 2 + LABEL_PADDING)
                     (ty lbl - height lbl / 2 + LABEL_PADDING
                      + inject_Z (Z.of_nat i)
                        * (if isHeader lbl then FONT_HEIGHT_HEADER else FONT_HEIGHT_DETAIL))
             ∈ render p c)) /\
     (forall cmd, cmd ∈ render p c -> isCommitted cmd = true ->
        (exists idx obj, visible !! idx = Some obj /\ cmd ∈ drawObject c idx obj) \/
        (exists lbl, lbl ∈ labels /\ cmd ∈ drawLabel c lbl))) /\
  (liveDetections p <> [] ->
     forall cmd, cmd ∈ render p c ->
       isCommitted cmd = false /\
       (isBackground cmd = true \/
        exists det, det ∈ liveDetections p /\
                    isGhost (isVideo p) (currentTime c) det = false /\
                    cmd ∈ liveCmds c det)) /\
  (forall det ymin xmin ymax xmax,
     det ∈ liveDetections p ->
     isGhost (isVideo p) (currentTime c) det = false ->
     scaleBox (imgDims c) (live_box_2d det) = (ymin, xmin, ymax, xmax) ->
     LiveBox det xmin ymin (xmax - xmin) (ymax - ymin) (4 / scale c) ∈ render p c /\
     LiveStrip det xmin (ymin - 25 / scale c) (Qmin 200 (xmax - xmin)) (25 / scale c)
       ∈ render p c /\
     LiveText det (toUpperCase (label det)) (xmin + 5) (ymin - 12 / scale c) ∈ render p c).
Proof.
  intros visible labels. split; [| split].
  - intros Hnone.
    assert (Hin : forall cmd, cmd ∈ drawCommitted p c -> cmd ∈ render p c).
    { intros cmd Hcmd. apply render_cases. auto. }
    split; [| split].
    + intros idx obj ymin xmin ymax xmax Hobj E.
      destruct (drawObject_cmds c idx obj ymin xmin ymax xmax E) as (H1 & H2 & H3).
      split; [| split].
      * eapply Hin, drawCommitted_object; eassumption.
      * eapply Hin, drawCommitted_object; eassumption.
      * intros t Ht Hlen. eapply Hin, drawCommitted_object; [eassumption |]. now apply H3.
    + intros lbl Hlbl. destruct (drawLabel_cmds c lbl) as (H1 & H2 & H3 & H4 & H5).
      cbv zeta. split; [| split; [| split; [| split]]].
      * eapply Hin, drawCommitted_label; eassumption.
      * eapply Hin, drawCommitted_label; eassumption.
      * eapply Hin, drawCommitted_label; eassumption.
      * eapply Hin, drawCommitted_label; eassumption.
      * intros i line Hline. eapply Hin, drawCommitted_label; [eassumption |].
        now apply H5.
    + intros cmd Hcmd Hc. apply render_cases in Hcmd as [H | [H | [_ H]]].
      * apply background_cmds in H. destruct cmd; discriminate.
      * apply drawAllLive_spec in H as (det & Hdet & _). rewrite Hnone in Hdet.
        now apply elem_of_nil in Hdet.
      * now apply drawCommitted_origin.
  - intros Hsome cmd Hcmd. apply render_cases in Hcmd as [H | [H | [H _]]].
    + apply background_cmds in H. split; [destruct cmd; discriminate || reflexivity | auto].
    + apply drawAllLive_spec in H as (det & Hdet & Hg & Hcmd). split.
      * apply liveCmds_detection in Hcmd. destruct cmd; discriminate || reflexivity.
      * right. eauto.
    + contradiction.
  - intros det ymin xmin ymax xmax Hdet Hg E.
    assert (Hin : forall cmd, cmd ∈ liveCmds c det -> cmd ∈ render p c).
    { intros cmd Hcmd. apply render_cases. right. left. apply drawAllLive_spec. eauto. }
    rewrite (liveCmds_cmds c det ymin xmin ymax xmax E) in Hin.
    repeat split; apply Hin; rewrite !elem_of_cons; auto.
Qed.

Lemma committed_entities_iff_no_live_witness :
  liveDetections (frame_props []) = [] /\
  liveDetections (frame_props [mkLive "person" (0, 0, 10, 10) (Some 0)]) <> [] /\
  (exists x y bw bh lw,
     ObjectBox entity_plain (palette 0) x y bw bh lw ∈ render (frame_props []) frame_canvas /\
     x == 300 /\ y == 300 /\ bw == 100 /\ bh == 100) /\
  (exists cmd,
     render (frame_props [mkLive "person" (0, 0, 10, 10) (Some 0)]) frame_canvas !! 4%nat
       = Some cmd /\
     isCommitted cmd = false).
Proof.
  split; [reflexivity |]. split; [discriminate |]. split.
  - do 5 eexists. split.
    + refine (proj1 (proj1 (proj1 (committed_entities_iff_no_live (frame_props []) frame_canvas)
                                  eq_refl)
                           0%nat entity_plain _ _ _ _ eq_refl eq_refl)).
    + repeat split; reflexivity.
  - eexists. split; [vm_compute; reflexivity |].
    apply (proj1 (proj2 (committed_entities_iff_no_live
                    (frame_props [mkLive "person" (0, 0, 10, 10) (Some 0)]) frame_canvas)));
      [discriminate |].
    apply (list_elem_of_lookup_2 _ 4). vm_compute. reflexivity.
Defined.

(** C6, as stated, fails when a live detection is active only while it is
    drawn: over a video at 7.0 s a list that holds one detection captured
    at 5.0 s draws no live detection, as the detection is stale, and no
    committed entity either, although the analysis has a visible entity;
    the frame is the background alone. *)
Lemma stale_detection_hides_committed_entities :
  let det := mkLive "person" (100, 100, 300, 200) (Some 5) in
  let p := mkProps (Some (mkResult [entity_plain])) [det] 100 true (Some 4%nat) true in
  let c := mkCanvas (mkDims 1000 1000) 1 (0, 0) 7 in
  visibleObjects (data p) (detailLevel p) (isVideo p) (currentTime c) = [entity_plain] /\
  isGhost (isVideo p) (currentTime c) det = true /\
  render p c = [Clear; Viewport 1 (0, 0) (mkDims 1000 1000); MediaFrame; Grid] /\
  (forall cmd, cmd ∈ render p c -> detectionOf cmd = None /\ isCommitted cmd = false).
Proof.
  split; [reflexivity |]. split; [reflexivity |]. split; [reflexivity |].
  intros cmd Hcmd. change (cmd ∈ [Clear; Viewport 1 (0, 0) (mkDims 1000 1000); MediaFrame; Grid])
    in Hcmd.
  rewrite !elem_of_cons, elem_of_nil in Hcmd.
  destruct Hcmd as [-> | [-> | [-> | [-> | []]]]]; split; reflexivity.
Qed.

(** ** The coordinate transform *)

Lemma num_pos (n : N) : (0 < n)%N -> 0 < num n.
Proof.
  intros H. unfold num. change 0 with (inject_Z 0). rewrite <- Zlt_Qlt. lia.
Qed.

Lemma scale_unscale (x d : Q) : 0 < d -> x * (d / 1000) * (1000 / d) == x.
Proof. intros Hd. field. lra. Qed.

(** In binary64 the round trip of every integer coordinate at every
    integer dimension up to [MAX_DIMENSION] stays within the tolerance, by
    running it. *)
Lemma round_trips_sound (dimensions coordinates : list nat) :
  round_trips_within_tolerance dimensions coordinates = true ->
  forall d x, In d dimensions -> In x coordinates ->
    within_tolerance (round_trip_f (float_of_nat d) (float_of_nat x)) (float_of_nat x) = true.
Proof.
  unfold round_trips_within_tolerance. cbv zeta. intros H d x Hd Hx.
  rewrite forallb_forall in H. specialize (H d Hd). rewrite forallb_forall in H.
  apply H. now apply in_map.
Qed.

Lemma round_trips_checked : round_trips_within_tolerance DIMENSIONS COORDINATES = true.
Proof. vm_compute. reflexivity. Qed.

Lemma round_trip_binary64_grid (d x : nat) :
  (1 <= d <= MAX_DIMENSION)%nat -> (x <= 1000)%nat ->
  within_tolerance (round_trip_f (float_of_nat d) (float_of_nat x)) (float_of_nat x) = true.
Proof.
  intros [H1 H2] Hx. apply (round_trips_sound DIMENSIONS COORDINATES round_trips_checked).
  - unfold DIMENSIONS. apply in_seq. split; [exact H1 |].
    change (1 + MAX_DIMENSION)%nat with (S MAX_DIMENSION). apply Nat.lt_succ_r. exact H2.
  - unfold COORDINATES. apply in_seq. split; [apply Nat.le_0_l |].
    change (0 + 1001)%nat with (S 1000). apply Nat.lt_succ_r. exact Hx.
Qed.

(** C5.  For positive media dimensions [W] and [H], the code maps a
    normalized box to media space by [x * W / 1000] and [y * H / 1000], and
    mapping back with the inverse scale factors [1000 / W] and [1000 / H]
    reproduces the original coordinates: exactly on exact numbers, and in
    binary64 within [2^-40] for every integer coordinate from 0 to 1000 at
    every integer dimension from 1 to 8192. *)
Theorem scaleBox_round_trip (dims : ImgDims) (b0 b1 b2 b3 : Q) :
  (0 < w dims)%N -> (0 < h dims)%N ->
  box_eq (scaleBox dims (b0, b1, b2, b3))
         (b0 * num (h dims) / 1000, b1 * num (w dims) / 1000,
          b2 * num (h dims) / 1000, b3 * num (w dims) / 1000) /\
  box_eq (unscaleBox dims (scaleBox dims (b0, b1, b2, b3))) (b0, b1, b2, b3) /\
  (forall d x : nat, (1 <= d <= 8192)%nat -> (x <= 1000)%nat ->
     within_tolerance (round_trip_f (float_of_nat d) (float_of_nat x)) (float_of_nat x)
       = true).
Proof.
  intros Hw Hh. apply num_pos in Hw, Hh. split; [| split].
  - unfold scaleBox, box_eq, scaleX, scaleY. repeat split; field.
  - unfold unscaleBox, scaleBox, box_eq, scaleX, scaleY.
    repeat split; now apply scale_unscale.
  - exact round_trip_binary64_grid.
Qed.

Lemma scaleBox_round_trip_witness :
  (0 < w (mkDims 1920 1080))%N /\ (0 < h (mkDims 1920 1080))%N /\
  box_eq (scaleBox (mkDims 1920 1080) (100, 250, 333, 1000)) (108, 480, 35964 # 100, 1920) /\
  box_eq (unscaleBox (mkDims 1920 1080) (scaleBox (mkDims 1920 1080) (100, 250, 333, 1000)))
         (100, 250, 333, 1000).
Proof.
  split; [reflexivity |]. split; [reflexivity |].
  destruct (scaleBox_round_trip (mkDims 1920 1080) 100 250 333 1000 eq_refl eq_refl)
    as (_ & Hback & _).
  split; [| exact Hback].
  repeat split; reflexivity.
Defined.

(** In binary64 the round trip is not always exact: at width 1920 the
    coordinate 9 does not come back as 9. *)
Example round_trip_binary64 :
  PrimFloat.eqb (round_trip_f (float_of_nat 1920) (float_of_nat 9)) (float_of_nat 9) = false /\
  within_tolerance (round_trip_f (float_of_nat 1920) (float_of_nat 9)) (float_of_nat 9) = true.
Proof. split; vm_compute; reflexivity. Qed.

(** ** Zoom and pan *)

Lemma clampScale_bounds (requested : Q) : scale_in_bounds (clampScale requested).
Proof.
  unfold scale_in_bounds, clampScale. split.
  - apply Q.le_max_l.
  - apply Q.max_lub; [unfold MIN_SCALE, MAX_SCALE; lra | apply Q.le_min_l].
Qed.

Lemma clampScale_above (requested : Q) :
  MAX_SCALE <= requested -> clampScale requested = MAX_SCALE.
Proof.
  intros H. unfold clampScale, Qmin, Qmax, GenericMinMax.gmin, GenericMinMax.gmax.
  destruct (MAX_SCALE ?= requested) eqn:E.
  - reflexivity.
  - reflexivity.
  - apply Qgt_alt in E. lra.
Qed.

Lemma clampScale_below (requested : Q) :
  requested <= MIN_SCALE -> clampScale requested = MIN_SCALE.
Proof.
  intros H. unfold clampScale, Qmin, Qmax, GenericMinMax.gmin, GenericMinMax.gmax.
  destruct (MAX_SCALE ?= requested) eqn:E.
  - apply Qeq_alt in E. unfold MIN_SCALE, MAX_SCALE in *. lra.
  - apply Qlt_alt in E. unfold MIN_SCALE, MAX_SCALE in *. lra.
  - destruct (MIN_SCALE ?= requested) eqn:E'; try reflexivity.
    apply Qlt_alt in E'. lra.
Qed.

Lemma clampScale_inside (requested : Q) :
  scale_in_bounds requested -> clampScale requested == requested.
Proof.
  intros [H1 H2]. unfold clampScale.
  rewrite (Q.min_r _ _ H2). now apply Q.max_r.
Qed.

Lemma handleTouchMove_pinch hypot touches v currentDist initialDist :
  pinching hypot touches v = Some (currentDist, initialDist) ->
  v_scale (handleTouchMove hypot touches v) =
    clampScale (initialScale v * (currentDist / initialDist)).
Proof.
  intros Hp. unfold handleTouchMove.
  destruct touches as [| t0 [| t1 rest]]; try discriminate.
  now rewrite Hp.
Qed.

(** C7.  After a wheel update and after a pinch update the scale lies in
    [[0.05, 8]]: the new scale is the requested scale clamped, a request at
    or above 8 (such as 20) gives 8, and a request at or below 0.05 (such
    as 0.001) gives 0.05. *)
Theorem zoom_scale_clamped (hypot : Q -> Q -> Q) (v : ViewState) :
  (forall deltaY,
     v_scale (handleWheel deltaY v) = clampScale (v_scale v - deltaY * (1 # 1000)) /\
     scale_in_bounds (v_scale (handleWheel deltaY v))) /\
  (forall touches currentDist initialDist,
     pinching hypot touches v = Some (currentDist, initialDist) ->
     v_scale (handleTouchMove hypot touches v) =
       clampScale (initialScale v * (currentDist / initialDist)) /\
     scale_in_bounds (v_scale (handleTouchMove hypot touches v))) /\
  (forall requested, MAX_SCALE <= requested -> clampScale requested = 8) /\
  (forall requested, requested <= MIN_SCALE -> clampScale requested = 5 # 100) /\
  clampScale 20 = 8 /\ clampScale (1 # 1000) = 5 # 100.
Proof.
  split; [| split; [| split; [| split; [| split]]]].
  - intros deltaY. split; [reflexivity | apply clampScale_bounds].
  - intros touches currentDist initialDist Hp.
    rewrite (handleTouchMove_pinch _ _ _ _ _ Hp).
    split; [reflexivity | apply clampScale_bounds].
  - apply clampScale_above.
  - apply clampScale_below.
  - reflexivity.
  - reflexivity.
Qed.

Lemma zoom_scale_clamped_witness :
  pinching hypot_axis [(0, 0); (1000, 0)] pinch_start = Some (1000, 10) /\
  MAX_SCALE <= 20 /\ (1 # 1000) <= MIN_SCALE /\
  scale_in_bounds (v_scale (handleTouchMove hypot_axis [(0, 0); (1000, 0)] pinch_start)) /\
  clampScale 20 = 8 /\ clampScale (1 # 1000) = 5 # 100.
Proof.
  split; [reflexivity |].
  split; [unfold Qle; simpl; lia |].
  split; [unfold Qle; simpl; lia |].
  pose proof (zoom_scale_clamped hypot_axis pinch_start) as (_ & Hpinch & Habove & Hbelow & _).
  split; [| split].
  - apply (Hpinch [(0, 0); (1000, 0)] 1000 10). reflexivity.
  - apply Habove. unfold Qle; simpl; lia.
  - apply Hbelow. unfold Qle; simpl; lia.
Defined.

(** From the initial view, whatever the events, the scale stays in bounds. *)
Lemma run_scale_in_bounds (hypot : Q -> Q -> Q) (events : list Event) (v : ViewState) :
  scale_in_bounds (v_scale v) -> scale_in_bounds (v_scale (run hypot events v)).
Proof.
  revert v. induction events as [| e events IH]; intros v Hv; [exact Hv |].
  simpl. apply IH. destruct e; simpl; try assumption.
  - apply clampScale_bounds.
  - unfold handleMouseMove. now destruct (isDragging v).
  - destruct touches as [| t0 [| t1 [| t2 rest]]]; assumption.
  - unfold handleTouchMove. destruct touches as [| t0 [| t1 rest]].
    + exact Hv.
    + now destruct (isDragging v).
    + destruct (pinching hypot (t0 :: t1 :: rest) v) as [[cur d] |]; [| assumption].
      apply clampScale_bounds.
  - unfold scale_in_bounds, DEFAULT_SCALE, MIN_SCALE, MAX_SCALE. simpl. lra.
  - unfold mediaLoaded. destruct narrow; [| assumption].
    unfold scale_in_bounds, MOBILE_SCALE, MIN_SCALE, MAX_SCALE. simpl. lra.
Qed.

Lemma initialView_in_bounds : scale_in_bounds (v_scale initialView).
Proof. unfold scale_in_bounds, MIN_SCALE, MAX_SCALE. simpl. unfold DEFAULT_SCALE. lra. Qed.

(** C9.  Panning by a drag of [(dx, dy)] moves the offset by [(dx, dy)];
    the reset action then restores the offset to exactly [(0, 0)] and the
    scale to the default 0.45, the scale of the initial view. *)
Theorem reset_restores_default (v : ViewState) (down : Q * Q) (dx dy : Q) :
  let panned := handleMouseMove (fst down + dx, snd down + dy) (handleMouseDown down v) in
  (fst (v_offset panned) == fst (v_offset v) + dx /\
   snd (v_offset panned) == snd (v_offset v) + dy) /\
  v_offset (resetView panned) = (0, 0) /\
  v_scale (resetView panned) = 45 # 100 /\
  v_scale (resetView panned) = v_scale initialView.
Proof.
  simpl. repeat split; ring.
Qed.

(** Panning the initial view by (50, -30), then resetting. *)
Example pan_50_30_then_reset :
  let panned :=
    handleMouseUp (handleMouseMove (350, 170) (handleMouseDown (300, 200) initialView)) in
  fst (v_offset panned) == 50 /\ snd (v_offset panned) == -30 /\
  v_offset (resetView panned) = (0, 0) /\ v_scale (resetView panned) = 45 # 100.
Proof. simpl. repeat split. Qed.

(** * The solver on any input *)

(** X1.  Whatever the labels and the band, a run of the solver makes at
    most 20 passes; it leaves through [break] or has made exactly 20; it
    makes no pass only on an empty array, which it returns with the store
    untouched. *)
Theorem solver_pass_budget (items : list nat) (isVertical : bool) (minPos maxPos : Q)
    (st : list LayoutLabel) :
  let out := snd (solve1DLayout items isVertical minPos maxPos st) in
  (passes out <= 20)%nat /\
  (converged out = true \/ passes out = 20%nat) /\
  ((1 <= passes out)%nat \/ (items = [] /\ out = mkOutcome st 0 true)).
Proof.
  unfold solve1DLayout. destruct items as [| r rest]; cbn [snd].
  - simpl. split; [lia |]. split; [now left |]. right. now split.
  - pose proof (solve_loop_passes isVertical minPos maxPos ITERATIONS
                  (sort_items isVertical st (r :: rest)) st 0) as [[_ Hle] Hex].
    split; [exact Hle |]. split.
    + destruct (converged _) eqn:Hc; [now left | right]. now apply Hex.
    + left. unfold ITERATIONS. cbn [solve_loop].
      destruct (relax_pass _ _ _ _) as [st1 found]. destruct found; [| simpl; lia].
      apply (solve_loop_passes isVertical minPos maxPos 19).
Qed.

(** X2.  The solver only moves the labels it is given, and only along the
    layout axis: the store keeps its length, every label keeps its
    identity, text, colours, anchor, size, edge and its position on the
    other axis, and a label that is not in the array is left as it was. *)
Theorem solver_moves_only_along_axis (items : list nat) (isVertical : bool)
    (minPos maxPos : Q) (st : list LayoutLabel) (r : nat) (a : LayoutLabel) :
  st !! r = Some a ->
  let st' := store (snd (solve1DLayout items isVertical minPos maxPos st)) in
  length st' = length st /\
  exists b, st' !! r = Some b /\
    (id b, textLines b, isHeader b, objColor b, textColor b)
      = (id a, textLines a, isHeader a, objColor a, textColor a) /\
    (px b, py b, width b, height b, edge b) = (px a, py a, width a, height a, edge a) /\
    pos (negb isVertical) b = pos (negb isVertical) a /\
    (r ∉ items -> b = a).
Proof.
  intros Ha st'.
  destruct (solve1DLayout_evolves isVertical minPos maxPos items st) as [Hlen Hev].
  split; [exact Hlen |].
  destruct (Hev r a Ha) as (b & Hb & Hsame & Hout).
  exists b. split; [exact Hb |].
  unfold same_label, set_pos, set_ty, set_tx in Hsame.
  destruct isVertical; injection Hsame; intros;
    (split; [| split; [| split; [| exact Hout]]]); simpl; congruence.
Qed.

Lemma solver_moves_only_along_axis_witness :
  near_pair !! 1%nat = Some (mkLabel "b" [] false "#1e40af" "#334155" 0 120 (-400) 120 240 40 left) /\
  store (snd (solve1DLayout [0%nat] true 0 1000 near_pair)) !! 1%nat = near_pair !! 1%nat.
Proof.
  split; [reflexivity |].
  destruct (solver_moves_only_along_axis [0%nat] true 0 1000 near_pair 1 _ eq_refl)
    as (_ & b & Hb & _ & _ & _ & Hout).
  rewrite Hb, Hout; [reflexivity |].
  rewrite list_elem_of_singleton. discriminate.
Defined.

(** X3.  After a run on a non-empty array every given label satisfies the
    boundary constraints: a label that fits in the band lies inside it, and
    a label larger than the band ends flush with the upper bound. *)
Theorem solver_labels_end_in_band (items : list nat) (isVertical : bool)
    (minPos maxPos : Q) (st : list LayoutLabel) (r : nat) (l : LayoutLabel) :
  r ∈ items ->
  store (snd (solve1DLayout items isVertical minPos maxPos st)) !! r = Some l ->
  (size isVertical l <= maxPos - minPos ->
     minPos <= pos isVertical l - size isVertical l / 2 /\
     pos isVertical l + size isVertical l / 2 <= maxPos) /\
  (maxPos - minPos < size isVertical l ->
     pos isVertical l + size isVertical l / 2 == maxPos).
Proof.
  intros Hr Hl.
  pose proof (solve1DLayout_settled isVertical minPos maxPos items st r l Hr Hl) as Hfix.
  split.
  - intros Hfit. now apply (clamp_fix_in_band isVertical minPos maxPos l Hfit).
  - intros Hbig. rewrite (clamp_narrow isVertical minPos maxPos l Hbig) in Hfix.
    pose proof (pos_set_pos isVertical (maxPos - size isVertical l / 2) l) as Hpos.
    rewrite Hfix in Hpos. rewrite Hpos. ring.
Qed.

Lemma solver_labels_end_in_band_witness :
  (exists l, store (snd (solve1DLayout [0%nat; 1%nat] true 0 1000 near_pair)) !! 0%nat = Some l /\
             0 <= ty l - height l / 2 /\ ty l + height l / 2 <= 1000) /\
  (exists l, store (snd (solve1DLayout [0%nat] true 0 200 tall_label)) !! 0%nat = Some l /\
             ty l + height l / 2 == 200).
Proof.
  split.
  - eexists. split; [reflexivity |].
    refine (proj1 (solver_labels_end_in_band [0%nat; 1%nat] true 0 1000 near_pair 0 _ _ eq_refl) _).
    + rewrite elem_of_cons. now left.
    + vm_compute. discriminate.
  - eexists. split; [reflexivity |].
    refine (proj2 (solver_labels_end_in_band [0%nat] true 0 200 tall_label 0 _ _ eq_refl) _).
    + rewrite elem_of_cons. now left.
    + vm_compute. reflexivity.
Defined.

(** X4.  After a run that left through [break], after at least two passes
    or from labels that all lay inside the band, any two labels of the
    array keep the minimum separation, in the order of the sorted array:
    their centres are at least half the sum of their sizes plus 10 apart,
    so a gap of at least 10 lies between them. *)
Theorem solver_converged_keeps_gap (items : list nat) (isVertical : bool)
    (minPos maxPos : Q) (st : list LayoutLabel) :
  let run := solve1DLayout items isVertical minPos maxPos st in
  converged (snd run) = true ->
  (2 <= passes (snd run))%nat \/
    (forall r l, r ∈ items -> st !! r = Some l -> in_band isVertical minPos maxPos l) ->
  well_formed isVertical st items ->
  forall m n i j a b, (m < n)%nat ->
    fst run !! m = Some i -> fst run !! n = Some j ->
    store (snd run) !! i = Some a -> store (snd run) !! j = Some b ->
    (size isVertical a + size isVertical b) / 2 + 10 <= pos isVertical b - pos isVertical a /\
    overlap isVertical a b <= -10.
Proof.
  intros run Hc Hp Hwf m n i j a b Hmn Hm Hn Ha Hb.
  assert (Hgap : (size isVertical a + size isVertical b) / 2 + 10
                 <= pos isVertical b - pos isVertical a).
  { assert (Hp' : (2 <= passes (snd run))%nat \/ settled isVertical minPos maxPos items st).
    { destruct Hp as [Hp | Hin]; [now left | right].
      intros r l Hr Hl. apply clamp_in_band_id. exact (Hin r l Hr Hl). }
    destruct (solve1DLayout_stable isVertical minPos maxPos items st Hc Hp') as [Hsep _].
    eapply (separated_all_pairs isVertical (store (snd run)) (fst run)); try eassumption.
    intros r Hr. apply solve1DLayout_elem in Hr.
    destruct (Hwf r Hr) as (l & Hl & Hsize).
    destruct (solve1DLayout_evolves isVertical minPos maxPos items st) as [_ Hev].
    destruct (Hev r l Hl) as (l' & Hl' & Hsame & _).
    exists l'. split; [exact Hl' |]. now rewrite <- (same_label_size _ _ _ Hsame). }
  split; [exact Hgap | now apply separation_no_overlap].
Qed.

Lemma solver_converged_keeps_gap_witness :
  let run := solve1DLayout [0%nat; 1%nat] true (-500) 1500 near_pair in
  passes (snd run) = 2%nat /\
  exists a b, store (snd run) !! 0%nat = Some a /\ store (snd run) !! 1%nat = Some b /\
    ty a == 85 /\ ty b == 135 /\ overlap true a b <= -10.
Proof.
  split; [reflexivity |].
  eexists. eexists. split; [reflexivity |]. split; [reflexivity |].
  split; [reflexivity |]. split; [reflexivity |].
  refine (proj2 (solver_converged_keeps_gap [0%nat; 1%nat] true (-500) 1500 near_pair
                   eq_refl _ _ 0%nat 1%nat 0%nat 1%nat _ _ _ eq_refl eq_refl eq_refl eq_refl)).
  - left. vm_compute. lia.
  - intros r Hr. rewrite !elem_of_cons, elem_of_nil in Hr.
    destruct Hr as [-> | [-> | []]]; eexists; (split; [reflexivity |]); vm_compute; discriminate.
  - lia.
Defined.

(** X5.  Running the solver again on the outcome of a run that left
    through [break], after at least two passes or from labels that all lay
    inside the band, changes nothing: the array keeps its order, no label
    moves, and the second run leaves through [break] after at most one
    pass. *)
Theorem solver_rerun_changes_nothing (items : list nat) (isVertical : bool)
    (minPos maxPos : Q) (st : list LayoutLabel) :
  let run := solve1DLayout items isVertical minPos maxPos st in
  converged (snd run) = true ->
  (2 <= passes (snd run))%nat \/
    (forall r l, r ∈ items -> st !! r = Some l -> in_band isVertical minPos maxPos l) ->
  let rerun := solve1DLayout (fst run) isVertical minPos maxPos (store (snd run)) in
  fst rerun = fst run /\ store (snd rerun) = store (snd run) /\
  converged (snd rerun) = true /\ (passes (snd rerun) <= 1)%nat.
Proof.
  intros run Hc Hp rerun. subst rerun run.
  assert (Hp' : (2 <= passes (snd (solve1DLayout items isVertical minPos maxPos st)))%nat \/
                settled isVertical minPos maxPos items st).
  { destruct Hp as [Hp | Hin]; [now left | right].
    intros r l Hr Hl. apply clamp_in_band_id. exact (Hin r l Hr Hl). }
  pose proof (solve1DLayout_stable isVertical minPos maxPos items st Hc Hp') as Hst.
  assert (Hord : ordered isVertical
                   (store (snd (solve1DLayout items isVertical minPos maxPos st)))
                   (fst (solve1DLayout items isVertical minPos maxPos st))).
  { apply (ordered_ext isVertical st).
    - intros r. apply (evolves_key isVertical items), solve1DLayout_evolves.
    - unfold solve1DLayout. destruct items as [| r0 rest]; [exact I |].
      apply sort_items_ordered. }
  cbv beta in Hst. revert Hst Hord.
  generalize (store (snd (solve1DLayout items isVertical minPos maxPos st)))
             (fst (solve1DLayout items isVertical minPos maxPos st)).
  intros st1 items1 Hst Hord. unfold solve1DLayout.
  destruct items1 as [| r0 rest]; [simpl; repeat split; lia |].
  cbn [fst snd]. rewrite (sort_items_fixed _ _ _ Hord).
  unfold ITERATIONS. rewrite (solve_loop_stable _ _ _ _ _ _ _ Hst).
  simpl. repeat split; lia.
Qed.

Lemma solver_rerun_changes_nothing_witness :
  let run := solve1DLayout [1%nat; 0%nat] true (-500) 1500 near_pair in
  let rerun := solve1DLayout (fst run) true (-500) 1500 (store (snd run)) in
  fst run = [0%nat; 1%nat] /\ passes (snd run) = 2%nat /\
  fst rerun = fst run /\ store (snd rerun) = store (snd run) /\
  converged (snd rerun) = true /\ (passes (snd rerun) <= 1)%nat.
Proof.
  split; [reflexivity |]. split; [reflexivity |].
  apply (solver_rerun_changes_nothing [1%nat; 0%nat] true (-500) 1500 near_pair).
  - reflexivity.
  - left. vm_compute. lia.
Defined.

(** ** The order of the array *)

Lemma insert_sorted_perm isVertical st r items :
  insert_sorted isVertical st r items ≡ₚ r :: items.
Proof.
  induction items as [| r' rest IH]; [reflexivity |].
  simpl. destruct (Qltb _ _); [| reflexivity].
  rewrite IH. apply Permutation_swap.
Qed.

Lemma sort_items_perm isVertical st items : sort_items isVertical st items ≡ₚ items.
Proof.
  induction items as [| r rest IH]; [reflexivity |].
  simpl. rewrite insert_sorted_perm. now rewrite IH.
Qed.

(** X6.  The solver leaves the array it was given as a rearrangement of
    the same references, in ascending order of the labels' anchors, before
    and after the labels moved; an array that already was in that order is
    not rearranged. *)
Theorem solver_sorts_by_anchor (items : list nat) (isVertical : bool)
    (minPos maxPos : Q) (st : list LayoutLabel) :
  let run := solve1DLayout items isVertical minPos maxPos st in
  fst run ≡ₚ items /\
  ordered isVertical st (fst run) /\
  ordered isVertical (store (snd run)) (fst run) /\
  (ordered isVertical st items -> fst run = items).
Proof.
  intros run.
  assert (Hperm : fst run ≡ₚ items).
  { subst run. unfold solve1DLayout. destruct items as [| r rest]; [reflexivity |].
    cbn [fst]. apply sort_items_perm. }
  assert (Hord : ordered isVertical st (fst run)).
  { subst run. unfold solve1DLayout. destruct items as [| r rest]; [exact I |].
    cbn [fst]. apply sort_items_ordered. }
  split; [exact Hperm |]. split; [exact Hord |]. split.
  - apply (ordered_ext isVertical st); [| exact Hord].
    intros r. apply (evolves_key isVertical items), solve1DLayout_evolves.
  - intros Hin. subst run. unfold solve1DLayout. destruct items as [| r rest]; [reflexivity |].
    cbn [fst]. now apply sort_items_fixed.
Qed.

Lemma solver_sorts_by_anchor_witness :
  fst (solve1DLayout [1%nat; 0%nat] true (-500) 1500 near_pair) = [0%nat; 1%nat] /\
  fst (solve1DLayout [1%nat; 0%nat] true (-500) 1500 near_pair) ≡ₚ [1%nat; 0%nat] /\
  fst (solve1DLayout [0%nat; 1%nat] true (-500) 1500 near_pair) = [0%nat; 1%nat].
Proof.
  split; [reflexivity |]. split.
  - exact (proj1 (solver_sorts_by_anchor [1%nat; 0%nat] true (-500) 1500 near_pair)).
  - apply (proj2 (proj2 (proj2 (solver_sorts_by_anchor [0%nat; 1%nat] true (-500) 1500
                                  near_pair)))).
    split; [vm_compute; discriminate | exact I].
Defined.

(** ** The relaxation pass *)

Lemma total_pos_alter_out isVertical f r st items :
  r ∉ items ->
  total_pos isVertical (alter f r st) items = total_pos isVertical st items.
Proof.
  induction items as [| x rest IH]; intros Hr; [reflexivity |].
  rewrite not_elem_of_cons in Hr. destruct Hr as [Hx Hrest].
  simpl. rewrite IH by assumption. now rewrite list_lookup_alter_ne.
Qed.

Lemma total_pos_alter_in isVertical f r st items a :
  NoDup items -> r ∈ items -> st !! r = Some a ->
  total_pos isVertical (alter f r st) items
    == total_pos isVertical st items + (pos isVertical (f a) - pos isVertical a).
Proof.
  induction items as [| x rest IH]; intros Hnd Hr Ha.
  - now apply elem_of_nil in Hr.
  - apply NoDup_cons in Hnd as [Hx Hnd]. simpl.
    destruct (decide (x = r)) as [-> | Hne].
    + rewrite total_pos_alter_out by assumption.
      rewrite list_lookup_alter_eq, Ha. simpl. ring.
    + rewrite elem_of_cons in Hr. destruct Hr as [-> | Hr]; [congruence |].
      rewrite IH by assumption. rewrite list_lookup_alter_ne by congruence. ring.
Qed.

Lemma relax_pair_total isVertical i j st items :
  NoDup items -> i ∈ items -> j ∈ items -> i <> j ->
  total_pos isVertical (fst (relax_pair isVertical i j st)) items
    == total_pos isVertical st items.
Proof.
  intros Hnd Hi Hj Hne. unfold relax_pair.
  destruct (st !! i) as [a |] eqn:Ha; [| reflexivity].
  destruct (st !! j) as [b |] eqn:Hb; [| reflexivity].
  destruct (Qltb _ _); [| reflexivity]. cbn [fst].
  rewrite (total_pos_alter_in isVertical _ j _ items b Hnd Hj)
    by (rewrite list_lookup_alter_ne by congruence; exact Hb).
  rewrite (total_pos_alter_in isVertical _ i _ items a Hnd Hi Ha).
  rewrite !pos_set_pos. ring.
Qed.

Lemma relax_pass_total isVertical sub items st found :
  NoDup items -> NoDup sub -> sub ⊆ items ->
  total_pos isVertical (fst (relax_pass isVertical sub st found)) items
    == total_pos isVertical st items.
Proof.
  intros Hnd. revert st found.
  induction sub as [| i [| j rest] IH]; intros st found Hsub Hin; try reflexivity.
  rewrite relax_pass_cons.
  pose proof (relax_pair_total isVertical i j st items Hnd) as Hpair.
  destruct (relax_pair isVertical i j st) as [st' f]. cbn [fst] in Hpair.
  apply NoDup_cons in Hsub as [Hi Hsub].
  rewrite IH.
  - apply Hpair.
    + apply Hin. rewrite elem_of_cons. now left.
    + apply Hin. rewrite !elem_of_cons. right. now left.
    + intros ->. apply Hi. rewrite elem_of_cons. now left.
  - exact Hsub.
  - intros x Hx. apply Hin. rewrite elem_of_cons. now right.
Qed.

(** X7.  The relaxation pass over an array without repeated references
    only redistributes: every push moves one label down and its neighbour
    up by the same amount, so the sum of the labels' positions is the same
    after the pass, whatever the labels. *)
Theorem relaxation_keeps_total_position (items : list nat) (isVertical : bool)
    (st : list LayoutLabel) (overlapFound : bool) :
  NoDup items ->
  total_pos isVertical (fst (relax_pass isVertical items st overlapFound)) items
    == total_pos isVertical st items.
Proof.
  intros Hnd. now apply relax_pass_total.
Qed.

Lemma relaxation_keeps_total_position_witness :
  NoDup [0%nat; 1%nat] /\
  snd (relax_pass true [0%nat; 1%nat] near_pair false) = true /\
  total_pos true (fst (relax_pass true [0%nat; 1%nat] near_pair false)) [0%nat; 1%nat]
    == total_pos true near_pair [0%nat; 1%nat].
Proof.
  assert (Hnd : NoDup [0%nat; 1%nat]) by (apply NoDup_cons; split;
     [rewrite list_elem_of_singleton; discriminate | apply NoDup_singleton]).
  split; [exact Hnd |]. split; [reflexivity |].
  apply (relaxation_keeps_total_position [0%nat; 1%nat] true near_pair false Hnd).
Defined.

(** * The visible entities at every detail level *)

Lemma atLeastOne_pos x : (1 <= atLeastOne x)%nat.
Proof. unfold atLeastOne. lia. Qed.

Lemma atLeastOne_mono x y : x <= y -> (atLeastOne x <= atLeastOne y)%nat.
Proof.
  intros H. unfold atLeastOne. apply Qfloor_resp_le in H. lia.
Qed.

Lemma ids_truncated n (objs : list BlueprintObject) :
  ids (map (fun obj => set_details (take n (details obj)) obj) objs) = ids objs.
Proof.
  unfold ids. induction objs as [| o rest IH]; [reflexivity |].
  simpl. now rewrite IH.
Qed.

Lemma ids_take n (objs : list BlueprintObject) : ids (take n objs) = take n (ids objs).
Proof.
  unfold ids. revert n. induction objs as [| o rest IH]; intros [| n]; try reflexivity.
  simpl. now rewrite IH.
Qed.

(** The identifiers of the visible entities: those of the entities that
    pass the temporal filter, cut to a prefix below detail level 30. *)
Lemma visibleObjects_ids d detailLevel isVideo t :
  ids (visibleObjects (Some d) detailLevel isVideo t) =
    let passed := temporalFilter isVideo t (objects d) in
    if Qltb detailLevel 30
    then take (atLeastOne (inject_Z (Z.of_nat (length passed)) * (detailLevel / 30)))
              (ids passed)
    else ids passed.
Proof.
  unfold visibleObjects. fold (temporalFilter isVideo t (objects d)).
  cbv zeta. destruct (Qltb detailLevel 100) eqn:E100.
  - destruct (Qltb detailLevel 30).
    + rewrite ids_take, ids_truncated. now rewrite length_map.
    + apply ids_truncated.
  - destruct (Qltb detailLevel 30) eqn:E30; [| reflexivity].
    apply Qltb_true in E30. apply Qltb_false in E100. lra.
Qed.

(** X8.  Below detail level 100 every visible entity is an entity of the
    analysis that carries only the first [max(1, floor(level / 20))] of
    its details; everything else of it is unchanged. *)
Theorem visible_details_truncated (d : AnalysisResult) (detailLevel : Q)
    (isVideo : bool) (t : Q) (o : BlueprintObject) :
  detailLevel < 100 ->
  o ∈ visibleObjects (Some d) detailLevel isVideo t ->
  (length (details o) <= atLeastOne (detailLevel / 20))%nat /\
  exists obj, obj ∈ objects d /\ same_entity obj o /\
    details o = take (atLeastOne (detailLevel / 20)) (details obj).
Proof.
  intros Hd. unfold visibleObjects. fold (temporalFilter isVideo t (objects d)).
  apply Qltb_true in Hd. rewrite Hd. cbv zeta. intros Hin.
  assert (Hmap : o ∈ map (fun obj => set_details (take (atLeastOne (detailLevel / 20))
                                                       (details obj)) obj)
                         (temporalFilter isVideo t (objects d))).
  { destruct (Qltb detailLevel 30); [| exact Hin].
    eapply elem_of_sublist; [exact Hin | apply sublist_take]. }
  apply list_elem_of_In, in_map_iff in Hmap as (obj & <- & Hobj).
  apply list_elem_of_In in Hobj.
  split.
  - simpl. rewrite length_take. lia.
  - exists obj. split; [| split; [apply same_entity_set_details | reflexivity]].
    unfold temporalFilter in Hobj. destruct isVideo; [| exact Hobj].
    now apply list_elem_of_filter in Hobj as [_ Hobj].
Qed.

Lemma visible_details_truncated_witness :
  50 < 100 /\
  exists o, visibleObjects (Some three_entities) 50 false 0 !! 0%nat = Some o /\
            (length (details o) <= 2)%nat.
Proof.
  split; [reflexivity |].
  eexists. split; [reflexivity |].
  refine (proj1 (visible_details_truncated three_entities 50 false 0 _ eq_refl _)).
  apply list_elem_of_lookup_2 with 0%nat. reflexivity.
Defined.

(** X9.  The detail level never empties the view: the visible list is
    empty exactly when no entity passes the temporal filter, at every
    detail level, also zero or a negative one. *)
Theorem detail_level_never_empties_view (d : AnalysisResult) (detailLevel : Q)
    (isVideo : bool) (t : Q) :
  visibleObjects (Some d) detailLevel isVideo t = [] <->
  temporalFilter isVideo t (objects d) = [].
Proof.
  assert (Hids : forall l : list BlueprintObject, ids l = [] <-> l = []).
  { intros [| o l]; split; intros H; try reflexivity; discriminate. }
  rewrite <- Hids, <- (Hids (temporalFilter _ _ _)), visibleObjects_ids. cbv zeta.
  destruct (Qltb detailLevel 30); [| reflexivity].
  pose proof (atLeastOne_pos (inject_Z (Z.of_nat (length (temporalFilter isVideo t (objects d))))
                              * (detailLevel / 30))) as Hpos.
  destruct (atLeastOne _) as [| n]; [lia |].
  destruct (ids (temporalFilter isVideo t (objects d))); [reflexivity |].
  split; discriminate.
Qed.

(** X10.  The visible entities are entities of the analysis, in the order
    of the analysis: their identifiers form a subsequence of the
    identifiers of [data.objects], so there are never more of them. *)
Theorem visible_entities_in_data_order (d : AnalysisResult) (detailLevel : Q)
    (isVideo : bool) (t : Q) :
  sublist (ids (visibleObjects (Some d) detailLevel isVideo t)) (ids (objects d)) /\
  (length (visibleObjects (Some d) detailLevel isVideo t) <= length (objects d))%nat.
Proof.
  assert (Hsub : sublist (ids (visibleObjects (Some d) detailLevel isVideo t))
                         (ids (objects d))).
  { rewrite visibleObjects_ids. cbv zeta.
    assert (Hpass : sublist (ids (temporalFilter isVideo t (objects d))) (ids (objects d))).
    { unfold temporalFilter. destruct isVideo; [| reflexivity].
      unfold ids. change (@map BlueprintObject string obj_id) with (fmap (M:=list) obj_id).
      apply fmap_sublist, sublist_filter. }
    destruct (Qltb detailLevel 30); [| exact Hpass].
    etransitivity; [apply sublist_take | exact Hpass]. }
  split; [exact Hsub |].
  apply sublist_length in Hsub. unfold ids in Hsub. now rewrite !length_map in Hsub.
Qed.

(** X11.  Raising the detail level never hides an entity: the identifiers
    of the entities visible at a level form a prefix of those visible at
    any higher level, at the same time of the same source. *)
Theorem visible_entities_grow_with_detail (d : AnalysisResult) (level1 level2 : Q)
    (isVideo : bool) (t : Q) :
  level1 <= level2 ->
  ids (visibleObjects (Some d) level1 isVideo t)
    `prefix_of` ids (visibleObjects (Some d) level2 isVideo t).
Proof.
  intros Hle. rewrite !visibleObjects_ids. cbv zeta.
  set (passed := temporalFilter isVideo t (objects d)).
  assert (Hn : 0 <= inject_Z (Z.of_nat (length passed))).
  { change 0 with (inject_Z 0). rewrite <- Zle_Qle. lia. }
  destruct (Qltb level1 30) eqn:E1; destruct (Qltb level2 30) eqn:E2.
  - set (k1 := atLeastOne _). set (k2 := atLeastOne _).
    assert (Hk : (k1 <= k2)%nat).
    { apply atLeastOne_mono. rewrite !(Qmult_comm (inject_Z _)).
      apply Qmult_le_compat_r; [| exact Hn].
      unfold Qdiv. change (/ 30) with (1 # 30). lra. }
    exists (drop k1 (take k2 (ids passed))).
    rewrite <- (take_drop k1 (take k2 (ids passed))) at 1.
    rewrite take_take. now replace (k1 `min` k2)%nat with k1 by lia.
  - exists (drop (atLeastOne (inject_Z (Z.of_nat (length passed)) * (level1 / 30)))
                 (ids passed)).
    now rewrite take_drop.
  - apply Qltb_false in E1. apply Qltb_true in E2. lra.
  - reflexivity.
Qed.

Lemma visible_entities_grow_with_detail_witness :
  10 <= 20 /\
  ids (visibleObjects (Some three_entities) 10 false 0) = ["1"%string] /\
  ids (visibleObjects (Some three_entities) 20 false 0) = ["1"%string; "2"%string] /\
  ids (visibleObjects (Some three_entities) 10 false 0)
    `prefix_of` ids (visibleObjects (Some three_entities) 20 false 0).
Proof.
  split; [unfold Qle; simpl; lia |]. split; [reflexivity |]. split; [reflexivity |].
  apply (visible_entities_grow_with_detail three_entities 10 20 false 0).
  unfold Qle; simpl; lia.
Defined.

(** * The labels of the layout *)

Section LabelsOfObjects.
Variable imgDims : ImgDims.

(** What the labels of one object share: the palette colour of the object's
    index, the side chosen from the horizontal centre of its box, and a
    target that keeps the label box at least 220 away from the media. *)
Lemma objectLabels_side idx obj l :
  l ∈ objectLabels imgDims idx obj ->
  objColor l = palette idx /\
  (edge l = left \/ edge l = right) /\
  (edge l = right <-> num (w imgDims) / 2 < centre_x (box_2d obj) * scaleX imgDims) /\
  (edge l = left -> tx l + width l / 2 <= -220) /\
  (edge l = right -> num (w imgDims) + 220 <= tx l - width l / 2).
Proof.
  unfold objectLabels, centre_x.
  destruct (box_2d obj) as [[[b0 b1] b2] b3]. cbn [scaleBox].
  destruct (Qltb (num (h imgDims) / 2) _);
    destruct (Qltb (num (w imgDims) / 2) _) eqn:Ex;
    [apply Qltb_true in Ex | apply Qltb_false in Ex
     | apply Qltb_true in Ex | apply Qltb_false in Ex];
    cbn [Nat.add Nat.eqb orb]; rewrite elem_of_cons;
    (intros [-> | Hin];
     [| apply elem_of_lookup_imap_1 in Hin as (i & det & -> & _)]);
    simpl; (split; [reflexivity |]); (split; [auto |]);
    (split; [split; [try discriminate; intros _ | try reflexivity; intros ?] |
             split; [try discriminate; intros _ | try discriminate; intros _]]);
    try qlra.
Qed.

Lemma objectLabels_length idx obj :
  length (objectLabels imgDims idx obj) = S (length (details obj)).
Proof.
  unfold objectLabels. destruct (box_2d obj) as [[[b0 b1] b2] b3]. cbn [scaleBox].
  destruct (_ || _)%bool; simpl; now rewrite length_imap.
Qed.

Lemma buildLabels_origin visible l :
  l ∈ buildLabels imgDims visible ->
  exists idx obj, visible !! idx = Some obj /\ l ∈ objectLabels imgDims idx obj.
Proof.
  unfold buildLabels. intros Hl. apply list_elem_of_join in Hl as (ls & Hl & Hls).
  apply elem_of_lookup_imap_1 in Hls as (idx & obj & -> & Hobj).
  now exists idx, obj.
Qed.

Lemma join_imap_length {A B} (f : nat -> A -> list B) (g : A -> nat) (l : list A) :
  (forall i x, length (f i x) = g x) ->
  length (mjoin (imap f l)) = sum_list (map g l).
Proof.
  revert f. induction l as [| x l IH]; intros f Hf; [reflexivity |].
  simpl. rewrite length_app, Hf. f_equal. apply IH. intros i y. apply Hf.
Qed.

Lemma buildLabels_length visible :
  length (buildLabels imgDims visible)
    = sum_list (map (fun obj => S (length (details obj))) visible).
Proof. apply join_imap_length, objectLabels_length. Qed.

(** The label at a position of the layout is the label built at that
    position, moved along the vertical axis. *)
Lemma layout_lookup d visible r :
  match buildLabels imgDims visible !! r, layout (Some d) visible imgDims !! r with
  | Some l0, Some l => same_label true l0 l
  | None, None => True
  | _, _ => False
  end.
Proof.
  unfold layout.
  set (leftItems := refsWithEdge left (buildLabels imgDims visible) 0).
  set (rightItems := refsWithEdge right (buildLabels imgDims visible) 0).
  set (o1 := snd (solve1DLayout leftItems true bandMin (bandMax imgDims)
                                (buildLabels imgDims visible))).
  set (o2 := snd (solve1DLayout rightItems true bandMin (bandMax imgDims) (store o1))).
  pose proof (solve1DLayout_evolves true bandMin (bandMax imgDims) leftItems
                (buildLabels imgDims visible))
    as [Hlen1 Hev1].
  pose proof (solve1DLayout_evolves true bandMin (bandMax imgDims) rightItems (store o1))
    as [Hlen2 Hev2].
  fold o1 in Hlen1, Hev1. fold o2 in Hlen2, Hev2.
  destruct (buildLabels imgDims visible !! r) as [l0 |] eqn:Hl0.
  - destruct (Hev1 r l0 Hl0) as (l1 & Hl1 & S01 & _).
    destruct (Hev2 r l1 Hl1) as (l2 & Hl2 & S12 & _).
    rewrite Hl2. eapply same_label_trans; eassumption.
  - apply lookup_ge_None in Hl0.
    rewrite (proj2 (lookup_ge_None (store o2) r)); [exact I | lia].
Qed.
End LabelsOfObjects.

Lemma same_label_vertical a b :
  same_label true a b ->
  (id b, textLines b, isHeader b) = (id a, textLines a, isHeader a) /\
  (objColor b, edge b, tx b, width b) = (objColor a, edge a, tx a, width a).
Proof.
  unfold same_label, set_pos, set_ty. intros H. injection H; intros.
  split; simpl; congruence.
Qed.

Lemma layout_of_built d visible imgDims l0 :
  l0 ∈ buildLabels imgDims visible ->
  exists l, l ∈ layout (Some d) visible imgDims /\ same_label true l0 l.
Proof.
  intros Hin. apply list_elem_of_lookup_1 in Hin as [r Hr].
  pose proof (layout_lookup imgDims d visible r) as H. rewrite Hr in H.
  destruct (layout (Some d) visible imgDims !! r) as [l |] eqn:Hl; [| contradiction].
  exists l. split; [eapply list_elem_of_lookup_2, Hl | exact H].
Qed.

Lemma built_of_objectLabels imgDims visible idx obj l :
  visible !! idx = Some obj -> l ∈ objectLabels imgDims idx obj ->
  l ∈ buildLabels imgDims visible.
Proof.
  intros Hobj Hl. unfold buildLabels. apply list_elem_of_join.
  exists (objectLabels imgDims idx obj). split; [exact Hl |].
  now apply elem_of_lookup_imap_2.
Qed.

(** X12.  The layout holds one header label for every visible entity and
    one label for each of its details, and nothing else: its length is the
    number of visible entities plus the number of their details, the
    header of an entity carries the entity's header lines under the id
    [head_<id>], and detail [k] carries the detail's name in upper case
    and its description under the id [det_<id>_<k>]. *)
Theorem layout_labels_of_entity (d : AnalysisResult) (visible : list BlueprintObject)
    (imgDims : ImgDims) (idx : nat) (obj : BlueprintObject) :
  visible !! idx = Some obj ->
  length (layout (Some d) visible imgDims)
    = sum_list (map (fun obj => S (length (details obj))) visible) /\
  (exists l, l ∈ layout (Some d) visible imgDims /\
     id l = ("head_" ++ obj_id obj)%string /\ isHeader l = true /\
     textLines l = headerTextLines obj) /\
  (forall k det, details obj !! k = Some det ->
     exists l, l ∈ layout (Some d) visible imgDims /\
       id l = ("det_" ++ obj_id obj ++ "_" ++ nat_to_string k)%string /\
       isHeader l = false /\
       textLines l = [toUpperCase (det_name det); description det]).
Proof.
  intros Hobj. split; [| split].
  - rewrite <- (buildLabels_length imgDims).
    apply Nat.le_antisymm.
    + destruct (Nat.le_gt_cases (length (layout (Some d) visible imgDims))
                                (length (buildLabels imgDims visible))) as [H | H]; [exact H |].
      apply lookup_lt_is_Some in H as [l Hl].
      pose proof (layout_lookup imgDims d visible (length (buildLabels imgDims visible))) as HL.
      rewrite Hl in HL. rewrite (proj2 (lookup_ge_None _ _)) in HL by lia. contradiction.
    + destruct (Nat.le_gt_cases (length (buildLabels imgDims visible))
                                (length (layout (Some d) visible imgDims))) as [H | H]; [exact H |].
      apply lookup_lt_is_Some in H as [l Hl].
      pose proof (layout_lookup imgDims d visible (length (layout (Some d) visible imgDims)))
        as HL.
      rewrite Hl in HL. rewrite (proj2 (lookup_ge_None (layout _ _ _) _)) in HL by lia.
      contradiction.
  - assert (Hhead : exists l0, l0 ∈ objectLabels imgDims idx obj /\
               id l0 = ("head_" ++ obj_id obj)%string /\ isHeader l0 = true /\
               textLines l0 = headerTextLines obj).
    { unfold objectLabels. destruct (box_2d obj) as [[[b0 b1] b2] b3]. cbn [scaleBox].
      destruct (_ || _)%bool; eexists; (split; [apply elem_of_cons; left; reflexivity |]);
        now simpl. }
    destruct Hhead as (l0 & Hl0 & Hid & Hh & Ht).
    destruct (layout_of_built d visible imgDims l0
                (built_of_objectLabels _ _ _ _ _ Hobj Hl0)) as (l & Hl & Hsame).
    apply same_label_vertical in Hsame as [Hsame _]. injection Hsame as E1 E2 E3.
    exists l. repeat split; congruence.
  - intros k det Hdet.
    assert (Hd : exists l0, l0 ∈ objectLabels imgDims idx obj /\
               id l0 = ("det_" ++ obj_id obj ++ "_" ++ nat_to_string k)%string /\
               isHeader l0 = false /\
               textLines l0 = [toUpperCase (det_name det); description det]).
    { unfold objectLabels. destruct (box_2d obj) as [[[b0 b1] b2] b3]. cbn [scaleBox].
      destruct (_ || _)%bool; eexists;
        (split; [apply elem_of_cons; right; apply elem_of_lookup_imap;
                 exists k, det; split; [reflexivity | exact Hdet] |]);
        now simpl. }
    destruct Hd as (l0 & Hl0 & Hid & Hh & Ht).
    destruct (layout_of_built d visible imgDims l0
                (built_of_objectLabels _ _ _ _ _ Hobj Hl0)) as (l & Hl & Hsame).
    apply same_label_vertical in Hsame as [Hsame _]. injection Hsame as E1 E2 E3.
    exists l. repeat split; congruence.
Qed.

Lemma layout_labels_of_entity_witness :
  [crowded] !! 0%nat = Some crowded /\
  length (layout (Some (mkResult [crowded])) [crowded] crowded_dims) = 9%nat /\
  exists l, l ∈ layout (Some (mkResult [crowded])) [crowded] crowded_dims /\
            id l = "head_1"%string.
Proof.
  split; [reflexivity |].
  destruct (layout_labels_of_entity (mkResult [crowded]) [crowded] crowded_dims 0 crowded
              eq_refl) as (Hlen & (l & Hl & Hid & _) & _).
  split; [exact Hlen |]. exists l. split; [exact Hl | exact Hid].
Defined.

(** The side test in binary64 around the middle of the range, by running
    it. *)
Lemma sides_off_middle_sound (dimensions ns : list nat) :
  sides_off_middle dimensions ns = true ->
  forall d n, In d dimensions -> In n ns ->
    side_right_f (float_of_nat d) (float_of_nat n) (float_of_nat (999 - n)) = false /\
    side_right_f (float_of_nat d) (float_of_nat (S n)) (float_of_nat (1000 - n)) = true.
Proof.
  unfold sides_off_middle. cbv zeta. intros H d n Hd Hn.
  rewrite forallb_forall in H. specialize (H d Hd). rewrite forallb_forall in H.
  specialize (H _ (in_map _ _ _ Hn)). cbv beta iota in H.
  apply andb_true_iff in H as [H1 H2]. apply negb_true_iff in H1. now split.
Qed.

Lemma sides_off_middle_checked : sides_off_middle DIMENSIONS LOWER_SIDES = true.
Proof. vm_compute. reflexivity. Qed.

Lemma side_binary64_off_middle (d n : nat) :
  (1 <= d <= MAX_DIMENSION)%nat -> (n <= 999)%nat ->
  side_right_f (float_of_nat d) (float_of_nat n) (float_of_nat (999 - n)) = false /\
  side_right_f (float_of_nat d) (float_of_nat (S n)) (float_of_nat (1000 - n)) = true.
Proof.
  intros [H1 H2] Hn.
  apply (sides_off_middle_sound DIMENSIONS LOWER_SIDES sides_off_middle_checked).
  - unfold DIMENSIONS. apply in_seq. split; [exact H1 |].
    change (1 + MAX_DIMENSION)%nat with (S MAX_DIMENSION). apply Nat.lt_succ_r. exact H2.
  - unfold LOWER_SIDES. apply in_seq. split; [apply Nat.le_0_l |].
    change (0 + 1000)%nat with (S 999). apply Nat.lt_succ_r. exact Hn.
Qed.

(** At the middle itself binary64 and exact numbers part: the box with
    sides 5 and 995 has its centre at 500, which is not right of the
    middle, yet in binary64 the test of the source puts it on the right at
    the widths 640 and 1280, and on the left at width 1000. *)
Example side_binary64_at_middle :
  centre_x (0, 5, 0, 995) == 500 /\
  side_right_f (float_of_nat 640) (float_of_nat 5) (float_of_nat 995) = true /\
  side_right_f (float_of_nat 1280) (float_of_nat 5) (float_of_nat 995) = true /\
  side_right_f (float_of_nat 1000) (float_of_nat 5) (float_of_nat 995) = false.
Proof. repeat split; vm_compute; reflexivity. Qed.

(** X13.  Every label of the layout belongs to a visible entity: it has
    the palette colour of that entity's index, the colour the entity's box
    is drawn in, and it hangs on the left or on the right.  On media of
    positive width it hangs on the right when the horizontal centre of the
    entity's box lies right of the middle of the normalized range, and on
    the left when it lies left of the middle; the vertical position of the
    box plays no part.  In binary64 the test of the source decides the
    same way for every box with integer sides whose centre is half a unit
    off the middle, at every integer width from 1 to 8192.  (A centre at
    the middle itself is left on exact numbers and depends on rounding in
    binary64.) *)
Theorem label_side_and_colour (d : AnalysisResult) (visible : list BlueprintObject)
    (dims : ImgDims) (l : LayoutLabel) :
  (0 < w dims)%N ->
  l ∈ layout (Some d) visible dims ->
  (exists idx obj, visible !! idx = Some obj /\
     objColor l = palette idx /\
     (forall c, exists x y bw bh lw,
         ObjectBox obj (objColor l) x y bw bh lw ∈ drawObject c idx obj) /\
     (edge l = left \/ edge l = right) /\
     (500 < centre_x (box_2d obj) -> edge l = right) /\
     (centre_x (box_2d obj) < 500 -> edge l = left)) /\
  (forall wd n : nat, (1 <= wd <= 8192)%nat -> (n <= 999)%nat ->
     side_right_f (float_of_nat wd) (float_of_nat n) (float_of_nat (999 - n)) = false /\
     side_right_f (float_of_nat wd) (float_of_nat (S n)) (float_of_nat (1000 - n)) = true).
Proof.
  intros Hw Hl. split; [| exact side_binary64_off_middle]. apply num_pos in Hw.
  destruct (layout_label dims d visible l Hl) as (l0 & Hl0 & Hsame & _).
  destruct (buildLabels_origin dims visible l0 Hl0) as (idx & obj & Hobj & Hin).
  destruct (objectLabels_side dims idx obj l0 Hin) as (Hc & Hlr & Hright & _).
  apply same_label_vertical in Hsame as [_ Hsame]. injection Hsame as E1 E2 E3 E4.
  rewrite E1, E2.
  assert (Hmid : num (w dims) / 2 < centre_x (box_2d obj) * scaleX dims
                 <-> 500 < centre_x (box_2d obj)).
  { unfold scaleX. set (W := num (w dims)) in *. set (cx := centre_x _).
    assert (E : 500 * (W / 1000) == W / 2) by field.
    rewrite <- E. apply Qmult_lt_r. qlra. }
  exists idx, obj. split; [exact Hobj |]. split; [exact Hc |].
  split; [| split; [exact Hlr | split]].
  - intros c. rewrite Hc. unfold drawObject.
    destruct (scaleBox (imgDims c) (box_2d obj)) as [[[ymin xmin] ymax] xmax].
    do 5 eexists. apply elem_of_app. left. apply elem_of_cons. left. reflexivity.
  - intros H. now apply Hright, Hmid.
  - intros Hlt. destruct Hlr as [H | H]; [exact H |].
    apply Hright, Hmid in H. lra.
Qed.

Lemma label_side_and_colour_witness :
  (0 < w crowded_dims)%N /\
  exists l, layout (Some (mkResult [crowded])) [crowded] crowded_dims !! 0%nat = Some l /\
            objColor l = palette 0 /\ edge l = left.
Proof.
  split; [reflexivity |].
  destruct (layout (Some (mkResult [crowded])) [crowded] crowded_dims !! 0%nat)
    as [l |] eqn:Hl; [| vm_compute in Hl; discriminate].
  exists l. split; [reflexivity |].
  destruct (label_side_and_colour (mkResult [crowded]) [crowded] crowded_dims l eq_refl
              (list_elem_of_lookup_2 _ 0%nat _ Hl))
    as ((idx & obj & Hobj & Hc & _ & _ & _ & Hleft) & _).
  destruct idx as [| idx]; [| destruct idx; discriminate].
  injection Hobj as <-. split; [exact Hc |].
  apply Hleft. vm_compute. reflexivity.
Defined.






(** * The clock and the subtitles *)

Lemma uint_string_digits (d : Decimal.uint) :
  allDigits (NilEmpty.string_of_uint d) = true.
Proof. induction d; simpl; auto. Qed.

Lemma uint_string_decimal (d : Decimal.uint) (acc : nat) :
  decimal (Z.of_nat acc) (NilEmpty.string_of_uint d) = Z.of_nat (Nat.of_uint_acc d acc).
Proof.
  revert acc. induction d; intros acc;
    cbn [NilEmpty.string_of_uint decimal Nat.of_uint_acc]; [reflexivity | ..];
    rewrite <- IHd; f_equal; rewrite Nat.tail_mul_spec;
    set (c := code _); vm_compute in c; subst c; lia.
Qed.

(** [n.toString()] of a natural number is its decimal numeral. *)
Lemma nat_to_string_digits (n : nat) :
  digits (nat_to_string n) /\ decimal 0 (nat_to_string n) = Z.of_nat n.
Proof.
  unfold nat_to_string, NilZero.string_of_uint.
  pose proof (DecimalNat.Unsigned.of_to n) as Hn. unfold Nat.of_uint in Hn.
  pose proof (uint_string_decimal (Nat.to_uint n) 0) as Hd. rewrite Hn in Hd.
  pose proof (uint_string_digits (Nat.to_uint n)) as Ha.
  destruct (Nat.to_uint n) eqn:E;
    [split; [split; [discriminate | reflexivity] | simpl in Hn; subst n; reflexivity] | ..];
    (split; [split; [discriminate | exact Ha] | exact Hd]).
Qed.

Lemma padStart_digits (k : nat) (s : string) :
  digits s ->
  digits (padStart k "0" s) /\ decimal 0 (padStart k "0" s) = decimal 0 s.
Proof.
  intros [Hne Hall]. unfold padStart.
  induction (k - String.length s)%nat as [| m [[_ IH1] IH2]]; simpl.
  - split; [split; assumption | reflexivity].
  - split; [split; [discriminate | exact IH1] | exact IH2].
Qed.

Lemma Qfloor_div_60 (t : Q) : Qfloor (t / 60) = (Qfloor t / 60)%Z.
Proof.
  destruct t as [a b]. unfold Qdiv, Qmult, Qinv, Qfloor. simpl.
  rewrite Z.mul_1_r, Pos2Z.inj_mul. symmetry. apply Z.div_div; lia.
Qed.

(** X16.  The clock of the time indicator and the timestamp parser agree:
    at a playback time that is not negative, the text the indicator shows
    after [T: ] parses back to the whole seconds of the playback time,
    also past 99 minutes, where the minutes take more than two digits. *)
Theorem clock_text_parses_back (t : Q) :
  0 <= t ->
  exists q, parseTimestamp (Some (clockText t)) = Num q /\ q == inject_Z (Qfloor t).
Proof.
  intros Ht.
  assert (Hf : (0 <= Qfloor t)%Z).
  { change 0%Z with (Qfloor 0). now apply Qfloor_resp_le. }
  assert (Hm : (0 <= Qfloor t / 60)%Z) by (apply Z.div_pos; lia).
  assert (Hs : (0 <= Z.rem (Qfloor t) 60)%Z) by (apply Z.rem_nonneg; lia).
  unfold clockText, int_to_string. rewrite Qfloor_div_60.
  destruct (Z.ltb_spec (Qfloor t / 60) 0) as [H | _]; [lia |].
  destruct (Z.ltb_spec (Z.rem (Qfloor t) 60) 0) as [H | _]; [lia |].
  destruct (nat_to_string_digits (Z.to_nat (Qfloor t / 60))) as [Dm Vm].
  destruct (nat_to_string_digits (Z.to_nat (Z.rem (Qfloor t) 60))) as [Ds Vs].
  destruct (padStart_digits 2 _ Dm) as [Dm' Vm'].
  destruct (padStart_digits 2 _ Ds) as [Ds' Vs'].
  destruct (parseTimestamp_mm_ss _ _ Dm' Ds') as (q & Hq & Hv & _).
  exists q. split; [exact Hq |].
  rewrite Hv. unfold seconds. rewrite Vm', Vs', Vm, Vs, !Z2Nat.id by assumption.
  apply inject_Z_injective.
  rewrite Z.rem_mod_nonneg by lia.
  pose proof (Z.div_mod (Qfloor t) 60). lia.
Qed.

Lemma clock_text_parses_back_witness :
  0 <= 754 # 10 /\ clockText (754 # 10) = "01:15"%string /\
  exists q, parseTimestamp (Some (clockText (754 # 10))) = Num q /\ q == 75.
Proof.
  split; [unfold Qle; simpl; lia |]. split; [reflexivity |].
  assert (Ht : 0 <= 754 # 10) by (unfold Qle; simpl; lia).
  destruct (clock_text_parses_back (754 # 10) Ht) as (q & Hq & Hv).
  exists q. split; [exact Hq | exact Hv].
Defined.

Lemma num_leb_true a b : num_leb a b = true <-> exists x y, a = Num x /\ b = Num y /\ x <= y.
Proof.
  split.
  - destruct a as [| x], b as [| y]; simpl; try discriminate.
    intros H. exists x, y. repeat split. now apply Qle_bool_iff.
  - intros (x & y & -> & -> & H). simpl. now apply Qle_bool_iff.
Qed.

Lemma subtitleShown_true t sub :
  subtitleShown t sub = true <->
  exists a b, parseTimestamp (Some (sub_start sub)) = Num a /\
              parseTimestamp (Some (sub_end sub)) = Num b /\ a <= t <= b.
Proof.
  unfold subtitleShown. rewrite andb_true_iff, !num_leb_true. split.
  - intros [(a & x & Ha & Hx & Hle) (y & b & Hy & Hb & Hle')].
    injection Hx as <-. injection Hy as <-. now exists a, b.
  - intros (a & b & Ha & Hb & H1 & H2). split.
    + now exists a, t.
    + now exists t, b.
Qed.

Lemma subtitleOverlay_elem isVideo subtitles t text :
  text ∈ subtitleOverlay isVideo subtitles t <->
  isVideo = true /\
  exists subs sub, subtitles = Some subs /\ sub ∈ subs /\ sub_text sub = text /\
                   subtitleShown t sub = true.
Proof.
  unfold subtitleOverlay. split.
  - destruct isVideo; [| intros H; now apply elem_of_nil in H].
    destruct subtitles as [subs |]; [| intros H; now apply elem_of_nil in H].
    intros H. apply list_elem_of_In, in_map_iff in H as (sub & Ht & Hin).
    apply filter_In in Hin as [Hin Hs]. apply list_elem_of_In in Hin.
    split; [reflexivity |]. now exists subs, sub.
  - intros (-> & subs & sub & -> & Hin & <- & Hs).
    apply list_elem_of_In, in_map, filter_In. split; [| exact Hs].
    now apply list_elem_of_In.
Qed.

(** X17.  On a video, a subtitle whose start and end are "MM:SS"
    timestamps of decimal digits is on screen exactly from its start to its
    end, both ends included, and then its text is in the overlay. *)
Theorem subtitle_shown_in_its_window (subs : list SubtitleSegment) (sub : SubtitleSegment)
    (mm ss mm' ss' : string) (t : Q) :
  digits mm -> digits ss -> digits mm' -> digits ss' ->
  sub_start sub = (mm ++ ":" ++ ss)%string ->
  sub_end sub = (mm' ++ ":" ++ ss')%string ->
  sub ∈ subs ->
  (subtitleShown t sub = true <-> seconds mm ss <= t <= seconds mm' ss') /\
  (seconds mm ss <= t <= seconds mm' ss' ->
   sub_text sub ∈ subtitleOverlay true (Some subs) t).
Proof.
  intros Dm Ds Dm' Ds' Hstart Hend Hin.
  destruct (parseTimestamp_mm_ss mm ss Dm Ds) as (a & Ha & Va & _).
  destruct (parseTimestamp_mm_ss mm' ss' Dm' Ds') as (b & Hb & Vb & _).
  assert (Hiff : subtitleShown t sub = true <-> seconds mm ss <= t <= seconds mm' ss').
  { rewrite subtitleShown_true, Hstart, Hend. split.
    - intros (a' & b' & Ha' & Hb' & H). rewrite Ha in Ha'. rewrite Hb in Hb'.
      injection Ha' as <-. injection Hb' as <-. lra.
    - intros H. exists a, b. split; [exact Ha |]. split; [exact Hb | lra]. }
  split; [exact Hiff |].
  intros H. apply subtitleOverlay_elem. split; [reflexivity |].
  exists subs, sub. repeat split; [exact Hin | now apply Hiff].
Qed.

Lemma subtitle_shown_in_its_window_witness :
  digits "00" /\ digits "02" /\ digits "05" /\ spoken ∈ [spoken; open_ended] /\
  subtitleShown 5 spoken = true /\
  subtitleOverlay true (Some [spoken; open_ended]) 5 = ["hello"%string] /\
  sub_text spoken ∈ subtitleOverlay true (Some [spoken; open_ended]) 5.
Proof.
  assert (D0 : digits "00") by (split; [discriminate | reflexivity]).
  assert (D2 : digits "02") by (split; [discriminate | reflexivity]).
  assert (D5 : digits "05") by (split; [discriminate | reflexivity]).
  assert (Hin : spoken ∈ [spoken; open_ended]) by (apply elem_of_cons; now left).
  assert (Hw : seconds "00" "02" <= 5 <= seconds "00" "05")
    by (split; vm_compute; discriminate).
  pose proof (subtitle_shown_in_its_window [spoken; open_ended] spoken "00" "02" "00" "05" 5
                D0 D2 D0 D5 eq_refl eq_refl Hin) as [Hiff Hov].
  split; [exact D0 |]. split; [exact D2 |]. split; [exact D5 |]. split; [exact Hin |].
  split; [apply Hiff, Hw |]. split; [reflexivity | apply Hov, Hw].
Defined.

(** A timestamp without exactly two colon-separated fields parses to
    [-1]. *)
Lemma parseTimestamp_wrong_field_count s :
  length (split ":" s) <> 2%nat -> parseTimestamp (Some s) = Num (-1).
Proof.
  intros H. unfold parseTimestamp. destruct s as [| ch s']; [reflexivity |].
  destruct (split ":" (String ch s')) as [| p0 [| p1 [| p2 ps]]];
    try reflexivity. now contradiction H.
Qed.

(** X18.  The overlay shows a text exactly when the source is a video, the
    analysis has subtitles, and some segment with that text has a start
    and an end that both parse to numbers which enclose the playback time.
    So a segment with a bound that parses to [NaN] (two fields, one of
    them no number) never shows.  A bound without exactly two
    colon-separated fields parses to [-1]: a segment with such an end never
    shows at a playback time that is not negative, while a segment with
    such a start is not hidden, it shows from the beginning of the video
    until its end. *)
Theorem subtitle_overlay_bounds (isVideo : bool)
    (subtitles : option (list SubtitleSegment)) (t : Q) :
  (forall text,
     text ∈ subtitleOverlay isVideo subtitles t <->
     isVideo = true /\
     exists subs sub a b, subtitles = Some subs /\ sub ∈ subs /\ sub_text sub = text /\
       parseTimestamp (Some (sub_start sub)) = Num a /\
       parseTimestamp (Some (sub_end sub)) = Num b /\
       a <= t <= b) /\
  (forall sub,
     parseTimestamp (Some (sub_start sub)) = NaN \/
     parseTimestamp (Some (sub_end sub)) = NaN ->
     subtitleShown t sub = false) /\
  (forall sub,
     length (split ":" (sub_end sub)) <> 2%nat -> 0 <= t -> subtitleShown t sub = false) /\
  (forall sub b,
     length (split ":" (sub_start sub)) <> 2%nat ->
     parseTimestamp (Some (sub_end sub)) = Num b -> 0 <= t ->
     (subtitleShown t sub = true <-> t <= b)).
Proof.
  split; [| split; [| split]].
  - intros text. rewrite subtitleOverlay_elem. split.
    + intros (Hv & subs & sub & Hs & Hin & Ht & Hshown). split; [exact Hv |].
      apply subtitleShown_true in Hshown as (a & b & Ha & Hb & Hab).
      now exists subs, sub, a, b.
    + intros (Hv & subs & sub & a & b & Hs & Hin & Ht & Ha & Hb & Hab).
      split; [exact Hv |]. exists subs, sub. repeat split; try assumption.
      apply subtitleShown_true. now exists a, b.
  - intros sub Hnan. destruct (subtitleShown t sub) eqn:E; [| reflexivity].
    apply subtitleShown_true in E as (a & b & Ha & Hb & _).
    destruct Hnan as [H | H]; congruence.
  - intros sub Hend Ht. destruct (subtitleShown t sub) eqn:E; [| reflexivity].
    apply subtitleShown_true in E as (a & b & _ & Hb & _ & Hle).
    rewrite (parseTimestamp_wrong_field_count _ Hend) in Hb. injection Hb as <-. lra.
  - intros sub b Hstart Hb Ht. rewrite subtitleShown_true.
    rewrite (parseTimestamp_wrong_field_count _ Hstart), Hb. split.
    + intros (a' & b' & Ha' & Hb' & _ & Hle). injection Hb' as <-. exact Hle.
    + intros Hle. exists (-1), b. repeat split; try reflexivity; lra.
Qed.

Lemma subtitle_overlay_bounds_witness :
  subtitleOverlay true (Some [spoken; open_ended; unstarted; garbled_start]) 3
    = ["hello"; "early"]%string /\
  subtitleOverlay true (Some [spoken; open_ended; unstarted; garbled_start]) 7 = [] /\
  subtitleOverlay false (Some [spoken; open_ended; unstarted; garbled_start]) 3 = [] /\
  subtitleShown 7 open_ended = false /\
  subtitleShown 3 garbled_start = false /\
  subtitleShown 3 unstarted = true.
Proof.
  split; [reflexivity |]. split; [reflexivity |]. split; [reflexivity |].
  assert (H3 : 0 <= 3) by (unfold Qle; simpl; lia).
  assert (H7 : 0 <= 7) by (unfold Qle; simpl; lia).
  destruct (subtitle_overlay_bounds true None 7) as (_ & _ & Hend & _).
  destruct (subtitle_overlay_bounds true None 3) as (_ & Hnan & _ & Hstart).
  split; [| split].
  - apply Hend; [vm_compute; lia | exact H7].
  - apply Hnan. now left.
  - apply (Hstart unstarted 5); [vm_compute; lia | reflexivity | exact H3 |].
    unfold Qle; simpl; lia.
Defined.

(** * Gestures *)

Section Gestures.
Variable hypot : Q -> Q -> Q.

(** X19.  From the initial view, whatever the sequence of wheel, mouse
    and touch events, resets and media loads, and whatever distances the
    touches report, the zoom scale stays between 0.05 and 8. *)
Theorem view_scale_always_in_bounds (events : list Event) :
  MIN_SCALE <= v_scale (run hypot events initialView) <= MAX_SCALE.
Proof.
  apply run_scale_in_bounds, initialView_in_bounds.
Qed.

Lemma run_cons e events v : run hypot (e :: events) v = run hypot events (step hypot v e).
Proof. reflexivity. Qed.

Lemma run_app events events' v :
  run hypot (events ++ events') v = run hypot events' (run hypot events v).
Proof. apply fold_left_app. Qed.

(** While the pointer is down, moves keep the drag going from where it
    started. *)
Lemma moves_while_dragging touch moves v :
  isDragging v = true ->
  let v' := run hypot (map (pointerMove touch) moves) v in
  isDragging v' = true /\ dragStart v' = dragStart v /\ v_scale v' = v_scale v /\
  (moves = [] -> v_offset v' = v_offset v).
Proof.
  revert v. induction moves as [| p moves IH]; intros v Hd; [now simpl |].
  cbv zeta. cbn [map]. rewrite run_cons.
  assert (Hstep : isDragging (step hypot v (pointerMove touch p)) = true /\
                  dragStart (step hypot v (pointerMove touch p)) = dragStart v /\
                  v_scale (step hypot v (pointerMove touch p)) = v_scale v).
  { destruct touch; simpl; unfold handleMouseMove; rewrite Hd; now simpl. }
  destruct Hstep as (H1 & H2 & H3).
  destruct (IH _ H1) as (I1 & I2 & I3 & _).
  split; [exact I1 |]. split; [congruence |]. split; [congruence | discriminate].
Qed.

(** X20.  A drag tracks the pointer without drift: after the pointer went
    down at a point and moved, through any intermediate positions, to
    another point, the offset is the offset at the start plus the
    displacement of the pointer, and the scale is unchanged; the same for
    the mouse and for one finger. *)
Theorem drag_follows_pointer (touch : bool) (v : ViewState) (p0 : Q * Q)
    (moves : list (Q * Q)) (p : Q * Q) :
  let v' := run hypot (pointerDown touch p0 :: map (pointerMove touch) moves
                       ++ [pointerMove touch p]) v in
  fst (v_offset v') == fst (v_offset v) + (fst p - fst p0) /\
  snd (v_offset v') == snd (v_offset v) + (snd p - snd p0) /\
  v_scale v' = v_scale v.
Proof.
  cbv zeta. rewrite run_cons, run_app.
  set (v0 := step hypot v (pointerDown touch p0)).
  assert (H0 : isDragging v0 = true /\ v_scale v0 = v_scale v /\
               dragStart v0 = (fst p0 - fst (v_offset v), snd p0 - snd (v_offset v))).
  { subst v0. destruct touch; now simpl. }
  destruct H0 as (Hd & Hs & Hstart).
  destruct (moves_while_dragging touch moves v0 Hd) as (M1 & M2 & M3 & _).
  set (v1 := run hypot (map (pointerMove touch) moves) v0) in *.
  rewrite run_cons. cbn [run fold_left].
  assert (Hlast : v_offset (step hypot v1 (pointerMove touch p))
                  = (fst p - fst (dragStart v1), snd p - snd (dragStart v1)) /\
                  v_scale (step hypot v1 (pointerMove touch p)) = v_scale v1).
  { destruct touch; simpl; unfold handleMouseMove; rewrite M1; now simpl. }
  destruct Hlast as [Ho Hsc]. rewrite Ho, Hsc, M2, M3, Hs, Hstart. simpl.
  repeat split; ring.
Qed.

(** Without a drag going on, moves change nothing. *)
Lemma moves_without_drag touch moves v :
  isDragging v = false -> run hypot (map (pointerMove touch) moves) v = v.
Proof.
  revert v. induction moves as [| p moves IH]; intros v Hd; [reflexivity |].
  cbn [map]. rewrite run_cons.
  assert (Hstep : step hypot v (pointerMove touch p) = v).
  { destruct touch; simpl; unfold handleMouseMove; now rewrite Hd. }
  rewrite Hstep. now apply IH.
Qed.

(** X21.  Once the button or the finger is released, or a second finger
    has come down, moves of the pointer do not pan: the offset and the
    scale stay as they were, through any number of moves, until the
    pointer goes down again. *)
Theorem released_pointer_does_not_pan (touch : bool) (v : ViewState) (e : Event)
    (moves : list (Q * Q)) :
  e = MouseUp \/ e = TouchEnd \/ (exists a b, e = TouchStart [a; b]) ->
  let v' := run hypot (e :: map (pointerMove touch) moves) v in
  v_offset v' = v_offset v /\ v_scale v' = v_scale v /\ isDragging v' = false.
Proof.
  intros He. cbv zeta. rewrite run_cons.
  assert (H : isDragging (step hypot v e) = false /\
              v_offset (step hypot v e) = v_offset v /\
              v_scale (step hypot v e) = v_scale v).
  { destruct He as [-> | [-> | (a & b & ->)]]; now simpl. }
  destruct H as (Hd & Ho & Hs). rewrite (moves_without_drag touch moves _ Hd). auto.
Qed.

Lemma pinch_moves_keep_start moves v :
  isDragging v = false ->
  let v' := run hypot (map pinchMove moves) v in
  isDragging v' = false /\ initialPinchDistance v' = initialPinchDistance v /\
  initialScale v' = initialScale v /\ v_offset v' = v_offset v /\
  (moves = [] -> v_scale v' = v_scale v).
Proof.
  revert v. induction moves as [| m moves IH]; intros v Hd; [now simpl |].
  cbv zeta. cbn [map]. rewrite run_cons.
  assert (Hstep : isDragging (step hypot v (pinchMove m)) = false /\
                  initialPinchDistance (step hypot v (pinchMove m)) = initialPinchDistance v /\
                  initialScale (step hypot v (pinchMove m)) = initialScale v /\
                  v_offset (step hypot v (pinchMove m)) = v_offset v).
  { unfold pinchMove. cbn [step]. unfold handleTouchMove.
    destruct (pinching hypot [fst m; snd m] v) as [[cur d0] |]; now simpl. }
  destruct Hstep as (H1 & H2 & H3 & H4).
  destruct (IH _ H1) as (I1 & I2 & I3 & I4 & _).
  repeat split; congruence.
Qed.

(** X22.  A pinch zooms relative to its start, not cumulatively: after two
    fingers came down and moved, through any intermediate positions, the
    scale is the scale at the start times the ratio of the last distance
    between the fingers to the first, clamped; the offset is unchanged.
    When the fingers came down at distance zero the pinch does not zoom at
    all. *)
Theorem pinch_scales_from_its_start (v : ViewState) (a b : Q * Q)
    (moves : list ((Q * Q) * (Q * Q))) (c d : Q * Q) :
  let v' := run hypot (TouchStart [a; b] :: map pinchMove moves ++ [pinchMove (c, d)]) v in
  v_scale v' =
    (if Qeq_bool (touchDistance hypot a b) 0 then v_scale v
     else clampScale (v_scale v * (touchDistance hypot c d / touchDistance hypot a b))) /\
  v_offset v' = v_offset v.
Proof.
  cbv zeta. rewrite run_cons, run_app.
  set (v0 := step hypot v (TouchStart [a; b])).
  assert (H0 : isDragging v0 = false /\ initialPinchDistance v0 = Some (touchDistance hypot a b) /\
               initialScale v0 = v_scale v /\ v_offset v0 = v_offset v /\
               v_scale v0 = v_scale v).
  { subst v0. now simpl. }
  destruct H0 as (Hd & Hp & Hi & Ho & Hs).
  destruct (pinch_moves_keep_start moves v0 Hd) as (M1 & M2 & M3 & M4 & M5).
  set (v1 := run hypot (map pinchMove moves) v0) in *.
  rewrite run_cons. cbn [run fold_left].
  assert (Hlast : step hypot v1 (pinchMove (c, d)) =
                  if Qeq_bool (touchDistance hypot a b) 0 then v1
                  else setScale (clampScale (initialScale v1 *
                         (touchDistance hypot c d / touchDistance hypot a b))) v1).
  { unfold pinchMove. cbn [step fst snd]. unfold handleTouchMove, pinching.
    rewrite M2, Hp. now destruct (Qeq_bool (touchDistance hypot a b) 0). }
  rewrite Hlast.
  destruct (Qeq_bool (touchDistance hypot a b) 0) eqn:E.
  - split; [| congruence].
    destruct moves as [| m moves]; [rewrite (M5 eq_refl); exact Hs |].
    (* with a zero start distance no pinch move changed the scale *)
    clear M5. subst v1.
    assert (Hnone : forall ms u, initialPinchDistance u = Some (touchDistance hypot a b) ->
               run hypot (map pinchMove ms) u = u).
    { induction ms as [| m' ms IHms]; intros u Hu; [reflexivity |].
      cbn [map]. rewrite run_cons.
      assert (Hu' : step hypot u (pinchMove m') = u).
      { unfold pinchMove. simpl. unfold handleTouchMove, pinching. now rewrite Hu, E. }
      rewrite Hu'. now apply IHms. }
    rewrite (Hnone (m :: moves) v0 Hp). exact Hs.
  - simpl. split; [| congruence]. now rewrite M3, Hi.
Qed.
End Gestures.

Lemma released_pointer_does_not_pan_witness :
  let v := run hypot_axis [MouseDown (0, 0); MouseMove (5, 5)] initialView in
  let v' := run hypot_axis [MouseUp; MouseMove (50, 50); MouseMove (90, 10)] v in
  v_offset v = (5, 5) /\ v_offset v' = v_offset v /\ v_scale v' = v_scale v.
Proof.
  split; [reflexivity |].
  destruct (released_pointer_does_not_pan hypot_axis false
              (run hypot_axis [MouseDown (0, 0); MouseMove (5, 5)] initialView) MouseUp
              [(50, 50); (90, 10)] (or_introl eq_refl)) as (Ho & Hs & _).
  split; [exact Ho | exact Hs].
Defined.

(** * Live detections of one tick *)

Lemma stampDetections_elem ts results det :
  det ∈ stampDetections ts results <->
  exists r, r ∈ results /\ det = mkLive (label r) (live_box_2d r) (Some ts).
Proof.
  unfold stampDetections. rewrite list_elem_of_In, in_map_iff. split.
  - intros (r & <- & Hr). exists r. split; [now apply list_elem_of_In | reflexivity].
  - intros (r & Hr & ->). exists r. split; [reflexivity | now apply list_elem_of_In].
Qed.

(** X23.  The detections of one tick of the live loop carry the video time
    of the frame they were captured on, so over a video they go stale
    together.  Within 1.2 seconds of the capture each of them is drawn.
    Later none is; and as the list is not empty the committed entities are
    not drawn either: the frame holds only the background, the media and
    the grid, until the next tick or until the list is cleared. *)
Theorem stale_tick_leaves_only_background (p : Props) (c : CanvasState) (ts : Q)
    (results : list LiveDetection) :
  isVideo p = true ->
  liveDetections p = stampDetections ts results ->
  results <> [] ->
  (Qabs (currentTime c - ts) <= STALENESS_BOUND ->
     forall r, r ∈ results ->
       exists x y bw bh lw,
         LiveBox (mkLive (label r) (live_box_2d r) (Some ts)) x y bw bh lw ∈ render p c) /\
  (STALENESS_BOUND < Qabs (currentTime c - ts) ->
     forall cmd, cmd ∈ render p c -> isBackground cmd = true).
Proof.
  intros Hv Hlive Hne. split.
  - intros Hfresh r Hr.
    set (det := mkLive (label r) (live_box_2d r) (Some ts)).
    destruct (liveCmds_box c det) as (x & y & bw & bh & lw & Hbox).
    exists x, y, bw, bh, lw. apply render_cases. right. left.
    apply drawAllLive_spec. exists det. split; [| split; [| exact Hbox]].
    + rewrite Hlive. apply stampDetections_elem. now exists r.
    + unfold isGhost. subst det. cbn [live_timestamp]. rewrite Hv. cbn [andb].
      now apply Qltb_false.
  - intros Hstale cmd Hcmd. apply render_cases in Hcmd as [Hbg | [Hl | [Hnil _]]].
    + now apply background_cmds in Hbg.
    + apply drawAllLive_spec in Hl as (det & Hdet & Hghost & _).
      rewrite Hlive in Hdet. apply stampDetections_elem in Hdet as (r & _ & ->).
      unfold isGhost in Hghost. cbn [live_timestamp] in Hghost.
      rewrite Hv in Hghost. cbn [andb] in Hghost.
      apply Qltb_false in Hghost. exfalso. exact (Qlt_not_le _ _ Hstale Hghost).
    + rewrite Hlive in Hnil. destruct results; [congruence | discriminate].
Qed.

Lemma stale_tick_leaves_only_background_witness :
  let results := [mkLive "person" (100, 100, 300, 200) None;
                  mkLive "dog" (400, 400, 500, 500) None] in
  let p := mkProps (Some (mkResult [entity_plain])) (stampDetections 5 results)
                   100 true (Some 4%nat) true in
  let c := mkCanvas (mkDims 1000 1000) 1 (0, 0) 7 in
  isVideo p = true /\ results <> [] /\ STALENESS_BOUND < Qabs (currentTime c - 5) /\
  render p c = [Clear; Viewport 1 (0, 0) (mkDims 1000 1000); MediaFrame; Grid] /\
  forall cmd, cmd ∈ render p c -> isBackground cmd = true.
Proof.
  intros results p c.
  split; [reflexivity |]. split; [discriminate |].
  assert (Hstale : STALENESS_BOUND < Qabs (currentTime c - 5)) by reflexivity.
  split; [exact Hstale |]. split; [reflexivity |].
  refine (proj2 (stale_tick_leaves_only_background p c 5 results eq_refl eq_refl _) Hstale).
  discriminate.
Defined.

(** * Grounding links *)

Lemma pushLink_prefix wp link : wp `prefix_of` pushLink wp link.
Proof.
  unfold pushLink. destruct (existsb _ wp); [reflexivity | now exists [link]].
Qed.

Lemma existsb_url wp u :
  existsb (fun x => String.eqb (url x) u) wp = true <-> u ∈ map url wp.
Proof.
  rewrite existsb_exists, list_elem_of_In, in_map_iff. split.
  - intros (x & Hx & E). apply String.eqb_eq in E. now exists x.
  - intros (x & E & Hx). exists x. split; [exact Hx | now apply String.eqb_eq].
Qed.

Lemma pushLink_url wp link : url link ∈ map url (pushLink wp link).
Proof.
  unfold pushLink. destruct (existsb _ wp) eqn:E.
  - now apply existsb_url.
  - rewrite map_app. apply elem_of_app. right. apply elem_of_cons. now left.
Qed.

Lemma pushLink_NoDup wp link : NoDup (map url wp) -> NoDup (map url (pushLink wp link)).
Proof.
  intros Hnd. unfold pushLink. destruct (existsb _ wp) eqn:E; [exact Hnd |].
  rewrite map_app. apply NoDup_app. split; [exact Hnd |]. split.
  - intros u Hu Hu'. apply list_elem_of_singleton in Hu'. subst u.
    apply existsb_url in Hu. congruence.
  - apply NoDup_singleton.
Qed.

Lemma pushLink_elem wp link x : x ∈ pushLink wp link -> x ∈ wp \/ x = link.
Proof.
  unfold pushLink. destruct (existsb _ wp); [now left |].
  rewrite elem_of_app, list_elem_of_singleton. tauto.
Qed.

Lemma pushLinks_spec links wp :
  wp `prefix_of` fold_left pushLink links wp /\
  (forall link, link ∈ links -> url link ∈ map url (fold_left pushLink links wp)) /\
  (forall x, x ∈ fold_left pushLink links wp -> x ∈ wp \/ x ∈ links) /\
  (NoDup (map url wp) -> NoDup (map url (fold_left pushLink links wp))).
Proof.
  revert wp. induction links as [| link links IH]; intros wp.
  - simpl. split; [reflexivity |]. split; [| split; [now left | auto]].
    intros link H. now apply elem_of_nil in H.
  - simpl. destruct (IH (pushLink wp link)) as (Hpre & Hurl & Hel & Hnd).
    split; [| split; [| split]].
    + etransitivity; [apply pushLink_prefix | exact Hpre].
    + intros x Hx. apply elem_of_cons in Hx as [-> | Hx]; [| now apply Hurl].
      destruct Hpre as [k ->]. rewrite map_app. apply elem_of_app. left.
      apply pushLink_url.
    + intros x Hx. apply Hel in Hx as [Hx | Hx].
      * apply pushLink_elem in Hx as [Hx | ->]; [now left | right].
        apply elem_of_cons. now left.
      * right. apply elem_of_cons. now right.
    + intros H. apply Hnd, pushLink_NoDup, H.
Qed.

Lemma sourceLink_elem src fallback rel x :
  x ∈ sourceLink src fallback rel <->
  exists g u, src = Some g /\ uri g = Some u /\ u <> EmptyString /\
              x = mkProvenance (orElse (title g) fallback) u rel.
Proof.
  unfold sourceLink. split.
  - destruct src as [g |]; [| intros H; now apply elem_of_nil in H].
    destruct (uri g) as [[| ch u] |] eqn:E; try (intros H; now apply elem_of_nil in H).
    intros H. apply list_elem_of_singleton in H. exists g, (String ch u).
    repeat split; [exact E | discriminate | exact H].
  - intros (g & u & -> & -> & Hu & ->). destruct u as [| ch u]; [congruence |].
    now apply list_elem_of_singleton.
Qed.

(** X24.  Merging the grounding chunks of a response only appends: the
    links the analysis already held stay first, unchanged and in order;
    every web or map source of a chunk with a non-empty uri has its uri
    among the urls afterwards; and every link that was added comes from
    such a source, under the source's title or the default title of its
    kind. *)
Theorem grounding_links_are_appended (web_provenance : list WebProvenance)
    (chunks : list GroundingChunk) :
  let merged := mergeGrounding web_provenance (Some chunks) in
  web_provenance `prefix_of` merged /\
  (forall chunk g u, chunk ∈ chunks -> web chunk = Some g \/ maps chunk = Some g ->
     uri g = Some u -> u <> EmptyString -> u ∈ map url merged) /\
  (forall x, x ∈ merged -> x ∈ web_provenance \/
     exists chunk g u, chunk ∈ chunks /\ uri g = Some u /\ u <> EmptyString /\
       ((web chunk = Some g /\
         x = mkProvenance (orElse (title g) "Web Source") u "Grounding Reference") \/
        (maps chunk = Some g /\
         x = mkProvenance (orElse (title g) "Google Maps Location") u
                          "Location Verification"))).
Proof.
  cbv zeta. unfold mergeGrounding.
  destruct (pushLinks_spec (groundingLinks chunks) web_provenance) as (Hpre & Hurl & Hel & _).
  split; [exact Hpre |]. split.
  - intros chunk g u Hchunk Hsrc Hu Hne.
    assert (Hlink : exists x, url x = u /\ x ∈ groundingLinks chunks).
    { unfold groundingLinks. destruct Hsrc as [Hs | Hs].
      - exists (mkProvenance (orElse (title g) "Web Source") u "Grounding Reference").
        split; [reflexivity |]. apply list_elem_of_join. eexists.
        split; [| apply list_elem_of_In, in_map, list_elem_of_In, Hchunk].
        apply elem_of_app. left. apply sourceLink_elem. now exists g, u.
      - exists (mkProvenance (orElse (title g) "Google Maps Location") u
                             "Location Verification").
        split; [reflexivity |]. apply list_elem_of_join. eexists.
        split; [| apply list_elem_of_In, in_map, list_elem_of_In, Hchunk].
        apply elem_of_app. right. apply sourceLink_elem. now exists g, u. }
    destruct Hlink as (x & <- & Hx). now apply Hurl.
  - intros x Hx. apply Hel in Hx as [Hx | Hx]; [now left | right].
    unfold groundingLinks in Hx. apply list_elem_of_join in Hx as (ls & Hx & Hls).
    apply list_elem_of_In, in_map_iff in Hls as (chunk & <- & Hchunk).
    apply list_elem_of_In in Hchunk.
    apply elem_of_app in Hx as [Hx | Hx];
      apply sourceLink_elem in Hx as (g & u & Hg & Hu & Hne & ->);
      exists chunk, g, u; repeat split; auto.
Qed.

Lemma grounding_links_are_appended_witness :
  mergeGrounding [link_a] (Some sample_chunks)
    = [link_a;
       mkProvenance "Web Source" "https://b.example" "Grounding Reference";
       mkProvenance "Plaza" "https://maps.example/1" "Location Verification"] /\
  [link_a] `prefix_of` mergeGrounding [link_a] (Some sample_chunks) /\
  "https://b.example"%string ∈ map url (mergeGrounding [link_a] (Some sample_chunks)).
Proof.
  split; [reflexivity |].
  destruct (grounding_links_are_appended [link_a] sample_chunks) as (Hpre & Hurl & _).
  split; [exact Hpre |].
  apply (Hurl (mkChunk (Some (mkSource (Some "https://b.example"%string) (Some "B"%string)))
                       None)
              (mkSource (Some "https://b.example"%string) (Some "B"%string))).
  - unfold sample_chunks. rewrite !elem_of_cons. right. right. now left.
  - now left.
  - reflexivity.
  - discriminate.
Defined.

(** X25.  The merge adds no url twice: when the links the analysis held
    have pairwise different urls, so have the links after the merge, also
    when several chunks name the same uri; and merging the same chunks a
    second time adds nothing. *)
Theorem grounding_merge_adds_no_duplicate (web_provenance : list WebProvenance)
    (chunks : list GroundingChunk) :
  NoDup (map url web_provenance) ->
  let merged := mergeGrounding web_provenance (Some chunks) in
  NoDup (map url merged) /\ mergeGrounding merged (Some chunks) = merged.
Proof.
  intros Hnd. cbv zeta. unfold mergeGrounding.
  destruct (pushLinks_spec (groundingLinks chunks) web_provenance) as (_ & Hurl & _ & Hnd').
  split; [now apply Hnd' |]. clear Hnd'.
  revert Hurl. generalize (fold_left pushLink (groundingLinks chunks) web_provenance).
  intros merged Hurl.
  induction (groundingLinks chunks) as [| link links IH]; [reflexivity |].
  simpl. unfold pushLink at 2.
  rewrite (proj2 (existsb_url merged (url link)))
    by (apply Hurl, elem_of_cons; now left).
  apply IH. intros x Hx. apply Hurl, elem_of_cons. now right.
Qed.

Lemma grounding_merge_adds_no_duplicate_witness :
  NoDup (map url [link_a]) /\
  map url (mergeGrounding [link_a] (Some sample_chunks))
    = ["https://a.example"; "https://b.example"; "https://maps.example/1"]%string /\
  NoDup (map url (mergeGrounding [link_a] (Some sample_chunks))).
Proof.
  assert (Hnd : NoDup (map url [link_a])) by apply NoDup_singleton.
  split; [exact Hnd |]. split; [reflexivity |].
  exact (proj1 (grounding_merge_adds_no_duplicate [link_a] sample_chunks Hnd)).
Defined.

(** * The link list of the report *)




